(** * node-msgr: the RPC correlation engine of [src/index.ts]

    A shallow embedding of the [Msgr] class: the registry of unresolved
    RPC calls, the reply listener, the per-call timeout, the deferral of
    calls issued before the channel exists and the connection retry loop.

    The class runs on a single-threaded event loop.  The embedding makes
    that loop explicit: one [Event] is one task of the loop (a call of the
    public API, a completion reported by the transport, a message on the
    reply queue, a timer that fires, one job of the promise job queue) and
    [step] is what the source does in that task.

    What is outside the source is taken as input: [JSON.parse] (a message
    carries the result of parsing its body), [Uuid.v4] (the stream of
    generated ids) and the answers of the AMQP transport.  A published
    body is the value its text encodes.  Numbers are the integers that
    JavaScript represents exactly. *)

Set Warnings "-register-all,-rewrite-rw".

From Stdlib Require Import ssreflect.
From stdpp Require Import gmap strings list fin_maps pretty.

Open Scope string_scope.
Open Scope list_scope.
Open Scope nat_scope.

(** ** JavaScript values *)

(** The values [JSON.parse] can produce, and [undefined], which reading a
    missing property produces.  The fields of an object are listed with
    distinct keys. *)
Inductive value :=
  | VUndefined
  | VNull
  | VBool (b : bool)
  | VNum (n : Z)
  | VStr (s : string)
  | VArr (items : list value)
  | VObj (fields : list (string * value)).

(** The conversion to boolean of [if], [&&] and [||]. *)
Definition truthy (v : value) : bool :=
  match v with
  | VUndefined | VNull => false
  | VBool b => b
  | VNum n => negb (n =? 0)%Z
  | VStr s => negb (String.eqb s "")
  | VArr _ | VObj _ => true
  end.

Fixpoint assoc (k : string) (fields : list (string * value)) : option value :=
  match fields with
  | [] => None
  | (k', v) :: rest => if String.eqb k k' then Some v else assoc k rest
  end.

(** [get v k] is [v.k] for the keys the source reads ([error], [trace],
    [data]), which no built-in prototype defines: [None] is the TypeError
    of reading a property of [null] or [undefined]. *)
Definition get (v : value) (k : string) : option value :=
  match v with
  | VUndefined | VNull => None
  | VObj fields => Some (default VUndefined (assoc k fields))
  | _ => Some VUndefined
  end.

(** [JSON.stringify(v)], as the value the text encodes: [None] when it
    returns [undefined] instead of a text.  An [undefined] element of an
    array is written [null], a property whose value is [undefined] is left
    out. *)
Fixpoint JSON_stringify (v : value) : option value :=
  match v with
  | VUndefined => None
  | VArr items => Some (VArr (map (λ x, default VNull (JSON_stringify x)) items))
  | VObj fields =>
      Some (VObj (omap (λ kv, let '(k, x) := kv in pair k <$> JSON_stringify x) fields))
  | _ => Some v
  end.

(** A plain object used as a bag of options. *)
Abbreviation Obj := (gmap string value).

(** [Object.assign({}, a, b)]: the properties of [b] override those of [a]. *)
Definition Object_assign (a b : Obj) : Obj := b ∪ a.

Inductive JsError :=
  | Error (message : string)
  | ClientError (message : string) (clientMessages : value)
  | TypeError
  | SyntaxError
  | UnhandledErrorEvent.

(** [new Buffer(text)] (lines 66 and 109), [text] being what
    [JSON.stringify] returned: the body of a message, or the TypeError of
    [new Buffer(undefined)]. *)
Definition new_Buffer (text : option value) : JsError + value :=
  match text with
  | Some body => inr body
  | None => inl TypeError
  end.

(** The two ways of settling the promise [rpcExec] returns. *)
Inductive Settle :=
  | Resolve (v : value)
  | Reject (e : JsError).

(** ** Constants and option records *)

Definition DEFAULT_CONSUME_OPTIONS : Obj := {[ "noAck" := VBool true ]}.
Definition DEFAULT_SEND_OPTIONS : Obj := {[ "contentType" := VStr "application/json" ]}.

Record ConnectionOptions := {
  maxConnectionAttempts : Z;
  connectionRetryInterval : Z
}.

Definition DEFAULT_CONNECTION_OPTIONS : ConnectionOptions :=
  {| maxConnectionAttempts := 50; connectionRetryInterval := 1000 |}.

(** The [options] argument of the constructor: each field may be absent. *)
Record UserConnectionOptions := {
  u_maxConnectionAttempts : option Z;
  u_connectionRetryInterval : option Z
}.

(** [Object.assign({}, DEFAULT_CONNECTION_OPTIONS, options)] *)
Definition merge_connection_options (o : UserConnectionOptions) : ConnectionOptions :=
  {| maxConnectionAttempts :=
       default (maxConnectionAttempts DEFAULT_CONNECTION_OPTIONS) (u_maxConnectionAttempts o);
     connectionRetryInterval :=
       default (connectionRetryInterval DEFAULT_CONNECTION_OPTIONS) (u_connectionRetryInterval o) |}.

(** [Msgr.RpcOptions], the [options] of [rpcExec] ([{}] when omitted):
    the publish options of the transport and [timeout]. *)
Record RpcOptions := {
  timeout : option Z;
  publishOptions : Obj
}.

(** [options.timeout || 15000] *)
Definition effective_timeout (o : RpcOptions) : Z :=
  match timeout o with
  | Some t => if (t =? 0)%Z then 15000%Z else t
  | None => 15000%Z
  end.

(** The message of the timeout error (line 73); the timeout is printed
    with all its digits. *)
Definition timeout_message (t : Z) : string :=
  "RPC Server failed to respond before the configured timeout (" +:+ pretty t +:+ "ms)".

(** ** Messages *)

(** A message of the transport, as far as the source reads it:
    [properties.correlationId] and the outcome of
    [JSON.parse(content.toString())], [None] when parsing throws. *)
Record Message := {
  correlationId : option string;
  parsed : option value
}.

(** ** Closures *)

(** The function stored in [unresolved] (lines 76-91) closes over the
    timer and over [resolve]/[reject] of one promise. *)
Record Callback := {
  cb_timer : nat;
  cb_promise : nat
}.

(** The three closures [() => this.m(args)] of the deferred calls. *)
Inductive Deferred :=
  | DRpcExec (key : string) (data : value) (opts : RpcOptions) (promise : nat)
  | DPublish (key : string) (data : value) (opts : option Obj)
  | DConsume (queueName : string) (callback : nat) (opts : Obj).

(** Reactions registered with [then]: [() => resolve()] of
    [_waitForChannel], and the retry of a deferred call. *)
Inductive Reaction :=
  | RResolve (waiter : nat)
  | RRetry (call : Deferred).

Inductive Status := Pending | Fulfilled | Rejected.

Record Promise := {
  status : Status;
  reactions : list Reaction
}.

(** What [setTimeout] was given: the timeout of an RPC call (lines 70-74)
    or the delay before the next connection attempt (lines 144-145). *)
Inductive TimerHandler :=
  | RpcTimeout (id : string) (promise : nat) (ms : Z)
  | RetryConnect (promise : nat) (attempts : Z).

Record Timer := {
  handler : TimerHandler;
  delay : Z
}.

(** The delays [setTimeout] takes as they are: it replaces a delay below
    1 or above 2^31 - 1 by 1. *)
Definition valid_delay (ms : Z) : Prop := (1 ≤ ms ≤ 2147483647)%Z.

(** The [once('error')] listener of a channel (lines 139-146). *)
Record Listener := {
  l_connection : nat;
  l_promise_attempts : Z
}.

(** Suspended asynchronous code, waiting for the transport: [_connect] at
    one of its four [await]s, or the promise chain of [consume]. *)
Inductive ConnectPhase :=
  | AwaitConnect
  | AwaitCreateChannel (connection : nat)
  | AwaitAssertQueue
  | AwaitBindQueue.

Inductive ConsumePhase := AwaitAssert | AwaitBind.

Inductive Task :=
  | ConnectTask (promise : nat) (attempts : Z) (phase : ConnectPhase)
  | ConsumeTask (queueName : string) (callback : nat) (opts : Obj) (phase : ConsumePhase).

Inductive Consumer :=
  | ReplyConsumer
  | UserConsumer (callback : nat).

(** Calls made on the transport. *)
Inductive TransportOp :=
  | OpConnect
  | OpCreateChannel (connection : nat)
  | OpAssertQueue (ch : nat) (queue : string) (exclusive : bool)
  | OpBindQueue (ch : nat) (queue exchange key : string)
  | OpConsume (ch : nat) (queue : option string) (consumer : Consumer) (opts : Obj)
  | OpPublish (ch : nat) (exchange key : string) (content : value) (opts : option Obj)
  | OpClose (connection : nat).

(** ** State *)

(** The fields of the [Msgr] instance, followed by the state of what it
    runs on: promises and their job queue, armed timers, suspended tasks,
    listeners, the supply of fresh handles, the number of ids generated,
    and three logs: the calls made on the transport, the calls of
    [resolve] and [reject] on the promises returned by [rpcExec], and the
    exceptions that leave the code of the class: thrown to the caller of
    [publish], thrown into the transport that delivered a message, or
    ending the promise chain of [consume] or of a deferred [publish],
    which have no rejection handler.  The rejection of [channelPromise] is
    recorded in the status of that promise. *)
Record State := mkState {
  options : ConnectionOptions;
  exchange : string;
  channelPromise : nat;
  channel : option nat;
  replyQueue : option string;
  unresolved : gmap string Callback;
  promises : gmap nat Promise;
  microtasks : list Reaction;
  timers : gmap nat Timer;
  tasks : gmap nat Task;
  listeners : gmap nat Listener;
  next : nat;
  uuidCount : nat;
  sent : list TransportOp;
  settlements : list (nat * Settle);
  uncaught : list JsError
}.

Definition set_channelPromise (x : nat) (s : State) : State :=
  mkState (options s) (exchange s) x (channel s) (replyQueue s) (unresolved s)
    (promises s) (microtasks s) (timers s) (tasks s) (listeners s) (next s)
    (uuidCount s) (sent s) (settlements s) (uncaught s).
Definition set_channel (x : option nat) (s : State) : State :=
  mkState (options s) (exchange s) (channelPromise s) x (replyQueue s) (unresolved s)
    (promises s) (microtasks s) (timers s) (tasks s) (listeners s) (next s)
    (uuidCount s) (sent s) (settlements s) (uncaught s).
Definition set_replyQueue (x : option string) (s : State) : State :=
  mkState (options s) (exchange s) (channelPromise s) (channel s) x (unresolved s)
    (promises s) (microtasks s) (timers s) (tasks s) (listeners s) (next s)
    (uuidCount s) (sent s) (settlements s) (uncaught s).
Definition set_unresolved (x : gmap string Callback) (s : State) : State :=
  mkState (options s) (exchange s) (channelPromise s) (channel s) (replyQueue s) x
    (promises s) (microtasks s) (timers s) (tasks s) (listeners s) (next s)
    (uuidCount s) (sent s) (settlements s) (uncaught s).
Definition set_promises (x : gmap nat Promise) (s : State) : State :=
  mkState (options s) (exchange s) (channelPromise s) (channel s) (replyQueue s) (unresolved s)
    x (microtasks s) (timers s) (tasks s) (listeners s) (next s)
    (uuidCount s) (sent s) (settlements s) (uncaught s).
Definition set_microtasks (x : list Reaction) (s : State) : State :=
  mkState (options s) (exchange s) (channelPromise s) (channel s) (replyQueue s) (unresolved s)
    (promises s) x (timers s) (tasks s) (listeners s) (next s)
    (uuidCount s) (sent s) (settlements s) (uncaught s).
Definition set_timers (x : gmap nat Timer) (s : State) : State :=
  mkState (options s) (exchange s) (channelPromise s) (channel s) (replyQueue s) (unresolved s)
    (promises s) (microtasks s) x (tasks s) (listeners s) (next s)
    (uuidCount s) (sent s) (settlements s) (uncaught s).
Definition set_tasks (x : gmap nat Task) (s : State) : State :=
  mkState (options s) (exchange s) (channelPromise s) (channel s) (replyQueue s) (unresolved s)
    (promises s) (microtasks s) (timers s) x (listeners s) (next s)
    (uuidCount s) (sent s) (settlements s) (uncaught s).
Definition set_listeners (x : gmap nat Listener) (s : State) : State :=
  mkState (options s) (exchange s) (channelPromise s) (channel s) (replyQueue s) (unresolved s)
    (promises s) (microtasks s) (timers s) (tasks s) x (next s)
    (uuidCount s) (sent s) (settlements s) (uncaught s).
Definition set_next (x : nat) (s : State) : State :=
  mkState (options s) (exchange s) (channelPromise s) (channel s) (replyQueue s) (unresolved s)
    (promises s) (microtasks s) (timers s) (tasks s) (listeners s) x
    (uuidCount s) (sent s) (settlements s) (uncaught s).
Definition set_uuidCount (x : nat) (s : State) : State :=
  mkState (options s) (exchange s) (channelPromise s) (channel s) (replyQueue s) (unresolved s)
    (promises s) (microtasks s) (timers s) (tasks s) (listeners s) (next s)
    x (sent s) (settlements s) (uncaught s).
Definition set_sent (x : list TransportOp) (s : State) : State :=
  mkState (options s) (exchange s) (channelPromise s) (channel s) (replyQueue s) (unresolved s)
    (promises s) (microtasks s) (timers s) (tasks s) (listeners s) (next s)
    (uuidCount s) x (settlements s) (uncaught s).
Definition set_settlements (x : list (nat * Settle)) (s : State) : State :=
  mkState (options s) (exchange s) (channelPromise s) (channel s) (replyQueue s) (unresolved s)
    (promises s) (microtasks s) (timers s) (tasks s) (listeners s) (next s)
    (uuidCount s) (sent s) x (uncaught s).
Definition set_uncaught (x : list JsError) (s : State) : State :=
  mkState (options s) (exchange s) (channelPromise s) (channel s) (replyQueue s) (unresolved s)
    (promises s) (microtasks s) (timers s) (tasks s) (listeners s) (next s)
    (uuidCount s) (sent s) (settlements s) x.

(** ** The operations of the class *)

(** [Uuid.v4()], as the stream of the ids it returns: [Uuid_v4 n] is the
    id of the [n]-th call. *)
Class UuidGen := { Uuid_v4 : nat → string }.

Section Msgr.

Context `{G : UuidGen}.

(** *** Promises and timers *)

(** [p.then(r)], with no rejection handler: attached while [p] is pending,
    queued as a job when [p] is already fulfilled, never run when [p] is
    rejected. *)
Definition then_ (p : nat) (r : Reaction) (s : State) : State :=
  match promises s !! p with
  | Some P =>
      match status P with
      | Pending =>
          set_promises (<[p := {| status := Pending; reactions := reactions P ++ [r] |}]> (promises s)) s
      | Fulfilled => set_microtasks (microtasks s ++ [r]) s
      | Rejected => s
      end
  | None => s
  end.

(** Fulfilling a pending promise queues its reactions, in the order they
    were attached; settling a settled promise does nothing. *)
Definition fulfil (p : nat) (s : State) : State :=
  match promises s !! p with
  | Some P =>
      match status P with
      | Pending =>
          set_microtasks (microtasks s ++ reactions P)
            (set_promises (<[p := {| status := Fulfilled; reactions := [] |}]> (promises s)) s)
      | _ => s
      end
  | None => s
  end.

(** Rejecting a pending promise: its reactions have no rejection handler
    and are discarded. *)
Definition reject_promise (p : nat) (s : State) : State :=
  match promises s !! p with
  | Some P =>
      match status P with
      | Pending => set_promises (<[p := {| status := Rejected; reactions := [] |}]> (promises s)) s
      | _ => s
      end
  | None => s
  end.

Definition new_promise (s : State) : nat * State :=
  (next s,
   set_next (S (next s))
     (set_promises (<[next s := {| status := Pending; reactions := [] |}]> (promises s)) s)).

Definition setTimeout (h : TimerHandler) (ms : Z) (s : State) : nat * State :=
  (next s,
   set_next (S (next s))
     (set_timers (<[next s := {| handler := h; delay := ms |}]> (timers s)) s)).

Definition clearTimeout (t : nat) (s : State) : State :=
  set_timers (delete t (timers s)) s.

Definition settle (p : nat) (o : Settle) (s : State) : State :=
  set_settlements (settlements s ++ [(p, o)]) s.

Definition transport (op : TransportOp) (s : State) : State :=
  set_sent (sent s ++ [op]) s.

Definition suspend (t : Task) (s : State) : State :=
  set_next (S (next s)) (set_tasks (<[next s := t]> (tasks s)) s).

(** An exception leaves the code of the class. *)
Definition throw (e : JsError) (s : State) : State :=
  set_uncaught (uncaught s ++ [e]) s.

(** The end of a piece of code that may have thrown. *)
Definition finish (r : State * option JsError) : State :=
  match r with
  | (s, Some e) => throw e s
  | (s, None) => s
  end.

(** *** [_waitForChannel] and the deferral of a call (lines 60-62, 105-107,
    115-117, 157-163)

    [this._waitForChannel().then(() => this.m(args))]: a new promise whose
    [resolve] is attached to [channelPromise], and the retry attached to
    that new promise. *)
Definition _waitForChannel (s : State) : nat * State :=
  let '(w, s) := new_promise s in
  (w, then_ (channelPromise s) (RResolve w) s).

Definition defer (d : Deferred) (s : State) : State :=
  let '(w, s) := _waitForChannel s in
  then_ w (RRetry d) s.

(** *** [rpcExec] (lines 58-101) *)

(** The function stored in [unresolved] (lines 76-91), applied to a
    message.  The second component is the exception it throws, if any. *)
Definition reply_callback (cb : Callback) (message : Message) (s : State)
  : State * option JsError :=
  let s := clearTimeout (cb_timer cb) s in
  match parsed message with
  | None => (s, Some SyntaxError)
  | Some response =>
      match get response "error", get response "trace", get response "data" with
      | Some error, Some trace, Some data =>
          if truthy error && truthy trace then
            (settle (cb_promise cb) (Reject (Error "Fatal consumer error")) s, None)
          else if truthy error then
            (settle (cb_promise cb) (Reject (ClientError "Client error" data)) s, None)
          else
            (settle (cb_promise cb) (Resolve data) s, None)
      | _, _, _ => (s, Some TypeError)
      end
  end.

(** The timer callback (lines 70-74). *)
Definition rpc_timeout (id : string) (p : nat) (ms : Z) (s : State) : State :=
  settle p (Reject (Error (timeout_message ms)))
    (set_unresolved (delete id (unresolved s)) s).

(** The options of the request (lines 93-97). *)
Definition sendOptions (id : string) (replyTo : option string) (ms : Z) : Obj :=
  Object_assign DEFAULT_SEND_OPTIONS
    (<["correlationId" := VStr id]>
       (<["replyTo" := from_option VStr VUndefined replyTo]>
          (<["expiration" := VNum ms]> ∅))).

(** The executor of the promise (lines 64-100), on channel [ch]; [p] is
    the promise being created.  An exception thrown by the executor
    rejects the promise: that of [new Buffer], on line 66, before anything
    else is done. *)
Definition rpcExec_ready (ch : nat) (p : nat) (key : string) (data : value)
    (opts : RpcOptions) (s : State) : State :=
  match new_Buffer (JSON_stringify data) with
  | inl e => settle p (Reject e) s
  | inr content =>
      let id := Uuid_v4 (uuidCount s) in
      let s := set_uuidCount (S (uuidCount s)) s in
      let ms := effective_timeout opts in
      let '(timer, s) := setTimeout (RpcTimeout id p ms) ms s in
      let s :=
        set_unresolved (<[id := {| cb_timer := timer; cb_promise := p |}]> (unresolved s)) s in
      transport
        (OpPublish ch (exchange s) key content (Some (sendOptions id (replyQueue s) ms))) s
  end.

Definition rpcExec (p : nat) (key : string) (data : value) (opts : RpcOptions)
    (s : State) : State :=
  match channel s with
  | None => defer (DRpcExec key data opts p) s
  | Some ch => rpcExec_ready ch p key data opts s
  end.

(** *** [publish] (lines 103-111) and [consume] (lines 113-127) *)

(** [publish] returns nothing: the second component is the exception it
    throws, if any, which is that of [new Buffer] on line 109. *)
Definition publish_ready (ch : nat) (key : string) (data : value) (opts : option Obj)
    (s : State) : State * option JsError :=
  match new_Buffer (JSON_stringify data) with
  | inl e => (s, Some e)
  | inr content => (transport (OpPublish ch (exchange s) key content opts) s, None)
  end.

Definition publish (key : string) (data : value) (opts : option Obj) (s : State)
  : State * option JsError :=
  match channel s with
  | None => (defer (DPublish key data opts) s, None)
  | Some ch => publish_ready ch key data opts s
  end.

Definition consume_ready (ch : nat) (queueName : string) (callback : nat) (opts : Obj)
    (s : State) : State :=
  suspend (ConsumeTask queueName callback opts AwaitAssert)
    (transport (OpAssertQueue ch queueName false) s).

Definition consume (queueName : string) (callback : nat) (opts : Obj) (s : State) : State :=
  match channel s with
  | None => defer (DConsume queueName callback opts) s
  | Some ch => consume_ready ch queueName callback opts s
  end.

(** Running a deferred closure, as a reaction of the promise of
    [_waitForChannel]: nothing handles an exception of the closure. *)
Definition invoke (d : Deferred) (s : State) : State :=
  match d with
  | DRpcExec key data opts p => rpcExec p key data opts s
  | DPublish key data opts => finish (publish key data opts s)
  | DConsume queueName callback opts => consume queueName callback opts s
  end.

(** The branch of a deferred closure taken when [this.channel] is [ch]. *)
Definition invoke_ready (ch : nat) (d : Deferred) (s : State) : State :=
  match d with
  | DRpcExec key data opts p => rpcExec_ready ch p key data opts s
  | DPublish key data opts => finish (publish_ready ch key data opts s)
  | DConsume queueName callback opts => consume_ready ch queueName callback opts s
  end.

(** *** [_handleReply] (lines 175-183) *)

Definition _handleReply (message : Message) (s : State) : State * option JsError :=
  match correlationId message with
  | Some id =>
      match unresolved s !! id with
      | Some callback =>
          reply_callback callback message (set_unresolved (delete id (unresolved s)) s)
      | None => (s, None)
      end
  | None => (s, None)
  end.

(** *** [_connect] (lines 129-155) *)

(** Entering [_connect(url, attempts)]: up to the first [await].  [p] is
    the promise the call returns. *)
Definition _connect (p : nat) (attempts : Z) (s : State) : State :=
  suspend (ConnectTask p attempts AwaitConnect) (transport OpConnect s).

(** The [once('error')] listener of lines 139-146. *)
Definition on_channel_error (l : Listener) (s : State) : State :=
  let s := transport (OpClose (l_connection l)) s in
  let s := set_channel None s in
  let '(p, s) := new_promise s in
  let s := set_channelPromise p s in
  snd (setTimeout (RetryConnect p (l_promise_attempts l)) (connectionRetryInterval (options s)) s).

(** The transport reports that the operation task [t] awaits succeeded:
    the task resumes up to its next [await]. *)
Definition connected (t connection : nat) (s : State) : State :=
  match tasks s !! t with
  | Some (ConnectTask p attempts AwaitConnect) =>
      set_tasks (<[t := ConnectTask p attempts (AwaitCreateChannel connection)]> (tasks s))
        (transport (OpCreateChannel connection) s)
  | _ => s
  end.

Definition channel_created (t ch : nat) (s : State) : State :=
  match tasks s !! t with
  | Some (ConnectTask p attempts (AwaitCreateChannel connection)) =>
      let s := set_channel (Some ch) s in
      let s :=
        if (attempts <? maxConnectionAttempts (options s))%Z then
          set_listeners
            (<[ch := {| l_connection := connection; l_promise_attempts := attempts |}]> (listeners s)) s
        else s in
      set_tasks (<[t := ConnectTask p attempts AwaitAssertQueue]> (tasks s))
        (transport (OpAssertQueue ch "" true) s)
  | _ => s
  end.

Definition queue_asserted (t : nat) (queue : string) (s : State) : State :=
  match tasks s !! t with
  | Some (ConnectTask p attempts AwaitAssertQueue) =>
      let s := set_replyQueue (Some queue) s in
      match channel s with
      | Some ch =>
          set_tasks (<[t := ConnectTask p attempts AwaitBindQueue]> (tasks s))
            (transport (OpBindQueue ch queue (exchange s) queue) s)
      | None => reject_promise p (set_tasks (delete t (tasks s)) s)
      end
  | Some (ConsumeTask queueName callback opts AwaitAssert) =>
      match channel s with
      | Some ch =>
          set_tasks (<[t := ConsumeTask queueName callback opts AwaitBind]> (tasks s))
            (transport (OpBindQueue ch queueName (exchange s) queueName) s)
      | None => throw TypeError (set_tasks (delete t (tasks s)) s)
      end
  | _ => s
  end.

Definition queue_bound (t : nat) (s : State) : State :=
  match tasks s !! t with
  | Some (ConnectTask p attempts AwaitBindQueue) =>
      let s := set_tasks (delete t (tasks s)) s in
      match channel s with
      | Some ch =>
          fulfil p (transport (OpConsume ch (replyQueue s) ReplyConsumer DEFAULT_CONSUME_OPTIONS) s)
      | None => reject_promise p s
      end
  | Some (ConsumeTask queueName callback opts AwaitBind) =>
      let s := set_tasks (delete t (tasks s)) s in
      match channel s with
      | Some ch =>
          transport
            (OpConsume ch (Some queueName) (UserConsumer callback)
               (Object_assign DEFAULT_CONSUME_OPTIONS opts)) s
      | None => throw TypeError s
      end
  | _ => s
  end.

(** The awaited operation failed: [_connect] returns a rejected promise,
    the chain of [consume] ends in an unhandled rejection. *)
Definition transport_failed (t : nat) (s : State) : State :=
  match tasks s !! t with
  | Some (ConnectTask p _ _) => reject_promise p (set_tasks (delete t (tasks s)) s)
  | Some (ConsumeTask _ _ _ _) => throw (Error "transport") (set_tasks (delete t (tasks s)) s)
  | None => s
  end.

(** *** The constructor (lines 51-56) *)

Definition empty_state (o : ConnectionOptions) (exch : string) : State :=
  mkState o exch 0 None None ∅ ∅ [] ∅ ∅ ∅ 0 0 [] [] [].

Definition init (o : UserConnectionOptions) (exch : string) : State :=
  let s := empty_state (merge_connection_options o) exch in
  let '(p, s) := new_promise s in
  _connect p 1 (set_channelPromise p s).

(** [new Msgr(url, exchange, options)]: an omitted [exchange] is ['msgr'],
    omitted options are the defaults. *)
Definition new_Msgr (exchange : option string) (options : UserConnectionOptions) : State :=
  init options (default "msgr" exchange).

(** *** [_parseMessage] (lines 165-173) *)

(** What [_parseMessage] hands to the callback of [consume]: the parsed
    body; [properties] and [fields] are those of [message], kept here as
    the message itself. *)
Record Parsed := {
  content : value;
  source : Message
}.

(** [JSON.parse] throws on a body that is not JSON, and [_parseMessage]
    with it. *)
Definition _parseMessage (message : Message) : JsError + Parsed :=
  match parsed message with
  | Some v => inr {| content := v; source := message |}
  | None => inl SyntaxError
  end.

(** The consumer [consume] registers (line 125):
    [(message) => callback(this._parseMessage(message))].  The result is
    the exception thrown, or the callback and the argument it is called
    with. *)
Definition user_consumer (callback : nat) (message : Message) : JsError + (nat * Parsed) :=
  match _parseMessage message with
  | inr m => inr (callback, m)
  | inl e => inl e
  end.

(** [ack: () => this.channel.ack(message)], called in state [s]: the
    channel whose [ack] is called, with the message it is given, or the
    TypeError of reading [ack] of [null]. *)
Definition ack (m : Parsed) (s : State) : JsError + (nat * Message) :=
  match channel s with
  | Some ch => inr (ch, source m)
  | None => inl TypeError
  end.

(** ** The event loop *)

Inductive Event :=
  | EvRpcExec (key : string) (data : value) (opts : RpcOptions)
  | EvPublish (key : string) (data : value) (opts : option Obj)
  | EvConsume (queueName : string) (callback : nat) (opts : Obj)
  | EvConnected (task connection : nat)
  | EvChannelCreated (task ch : nat)
  | EvQueueAsserted (task : nat) (queue : string)
  | EvQueueBound (task : nat)
  | EvTransportFailed (task : nat)
  | EvChannelError (ch : nat)
  | EvMessage (message : Message)
  | EvTimer (timer : nat)
  | EvJob.

(** An armed timer fires; a cleared or unknown timer never does. *)
Definition fire (t : nat) (s : State) : State :=
  match timers s !! t with
  | Some tm =>
      let s := set_timers (delete t (timers s)) s in
      match handler tm with
      | RpcTimeout id p ms => rpc_timeout id p ms s
      | RetryConnect p attempts => _connect p (attempts + 1) s
      end
  | None => s
  end.

(** The channel emits ['error']: its [once] listener runs and is removed;
    without a listener the event is thrown. *)
Definition channel_error (ch : nat) (s : State) : State :=
  match listeners s !! ch with
  | Some l => on_channel_error l (set_listeners (delete ch (listeners s)) s)
  | None => throw UnhandledErrorEvent s
  end.

(** The consumer of the reply queue (line 154). *)
Definition deliver (message : Message) (s : State) : State :=
  match _handleReply message s with
  | (s, Some e) => throw e s
  | (s, None) => s
  end.

(** The first job of the queue runs. *)
Definition run_job (s : State) : State :=
  match microtasks s with
  | [] => s
  | r :: rest =>
      let s := set_microtasks rest s in
      match r with
      | RResolve w => fulfil w s
      | RRetry d => invoke d s
      end
  end.

(** A call of [rpcExec] first creates the promise it returns. *)
Definition call_rpcExec (key : string) (data : value) (opts : RpcOptions) (s : State) : State :=
  rpcExec (next s) key data opts (set_next (S (next s)) s).

Definition step (s : State) (e : Event) : State :=
  match e with
  | EvRpcExec key data opts => call_rpcExec key data opts s
  | EvPublish key data opts => finish (publish key data opts s)
  | EvConsume queueName callback opts => consume queueName callback opts s
  | EvConnected t connection => connected t connection s
  | EvChannelCreated t ch => channel_created t ch s
  | EvQueueAsserted t queue => queue_asserted t queue s
  | EvQueueBound t => queue_bound t s
  | EvTransportFailed t => transport_failed t s
  | EvChannelError ch => channel_error ch s
  | EvMessage message => deliver message s
  | EvTimer t => fire t s
  | EvJob => run_job s
  end.

Definition run (s : State) (tr : list Event) : State := foldl step s tr.

(** * The vocabulary of the properties *)

Definition outcomes (p : nat) (s : State) : list Settle :=
  (filter (λ x, x.1 = p) (settlements s)).*2.

Definition reaction_promise (r : Reaction) : option nat :=
  match r with
  | RRetry (DRpcExec _ _ _ p) => Some p
  | _ => None
  end.

Definition timer_promise (tm : Timer) : option nat :=
  match handler tm with
  | RpcTimeout _ p _ => Some p
  | RetryConnect _ _ => None
  end.

(** Some deferred [rpcExec] closure, queued as a job or attached to a
    promise, will settle promise [p]. *)
Definition mentions (p : nat) (s : State) : Prop :=
  (∃ r, r ∈ microtasks s ∧ reaction_promise r = Some p) ∨
  (∃ q P r, promises s !! q = Some P ∧ r ∈ reactions P ∧ reaction_promise r = Some p).

(** The settlement the stored callback makes for a reply, when it does not
    throw. *)
Definition reply_outcome (message : Message) : option Settle :=
  match parsed message with
  | Some response =>
      match get response "error", get response "trace", get response "data" with
      | Some error, Some trace, Some data =>
          Some (if truthy error && truthy trace then Reject (Error "Fatal consumer error")
                else if truthy error then Reject (ClientError "Client error" data)
                else Resolve data)
      | _, _, _ => None
      end
  | None => None
  end.

(** Task [e], run in state [s], runs the executor of [rpcExec] for the
    promise [p] of a call, [t] being the next timer handle: either the
    call is made in this task, on a ready channel, or the call was
    deferred and the job that runs is its retry, on a ready channel. *)
Inductive executes (s : State) (key : string) (data : value) (opts : RpcOptions)
    (p t : nat) : Event → Prop :=
  | executes_call ch :
      channel s = Some ch → p = next s → t = S (next s) →
      executes s key data opts p t (EvRpcExec key data opts)
  | executes_retry ch rest :
      channel s = Some ch →
      microtasks s = RRetry (DRpcExec key data opts p) :: rest → t = next s →
      executes s key data opts p t EvJob.

(** The seven kinds of task, seen from the RPC calls. *)
Inductive effect (s : State) (e : Event) (s' : State) : Prop :=
  | eff_neutral :
      timers s' = timers s → unresolved s' = unresolved s →
      settlements s' = settlements s → uuidCount s' = uuidCount s →
      next s ≤ next s' →
      (∀ q, mentions q s' → mentions q s ∨ next s ≤ q < next s') →
      effect s e s'
  | eff_executor p t ms :
      timers s' =
        <[t := {| handler := RpcTimeout (Uuid_v4 (uuidCount s)) p ms; delay := ms |}]> (timers s) →
      unresolved s' =
        <[Uuid_v4 (uuidCount s) := {| cb_timer := t; cb_promise := p |}]> (unresolved s) →
      settlements s' = settlements s → uuidCount s' = S (uuidCount s) →
      next s ≤ t → next s' = S t →
      (p = next s ∧ t = S (next s)) ∨ mentions p s →
      (∀ q, mentions q s' → mentions q s) →
      (∃ key data opts content,
         executes s key data opts p t e ∧ JSON_stringify data = Some content ∧
         ms = effective_timeout opts) →
      effect s e s'
  | eff_timeout t id p ms d :
      e = EvTimer t →
      timers s !! t = Some {| handler := RpcTimeout id p ms; delay := d |} →
      timers s' = delete t (timers s) → unresolved s' = delete id (unresolved s) →
      settlements s' = settlements s ++ [(p, Reject (Error (timeout_message ms)))] →
      uuidCount s' = uuidCount s → next s' = next s →
      (∀ q, mentions q s' → mentions q s) →
      effect s e s'
  | eff_reply m id cb :
      e = EvMessage m → correlationId m = Some id → unresolved s !! id = Some cb →
      timers s' = delete (cb_timer cb) (timers s) → unresolved s' = delete id (unresolved s) →
      settlements s' =
        settlements s ++
          match reply_outcome m with Some o => [(cb_promise cb, o)] | None => [] end →
      uuidCount s' = uuidCount s → next s' = next s →
      (∀ q, mentions q s' → mentions q s) →
      effect s e s'
  | eff_retry_armed t tm :
      timer_promise tm = None →
      timers s' = <[t := tm]> (timers s) → unresolved s' = unresolved s →
      settlements s' = settlements s → uuidCount s' = uuidCount s →
      next s ≤ t < next s' →
      (∀ q, mentions q s' → mentions q s) →
      effect s e s'
  | eff_retry_fired t tm :
      e = EvTimer t → timers s !! t = Some tm → timer_promise tm = None →
      timers s' = delete t (timers s) → unresolved s' = unresolved s →
      settlements s' = settlements s → uuidCount s' = uuidCount s →
      next s ≤ next s' →
      (∀ q, mentions q s' → mentions q s) →
      effect s e s'
  | eff_thrown p t key data opts :
      executes s key data opts p t e → JSON_stringify data = None →
      timers s' = timers s → unresolved s' = unresolved s →
      settlements s' = settlements s ++ [(p, Reject TypeError)] →
      uuidCount s' = uuidCount s → next s ≤ next s' →
      (p = next s ∧ next s' = S (next s)) ∨ (mentions p s ∧ next s' = next s) →
      (∀ q, mentions q s' → mentions q s) →
      effect s e s'.

(** Handles are allocated in increasing order, and every entry of the
    registry belongs to an armed timer: the timer of the call that stored
    it, which names the same id and the same promise. *)
Record wf (s : State) : Prop := {
  wf_timer_lt : ∀ t tm, timers s !! t = Some tm → t < next s;
  wf_timer_promise : ∀ t tm p,
    timers s !! t = Some tm → timer_promise tm = Some p → p < next s;
  wf_callback : ∀ id cb, unresolved s !! id = Some cb →
    ∃ ms, timers s !! cb_timer cb =
            Some {| handler := RpcTimeout id (cb_promise cb) ms; delay := ms |};
  wf_mentions : ∀ p, mentions p s → p < next s;
  wf_settled : ∀ p o, (p, o) ∈ settlements s → p < next s
}.

(** Promise [p] can only be settled by timer [T], if any: no other armed
    timer and no deferred closure names it. *)
Record tracked (T : option nat) (p : nat) (s : State) : Prop := {
  tr_timers : ∀ t tm, timers s !! t = Some tm → timer_promise tm = Some p → T = Some t;
  tr_mentions : ¬ mentions p s;
  tr_next : p < next s
}.

(** No reply to the call with id [id] is delivered, and its timer [t]
    does not fire. *)
Definition calm (t : nat) (id : string) (tr : list Event) : Prop :=
  Forall (λ e, e ≠ EvTimer t ∧ ∀ m, e = EvMessage m → correlationId m ≠ Some id) tr.

(** Every armed call timer has its entry in the registry, and every id
    of the registry was generated. *)
Record fresh_ids (s : State) : Prop := {
  fr_timer : ∀ t id p ms d,
    timers s !! t = Some {| handler := RpcTimeout id p ms; delay := d |} →
    ∃ cb, unresolved s !! id = Some cb ∧ cb_timer cb = t;
  fr_uuid : ∀ id cb, unresolved s !! id = Some cb → ∃ n, n < uuidCount s ∧ id = Uuid_v4 n
}.

(** Task [e], run in state [s], sends the request of a call: it runs
    the executor of [rpcExec] on a payload that can be serialised, for the
    promise and with the timer that [cb] names, and [id] is the
    correlation id the executor generates. *)
Definition registers (s : State) (e : Event) (id : string) (cb : Callback) : Prop :=
  ∃ key data opts content,
    executes s key data opts (cb_promise cb) (cb_timer cb) e ∧
    JSON_stringify data = Some content ∧
    id = Uuid_v4 (uuidCount s).

(** The call with correlation id [id] and callback [cb] is outstanding
    after the trace [tr]: some task of [tr] sent its request, and since
    then no message with this correlation id was delivered and the timer
    of the call did not fire. *)
Definition outstanding (s0 : State) (tr : list Event) (id : string) (cb : Callback) : Prop :=
  ∃ pre e post, tr = pre ++ e :: post ∧
    registers (run s0 pre) e id cb ∧
    calm (cb_timer cb) id post.

(** The two tasks that end the call with correlation id [id] and timer
    [t]: the timer fires, or a message with this id is delivered. *)
Definition ends (t : nat) (id : string) (e : Event) : Prop :=
  e = EvTimer t ∨ ∃ m, e = EvMessage m ∧ correlationId m = Some id.

(** What such a task makes of the promise of the call, [ms] being its
    timeout: the timer rejects it, a reply gives it the outcome of its
    classification, and a reply the callback cannot read leaves it as it
    is. *)
Definition verdict (ms : Z) (e : Event) : list Settle :=
  match e with
  | EvTimer _ => [Reject (Error (timeout_message ms))]
  | EvMessage m => option_list (reply_outcome m)
  | _ => []
  end.

Definition is_call (e : Event) : Prop :=
  match e with
  | EvRpcExec _ _ _ | EvPublish _ _ _ | EvConsume _ _ _ => True
  | _ => False
  end.

(** The closures the calls of a trace defer when the trace starts in
    [s]: a deferred [rpcExec] closes over the promise its call returned. *)
Fixpoint deferred (s : State) (tr : list Event) : list Deferred :=
  match tr with
  | [] => []
  | e :: rest =>
      match e with
      | EvRpcExec key data opts => [DRpcExec key data opts (next s)]
      | EvPublish key data opts => [DPublish key data opts]
      | EvConsume queueName callback opts => [DConsume queueName callback opts]
      | _ => []
      end ++ deferred (step s e) rest
  end.

(** The promises of [P] that wait for promise [cp]: [cp] is pending, its
    reactions resolve the promises [ws], in this order, and each of these
    is pending with one reaction, the retry of a deferred call. *)
Definition waiting_on (P : gmap nat Promise) (n cp : nat) (ws : list nat)
    (ds : list Deferred) : Prop :=
  P !! cp = Some {| status := Pending; reactions := RResolve <$> ws |} ∧
  Forall2 (λ w d, P !! w = Some {| status := Pending; reactions := [RRetry d] |}) ws ds ∧
  NoDup ws ∧ (cp ∉ ws) ∧
  (∀ k, is_Some (P !! k) → k < n).

(** The client is stranded: there is no channel, the promise the deferred
    calls wait for is rejected, and nothing is left that could replace
    it: no connection attempt in flight, no timer, no listener, no job. *)
Record stranded (s : State) : Prop := {
  st_channel : channel s = None;
  st_promise : ∃ P, promises s !! channelPromise s = Some P ∧ status P = Rejected;
  st_handle : channelPromise s < next s;
  st_tasks : tasks s = ∅;
  st_timers : timers s = ∅;
  st_listeners : listeners s = ∅;
  st_jobs : microtasks s = [];
  st_unresolved : unresolved s = ∅
}.

(** The deferred call [d] is shelved: its retry is the reaction of the
    pending promise [w], and nothing is left that would resolve [w]: no
    job, no reaction of another promise, and [w] is not a promise that a
    connection attempt settles. *)
Record shelved (w : nat) (d : Deferred) (s : State) : Prop := {
  sh_promise : promises s !! w = Some {| status := Pending; reactions := [RRetry d] |};
  sh_handle : w < next s;
  sh_channelPromise : channelPromise s ≠ w;
  sh_jobs : RResolve w ∉ microtasks s;
  sh_reactions : ∀ q Q, promises s !! q = Some Q → RResolve w ∉ reactions Q;
  sh_tasks : ∀ t p a ph, tasks s !! t = Some (ConnectTask p a ph) → p ≠ w;
  sh_timers : ∀ t p a dl,
    timers s !! t = Some {| handler := RetryConnect p a; delay := dl |} → p ≠ w
}.

(** The only closure that would settle promise [p] is a retry attached to
    promise [w]: no timer, no entry of the registry, no job and no
    reaction of another promise names [p]. *)
Record orphaned (p w : nat) (s : State) : Prop := {
  or_handle : p < next s;
  or_timers : ∀ t tm, timers s !! t = Some tm → timer_promise tm ≠ Some p;
  or_unresolved : ∀ id cb, unresolved s !! id = Some cb → cb_promise cb ≠ p;
  or_jobs : ∀ r, r ∈ microtasks s → reaction_promise r ≠ Some p;
  or_reactions : ∀ q Q r,
    promises s !! q = Some Q → r ∈ reactions Q → reaction_promise r = Some p → q = w
}.

(** The promises named by the deferred [rpcExec] closures of a state, with
    repetition: those of the queued jobs, then those of the reactions
    attached to promises. *)
Definition names (l : list Reaction) : list nat := omap reaction_promise l.

Definition attached (P : gmap nat Promise) : list nat :=
  map_to_list P ≫= λ x, names (reactions x.2).

Definition named (s : State) : list nat :=
  names (microtasks s) ++ attached (promises s).

(** Closures are linear: a promise is named by at most one deferred
    closure, and such a promise has no timer yet and is not settled. *)
Record linear (s : State) : Prop := {
  ln_nodup : NoDup (named s);
  ln_promises : ∀ q, is_Some (promises s !! q) → q < next s;
  ln_handle : ∀ p, p ∈ named s → p < next s;
  ln_timers : ∀ p t tm, p ∈ named s → timers s !! t = Some tm → timer_promise tm ≠ Some p;
  ln_unsettled : ∀ p o, p ∈ named s → (p, o) ∉ settlements s
}.

(** The life of the promise [p] of a call of [rpcExec]: not yet created;
    named by the closure of a deferred call; pending with the timer [t] of
    its request armed; final, when nothing can settle it any more. *)
Inductive phase (p : nat) (s : State) : Prop :=
  | phase_fresh : next s ≤ p → phase p s
  | phase_deferred : p ∈ named s → phase p s
  | phase_armed t : tracked (Some t) p s → outcomes p s = [] → phase p s
  | phase_final : tracked None p s → length (outcomes p s) ≤ 1 → phase p s.

(** *** Connection attempts *)

Definition is_connect (op : TransportOp) : bool :=
  match op with
  | OpConnect => true
  | _ => false
  end.

Definition count_connects (ops : list TransportOp) : nat :=
  length (filter (λ op, is_connect op = true) ops).

(** The number of calls of [AMQP.connect] made so far. *)
Definition connects (s : State) : nat := count_connects (sent s).

(** The places of a state that can lead to a further call of
    [AMQP.connect]: an invocation of [_connect] that has not registered its
    [error] listener yet, such a listener, and the timer the listener
    arms.  Each holds the variable [attempts] of its invocation. *)
Inductive Site :=
  | InTask (t : nat)
  | InListener (ch : nat)
  | InTimer (t : nat).

Definition attempt_at (s : State) (σ : Site) : option Z :=
  match σ with
  | InTask t =>
      match tasks s !! t with
      | Some (ConnectTask _ a AwaitConnect) => Some a
      | Some (ConnectTask _ a (AwaitCreateChannel _)) => Some a
      | _ => None
      end
  | InListener ch => l_promise_attempts <$> listeners s !! ch
  | InTimer t =>
      match handler <$> timers s !! t with
      | Some (RetryConnect _ a) => Some a
      | _ => None
      end
  end.

Definition is_task (σ : Site) : bool :=
  match σ with
  | InTask _ => true
  | _ => false
  end.

(** The retry budget: [attempts] counts the calls of [AMQP.connect], at
    most one place holds it, and a listener or a retry timer exists only
    while the limit is not reached. *)
Record budget (s : State) : Prop := {
  bd_count :
    1 ≤ connects s ∧
    (Z.of_nat (connects s) ≤ Z.max 1 (maxConnectionAttempts (options s)))%Z;
  bd_attempt : ∀ σ a, attempt_at s σ = Some a → a = Z.of_nat (connects s);
  bd_left : ∀ σ a, attempt_at s σ = Some a → is_task σ = false →
    (a < maxConnectionAttempts (options s))%Z;
  bd_single : ∀ σ σ', is_Some (attempt_at s σ) → is_Some (attempt_at s σ') → σ = σ'
}.

(** *** The exchange and the binding convention *)

(** A publication goes to exchange [exch]; a queue is bound to [exch]
    under its own name. *)
Definition op_ok (exch : string) (op : TransportOp) : Prop :=
  match op with
  | OpPublish _ x _ _ _ => x = exch
  | OpBindQueue _ queue x key => x = exch ∧ key = queue
  | _ => True
  end.

(** The retry budget is spent: no place is left that leads to a further
    connection attempt. *)
Definition spent (s : State) : Prop := ∀ σ, attempt_at s σ = None.

(** The outcomes of a call of [rpcExec] whose request was sent: its
    promise is resolved with a value, or rejected with the timeout error,
    with the generic error of a failed consumer, or with a client error. *)
Definition rpc_outcome (o : Settle) : Prop :=
  match o with
  | Resolve _ => True
  | Reject (Error msg) => msg = "Fatal consumer error" ∨ ∃ ms, msg = timeout_message ms
  | Reject (ClientError msg _) => msg = "Client error"
  | Reject _ => False
  end.

(** The executor of the call that returned promise [p] ran, in some task
    of [tr], on a payload that [JSON.stringify] does not serialise. *)
Definition refused (s0 : State) (tr : list Event) (p : nat) : Prop :=
  ∃ pre e post key data opts t, tr = pre ++ e :: post ∧
    executes (run s0 pre) key data opts p t e ∧ JSON_stringify data = None.

(** The tasks in which the transport reports on the connection. *)
Definition is_connection_event (e : Event) : Prop :=
  match e with
  | EvConnected _ _ | EvChannelCreated _ _ | EvQueueAsserted _ _ | EvQueueBound _
  | EvTransportFailed _ | EvChannelError _ => True
  | _ => False
  end.

End Msgr.

(** * Scenarios *)

(** A generator of distinct ids. *)
Definition uuid_of (n : nat) : string := "uuid-" +:+ pretty n.

Definition uuid : UuidGen := {| Uuid_v4 := uuid_of |}.

Definition default_options : UserConnectionOptions :=
  {| u_maxConnectionAttempts := None; u_connectionRetryInterval := None |}.

(** The first connection attempt succeeds: connection 7, channel 8 and
    the reply queue [amq.gen-1]. *)
Definition handshake : list Event :=
  [EvConnected 1 7; EvChannelCreated 1 8; EvQueueAsserted 1 "amq.gen-1"; EvQueueBound 1].

Definition ready_state : State := run (G := uuid) (init default_options "msgr") handshake.

Definition no_options : RpcOptions := {| timeout := None; publishOptions := ∅ |}.

(** [rpcExec("echo", {n: 1})]: promise 2, timer 3, correlation id [uuid_of 0]. *)
Definition echo_call : Event := EvRpcExec "echo" (VObj [("n", VNum 1)]) no_options.

Definition pending_state : State := step (G := uuid) ready_state echo_call.

Definition echo_callback : Callback := {| cb_timer := 3; cb_promise := 2 |}.

Definition reply (body : value) : Message :=
  {| correlationId := Some (uuid_of 0); parsed := Some body |}.

Definition envelope (data error trace : value) : value :=
  VObj [("data", data); ("error", error); ("trace", trace)].

Definition short_call : Event :=
  EvRpcExec "echo" (VObj []) {| timeout := Some 50%Z; publishOptions := ∅ |}.

(** A reply whose body is the JSON text [null], delivered to a pending
    call before its timeout. *)
Definition null_reply : Message := reply VNull.

(** The reply of scenario A of the specification: [{data: {n: 1}, error: false}]. *)
Definition ok_reply : Message :=
  reply (VObj [("data", VObj [("n", VNum 1)]); ("error", VBool false)]).

Definition early_publish : Event := EvPublish "topic" (VStr "hello") None.
Definition early_consume : Event := EvConsume "jobs" 0 ∅.

(** The same call, when the channel fails while the first attempt is
    still setting it up: the attempt the call waits for is rejected, the
    client reconnects and the second attempt succeeds. *)
Definition lost_call_trace : list Event :=
  [echo_call; EvConnected 1 7; EvChannelCreated 1 8; EvChannelError 8;
   EvTransportFailed 1; EvTimer 5;
   EvConnected 6 9; EvChannelCreated 6 10; EvQueueAsserted 6 "amq.gen-2"; EvQueueBound 6].

(** Two attempts are allowed.  The first succeeds, the channel fails,
    [rpcExec] is called while the client reconnects, and the second
    attempt cannot connect. *)
Definition two_attempts : UserConnectionOptions :=
  {| u_maxConnectionAttempts := Some 2%Z; u_connectionRetryInterval := None |}.

Definition exhausted_trace : list Event :=
  handshake ++ [EvChannelError 8; echo_call; EvTimer 3; EvTransportFailed 6].

(** A generator that repeats itself. *)
Definition stuck : UuidGen := {| Uuid_v4 := λ _, "6f1c2d3e-0000-4000-8000-000000000000" |}.

(** One attempt is allowed. *)
Definition single_attempt : UserConnectionOptions :=
  {| u_maxConnectionAttempts := Some 1%Z; u_connectionRetryInterval := None |}.

(** The [error] listener the first attempt registers for channel 8. *)
Definition first_listener : Listener := {| l_connection := 7; l_promise_attempts := 1 |}.

(** A message of a user queue, with body [{"job": 7}]. *)
Definition job_message : Message :=
  {| correlationId := None; parsed := Some (VObj [("job", VNum 7)]) |}.

(** * Properties *)

Section Properties.

Context `{G : UuidGen}.

(** ** The reply listener *)

(** C4. A message whose correlation id is absent from the registry
    (or that has none) is dropped: [_handleReply] returns the state it
    was given and throws nothing, and so the whole task of the event loop
    leaves the state as it was. *)
Theorem unmatched_reply_is_dropped (s : State) (message : Message) :
  (∀ id, correlationId message = Some id → unresolved s !! id = None) →
  _handleReply message s = (s, None) ∧ step s (EvMessage message) = s.
Proof.
  intros Habsent.
  assert (_handleReply message s = (s, None)) as E.
  { unfold _handleReply.
    destruct (correlationId message) as [id|]; [|done].
    by rewrite (Habsent id eq_refl). }
  split; [done|].
  simpl. unfold deliver. by rewrite E.
Qed.

(** C1. The three-way classification of a reply delivered to a
    pending call, in the order the source tests it: [error] and [trace]
    truthy, the promise is rejected with the generic fatal error; [error]
    truthy and [trace] falsy, it is rejected with a client error whose
    [clientMessages] is [data]; [error] falsy, it is resolved with [data].
    Nothing is thrown, and the entry leaves the registry. *)
Theorem reply_classification (s : State) (message : Message) (id : string)
    (cb : Callback) (response error trace data : value) :
  correlationId message = Some id →
  unresolved s !! id = Some cb →
  parsed message = Some response →
  get response "error" = Some error →
  get response "trace" = Some trace →
  get response "data" = Some data →
  let s' := step s (EvMessage message) in
  let settled_with o := settlements s' = settlements s ++ [(cb_promise cb, o)] in
  (truthy error = true → truthy trace = true →
     settled_with (Reject (Error "Fatal consumer error"))) ∧
  (truthy error = true → truthy trace = false →
     settled_with (Reject (ClientError "Client error" data))) ∧
  (truthy error = false → settled_with (Resolve data)) ∧
  uncaught s' = uncaught s ∧
  unresolved s' = delete id (unresolved s).
Proof.
  intros Hid Hcb Hparsed Herror Htrace Hdata s' settled_with.
  subst s' settled_with. cbn [step]. unfold deliver, _handleReply, reply_callback.
  rewrite Hid Hcb Hparsed Herror Htrace Hdata.
  split_and!.
  - by move=> -> ->.
  - by move=> -> ->.
  - by move=> ->.
  - by destruct (truthy error), (truthy trace).
  - by destruct (truthy error), (truthy trace).
Qed.

(** C9. Two replies to the same pending call that both have [error]
    and [trace] truthy leave the client in the same state, whatever
    [trace] and [data] contain: the only thing the caller receives is the
    generic error. *)
Theorem fatal_reply_noninterference (s : State) (m1 m2 : Message) (id : string)
    (cb : Callback) (r1 r2 e1 e2 t1 t2 : value) :
  correlationId m1 = Some id → correlationId m2 = Some id →
  unresolved s !! id = Some cb →
  parsed m1 = Some r1 → parsed m2 = Some r2 →
  get r1 "error" = Some e1 → truthy e1 = true →
  get r1 "trace" = Some t1 → truthy t1 = true →
  get r2 "error" = Some e2 → truthy e2 = true →
  get r2 "trace" = Some t2 → truthy t2 = true →
  step s (EvMessage m1) = step s (EvMessage m2) ∧
  settlements (step s (EvMessage m1)) =
    settlements s ++ [(cb_promise cb, Reject (Error "Fatal consumer error"))].
Proof.
  intros Hid1 Hid2 Hcb Hp1 Hp2 He1 Hte1 Ht1 Htt1 He2 Hte2 Ht2 Htt2.
  simpl. unfold deliver, _handleReply, reply_callback.
  rewrite Hid1 Hid2 Hcb Hp1 Hp2 He1 Ht1 He2 Ht2 Hte1 Htt1 Hte2 Htt2.
  assert (is_Some (get r1 "data")) as [d1 ->].
  { destruct r1; simpl in *; by eauto. }
  assert (is_Some (get r2 "data")) as [d2 ->].
  { destruct r2; simpl in *; by eauto. }
  done.
Qed.

(** The options of a request have the four keys the source sets, whatever
    the caller passed. *)
Lemma sendOptions_keys id replyTo ms k :
  is_Some (sendOptions id replyTo ms !! k) →
  k ∈ ["contentType"; "correlationId"; "replyTo"; "expiration"].
Proof.
  unfold sendOptions, Object_assign, DEFAULT_SEND_OPTIONS. intros [v Hv].
  apply lookup_union_Some_raw in Hv as [Hv | [_ Hv]].
  - repeat (apply lookup_insert_Some in Hv as [[<- _] | [_ Hv]]; [by repeat constructor|]).
    by rewrite lookup_empty in Hv.
  - apply lookup_singleton_Some in Hv as [<- _]. by repeat constructor.
Qed.

(** ** Footprints

    What each task of the event loop does to the part of the state the
    RPC calls live in: armed timers, the registry, the settlement log, the
    id and handle supplies, and the deferred [rpcExec] closures. *)

Arguments timeout_message : simpl never.
Arguments sendOptions : simpl never.

(** Reduction of the projections of an updated state, and nothing else. *)
Arguments set_channelPromise _ _ /.
Arguments set_channel _ _ /.
Arguments set_replyQueue _ _ /.
Arguments set_unresolved _ _ /.
Arguments set_promises _ _ /.
Arguments set_microtasks _ _ /.
Arguments set_timers _ _ /.
Arguments set_tasks _ _ /.
Arguments set_listeners _ _ /.
Arguments set_next _ _ /.
Arguments set_uuidCount _ _ /.
Arguments set_sent _ _ /.
Arguments set_settlements _ _ /.
Arguments set_uncaught _ _ /.
Arguments new_promise _ /.
Arguments setTimeout _ _ _ /.
Arguments clearTimeout _ _ /.
Arguments settle _ _ _ /.
Arguments transport _ _ /.
Arguments suspend _ _ /.
Arguments throw _ _ /.
Arguments finish !_ /.
Arguments new_Buffer !_ /.

Ltac fields :=
  cbn [options exchange channelPromise channel replyQueue unresolved promises
       microtasks timers tasks listeners next uuidCount sent settlements uncaught
       set_channelPromise set_channel set_replyQueue set_unresolved set_promises
       set_microtasks set_timers set_tasks set_listeners set_next set_uuidCount
       set_sent set_settlements set_uncaught
       new_promise setTimeout clearTimeout settle transport suspend throw finish
       new_Buffer fst snd].

Tactic Notation "fields" "in" hyp(H) :=
  cbn [options exchange channelPromise channel replyQueue unresolved promises
       microtasks timers tasks listeners next uuidCount sent settlements uncaught
       set_channelPromise set_channel set_replyQueue set_unresolved set_promises
       set_microtasks set_timers set_tasks set_listeners set_next set_uuidCount
       set_sent set_settlements set_uncaught
       new_promise setTimeout clearTimeout settle transport suspend throw finish
       new_Buffer fst snd] in H.

Lemma then_shape q r s :
  ∃ P M, then_ q r s = set_microtasks M (set_promises P s).
Proof.
  unfold then_. destruct (promises s !! q) as [P|]; [destruct (status P)|];
    destruct s; do 2 eexists; fields; reflexivity.
Qed.

Lemma fulfil_shape q s :
  ∃ P M, fulfil q s = set_microtasks M (set_promises P s).
Proof.
  unfold fulfil. destruct (promises s !! q) as [P|]; [destruct (status P)|];
    destruct s; do 2 eexists; fields; reflexivity.
Qed.

Lemma reject_promise_shape q s :
  ∃ P M, reject_promise q s = set_microtasks M (set_promises P s).
Proof.
  unfold reject_promise. destruct (promises s !! q) as [P|]; [destruct (status P)|];
    destruct s; do 2 eexists; fields; reflexivity.
Qed.

Lemma defer_shape d s :
  ∃ P M, defer d s = set_microtasks M (set_promises P (set_next (S (next s)) s)).
Proof.
  unfold defer, _waitForChannel, new_promise.
  match goal with |- context [then_ ?q ?r ?s0] =>
    destruct (then_shape q r s0) as (P1 & M1 & E1) end.
  rewrite E1. clear E1.
  match goal with |- context [then_ ?q ?r ?s0] =>
    destruct (then_shape q r s0) as (P2 & M2 & E2) end.
  rewrite E2. clear E2.
  exists P1, M1. by destruct s.
Qed.

Lemma mentions_mono p s s' :
  (∀ r, r ∈ microtasks s' → r ∈ microtasks s) →
  promises s' = promises s →
  mentions p s' → mentions p s.
Proof.
  intros Hjobs Hproms [(r & Hr & Hp) | (q & P & r & Hq & Hr & Hp)].
  - left. exists r. eauto.
  - right. exists q, P, r. by rewrite -Hproms.
Qed.

Lemma mentions_then p q r s :
  mentions p (then_ q r s) → mentions p s ∨ reaction_promise r = Some p.
Proof.
  unfold then_. destruct (promises s !! q) as [P|] eqn:HP; [destruct (status P) eqn:HS|];
    auto.
  - intros [(r' & Hr & Hp) | (q' & P' & r' & Hq & Hr & Hp)].
    + left. left. eauto.
    + fields in Hq. destruct (decide (q = q')) as [<-|Hne].
      * rewrite lookup_insert_eq in Hq. injection Hq as <-. cbn [reactions] in Hr.
        apply elem_of_app in Hr as [Hr | Hr%list_elem_of_singleton].
        -- left. right. by exists q, P, r'.
        -- right. by subst.
      * rewrite lookup_insert_ne // in Hq. left. right. by exists q', P', r'.
  - intros [(r' & Hr & Hp) | (q' & P' & r' & Hq & Hr & Hp)].
    + fields in Hr. apply elem_of_app in Hr as [Hr | Hr%list_elem_of_singleton].
      * left. left. eauto.
      * right. by subst.
    + left. right. by exists q', P', r'.
Qed.

Lemma mentions_fulfil p q s : mentions p (fulfil q s) → mentions p s.
Proof.
  unfold fulfil. destruct (promises s !! q) as [P|] eqn:HP; [destruct (status P) eqn:HS|];
    auto.
  intros [(r' & Hr & Hp) | (q' & P' & r' & Hq & Hr & Hp)].
  - fields in Hr. apply elem_of_app in Hr as [Hr | Hr].
    + left. eauto.
    + right. by exists q, P, r'.
  - fields in Hq. destruct (decide (q = q')) as [<-|Hne].
    + rewrite lookup_insert_eq in Hq. injection Hq as <-. cbn [reactions] in Hr.
      by apply elem_of_nil in Hr.
    + rewrite lookup_insert_ne // in Hq. right. by exists q', P', r'.
Qed.

Lemma mentions_reject_promise p q s : mentions p (reject_promise q s) → mentions p s.
Proof.
  unfold reject_promise.
  destruct (promises s !! q) as [P|] eqn:HP; [destruct (status P) eqn:HS|]; auto.
  intros [(r' & Hr & Hp) | (q' & P' & r' & Hq & Hr & Hp)].
  - left. eauto.
  - fields in Hq. destruct (decide (q = q')) as [<-|Hne].
    + rewrite lookup_insert_eq in Hq. injection Hq as <-. cbn [reactions] in Hr.
      by apply elem_of_nil in Hr.
    + rewrite lookup_insert_ne // in Hq. right. by exists q', P', r'.
Qed.

Lemma mentions_new_promise p s : mentions p (new_promise s).2 → mentions p s.
Proof.
  intros [(r' & Hr & Hp) | (q' & P' & r' & Hq & Hr & Hp)].
  - left. eauto.
  - fields in Hq. destruct (decide (next s = q')) as [<-|Hne].
    + rewrite lookup_insert_eq in Hq. injection Hq as <-. cbn [reactions] in Hr.
      by apply elem_of_nil in Hr.
    + rewrite lookup_insert_ne // in Hq. right. by exists q', P', r'.
Qed.

Lemma mentions_defer p d s :
  mentions p (defer d s) → mentions p s ∨ reaction_promise (RRetry d) = Some p.
Proof.
  unfold defer, _waitForChannel.
  destruct (new_promise s) as [w s1] eqn:Hnew.
  intros [[H | H]%mentions_then | H]%mentions_then; try done; auto.
  left. apply mentions_new_promise. by rewrite Hnew.
Qed.

Lemma reply_callback_outcome cb message s :
  (reply_callback cb message s).1 =
    set_settlements
      (settlements s ++
         match reply_outcome message with Some o => [(cb_promise cb, o)] | None => [] end)
      (clearTimeout (cb_timer cb) s).
Proof.
  unfold reply_callback, reply_outcome.
  destruct (parsed message) as [response|]; [|by rewrite app_nil_r; destruct s].
  destruct (get response "error") as [error|]; [|by rewrite app_nil_r; destruct s].
  destruct (get response "trace") as [trace|]; [|by rewrite app_nil_r; destruct s].
  destruct (get response "data") as [data|]; [|by rewrite app_nil_r; destruct s].
  by destruct (truthy error), (truthy trace).
Qed.

Lemma effect_same s e : effect s e s.
Proof. apply eff_neutral; auto. Qed.

Lemma effect_defer s e s0 d :
  timers s0 = timers s → unresolved s0 = unresolved s → settlements s0 = settlements s →
  uuidCount s0 = uuidCount s → next s ≤ next s0 →
  (∀ q, mentions q s0 → mentions q s) →
  (∀ q, reaction_promise (RRetry d) = Some q → mentions q s ∨ next s ≤ q < next s0) →
  effect s e (defer d s0).
Proof.
  intros Ht Hu Hs Hc Hn Hm Hd.
  destruct (defer_shape d s0) as (P & M & E).
  apply eff_neutral; try (rewrite E; by fields).
  - rewrite E. fields. lia.
  - intros q [H | H]%mentions_defer.
    + left. auto.
    + destruct (Hd q H) as [?|?]; [by left|right].
      rewrite E. fields. lia.
Qed.

Lemma effect_executor s e s0 ch p key data opts :
  timers s0 = timers s → unresolved s0 = unresolved s → settlements s0 = settlements s →
  uuidCount s0 = uuidCount s →
  (∀ q, mentions q s0 → mentions q s) →
  (p = next s ∧ next s0 = S (next s)) ∨ (mentions p s ∧ next s0 = next s) →
  executes s key data opts p (next s0) e →
  effect s e (rpcExec_ready ch p key data opts s0).
Proof.
  intros Ht Hu Hs Hc Hm Hp Hex.
  unfold rpcExec_ready. destruct (JSON_stringify data) as [content|] eqn:Hjson; fields.
  - apply (eff_executor _ _ _ p (next s0) (effective_timeout opts));
      fields; rewrite ?Ht ?Hu ?Hs ?Hc //.
    + destruct Hp as [[_ ->] | [_ ->]]; lia.
    + destruct Hp as [[-> ->] | [? _]]; auto.
    + by exists key, data, opts, content.
  - apply (eff_thrown _ _ _ p (next s0) key data opts);
      fields; rewrite ?Ht ?Hu ?Hs ?Hc //.
    destruct Hp as [[_ ->] | [_ ->]]; lia.
Qed.

Lemma effect_promise_op s e s0 (f : State → State) :
  (∃ P M, f s0 = set_microtasks M (set_promises P s0)) →
  (∀ q, mentions q (f s0) → mentions q s0) →
  timers s0 = timers s → unresolved s0 = unresolved s → settlements s0 = settlements s →
  uuidCount s0 = uuidCount s → next s ≤ next s0 →
  (∀ q, mentions q s0 → mentions q s) →
  effect s e (f s0).
Proof.
  intros (P & M & E) Hf Ht Hu Hs Hc Hn Hm.
  apply eff_neutral; try (rewrite E; by fields).
  intros q Hq. left. auto.
Qed.

Lemma mentions_same p s s' :
  microtasks s' = microtasks s → promises s' = promises s →
  mentions p s' → mentions p s.
Proof. intros Hj Hp. apply mentions_mono; [by rewrite Hj | done]. Qed.

Ltac neutral :=
  apply eff_neutral; fields;
    [reflexivity | reflexivity | reflexivity | reflexivity | lia
    | let q := fresh "q" in let Hq := fresh "Hq" in
      intros q Hq; left; revert Hq; by apply mentions_same ].

Lemma step_effect s e : effect s e (step s e).
Proof.
  destruct e as [key data opts | key data opts | queueName callback opts
                | t connection | t ch | t queue | t | t | ch | message | t | ];
    cbn [step].
  - (* rpcExec *)
    unfold call_rpcExec, rpcExec. fields.
    destruct (channel s) as [ch|] eqn:Hch.
    + apply effect_executor; fields; auto. by apply (executes_call _ _ _ _ _ _ ch).
    + apply effect_defer; fields; auto.
      intros q [= <-]. right. lia.
  - (* publish *)
    unfold publish. destruct (channel s) as [ch|].
    + unfold publish_ready. destruct (JSON_stringify data); fields; neutral.
    + fields. apply effect_defer; auto. done.
  - (* consume *)
    unfold consume. destruct (channel s) as [ch|].
    + unfold consume_ready. neutral.
    + apply effect_defer; auto. done.
  - unfold connected.
    destruct (tasks s !! t) as [[p a [| | |] | ]|]; try apply effect_same. neutral.
  - unfold channel_created.
    destruct (tasks s !! t) as [[p a [| connection | |] | ]|]; try apply effect_same.
    fields. case_match; neutral.
  - unfold queue_asserted.
    destruct (tasks s !! t) as [[p a [| | |] | q c o []]|]; try apply effect_same;
      fields; destruct (channel s); try neutral.
    apply effect_promise_op; fields; auto using reject_promise_shape.
    intros q Hq%mentions_reject_promise. revert Hq. by apply mentions_same.
  - unfold queue_bound.
    destruct (tasks s !! t) as [[p a [| | |] | q c o []]|]; try apply effect_same;
      fields; destruct (channel s); try neutral.
    + apply effect_promise_op; fields; auto using fulfil_shape.
      intros q Hq%mentions_fulfil. revert Hq. by apply mentions_same.
    + apply effect_promise_op; fields; auto using reject_promise_shape.
      intros q Hq%mentions_reject_promise. revert Hq. by apply mentions_same.
  - unfold transport_failed.
    destruct (tasks s !! t) as [[p a ph | q c o ph]|]; try apply effect_same;
      try neutral.
    apply effect_promise_op; fields; auto using reject_promise_shape.
    intros q Hq%mentions_reject_promise. revert Hq. by apply mentions_same.
  - (* channel error *)
    unfold channel_error. destruct (listeners s !! ch) as [l|]; [|neutral].
    unfold on_channel_error. fields.
    apply (eff_retry_armed _ _ _ (S (next s))
             {| handler := RetryConnect (next s) (l_promise_attempts l);
                delay := connectionRetryInterval (options s) |}); fields;
      [reflexivity | reflexivity | reflexivity | reflexivity | reflexivity | lia |].
    intros q Hq. apply (mentions_new_promise q s). revert Hq.
    by apply mentions_same.
  - (* a message on the reply queue *)
    unfold deliver, _handleReply.
    destruct (correlationId message) as [id|] eqn:Hid; [|apply effect_same].
    destruct (unresolved s !! id) as [cb|] eqn:Hcb; [|apply effect_same].
    match goal with |- context [reply_callback ?c ?m ?s0] =>
      pose proof (reply_callback_outcome c m s0) as E;
      destruct (reply_callback c m s0) as [s1 [err|]] end;
      cbn [fst] in E; subst s1;
      (apply (eff_reply _ _ _ message id cb); fields;
        [reflexivity | assumption | assumption | reflexivity | reflexivity | reflexivity
        | reflexivity | reflexivity | intros q; by apply mentions_same]).
  - (* a timer *)
    unfold fire. destruct (timers s !! t) as [[h d]|] eqn:Ht; [|apply effect_same].
    destruct h as [id p ms | p attempts]; cbn [handler].
    + apply (eff_timeout _ _ _ t id p ms d); unfold rpc_timeout; fields;
        [reflexivity | assumption | reflexivity | reflexivity | reflexivity
        | reflexivity | reflexivity | intros q; by apply mentions_same].
    + apply (eff_retry_fired _ _ _ t {| handler := RetryConnect p attempts;
                                       delay := d |}); unfold _connect; fields;
        [reflexivity | assumption | reflexivity | reflexivity | reflexivity
        | reflexivity | reflexivity | lia | intros q; by apply mentions_same].
  - (* a job *)
    unfold run_job. destruct (microtasks s) as [|r rest] eqn:Hjobs; [apply effect_same|].
    assert (∀ q, mentions q (set_microtasks rest s) → mentions q s) as Hrest.
    { intros q. apply mentions_mono; [|done]. fields. rewrite Hjobs. set_solver. }
    destruct r as [w | d].
    + apply effect_promise_op; fields; auto using fulfil_shape.
      intros q. apply mentions_fulfil.
    + assert (∀ q, reaction_promise (RRetry d) = Some q → mentions q s) as Hhead.
      { intros q Hq. left. exists (RRetry d). rewrite Hjobs. split; [set_solver|done]. }
      destruct d as [key data opts p | key data opts | queueName callback opts];
        cbn [invoke].
      * unfold rpcExec. fields. destruct (channel s) as [ch|] eqn:Hch.
        -- apply effect_executor; fields; auto.
           by apply (executes_retry _ _ _ _ _ _ ch rest).
        -- apply effect_defer; fields; auto.
      * unfold publish. fields. destruct (channel s) as [ch|].
        -- unfold publish_ready. destruct (JSON_stringify data); fields;
             (apply eff_neutral; fields;
                [reflexivity | reflexivity | reflexivity | reflexivity | lia |]);
             intros q Hq; left; apply Hrest; revert Hq; by apply mentions_same.
        -- fields. apply effect_defer; fields; auto.
      * unfold consume. fields. destruct (channel s) as [ch|].
        -- unfold consume_ready. apply eff_neutral; fields;
             [reflexivity | reflexivity | reflexivity | reflexivity | lia |].
           intros q Hq. left. apply Hrest. revert Hq. by apply mentions_same.
        -- apply effect_defer; fields; auto.
Qed.

(** ** Invariants of the registry *)

Lemma wf_effect s e s' : wf s → effect s e s' → wf s'.
Proof.
  intros [Hlt Hpr Hcb Hmn Hst] Heff.
  destruct Heff as
    [Ht Hu Hs Hc Hn Hm | p t ms Ht Hu Hs Hc Hn Hn' Hp Hm _
    | t id p ms d _ Harmed Ht Hu Hs Hc Hn Hm | m id cb _ _ Hentry Ht Hu Hs Hc Hn Hm
    | t tm Hnone Ht Hu Hs Hc Hn Hm | t tm _ Harmed Hnone Ht Hu Hs Hc Hn Hm
    | p t key data opts _ _ Ht Hu Hs Hc Hn Hp Hm].
  - (* neutral *)
    split; rewrite ?Ht ?Hu.
    + intros t tm H. specialize (Hlt t tm H). lia.
    + intros t tm p H1 H2. specialize (Hpr t tm p H1 H2). lia.
    + done.
    + intros p [H|H]%Hm; [specialize (Hmn p H)|]; lia.
    + rewrite Hs. intros p o H. specialize (Hst p o H). lia.
  - (* executor *)
    assert (p < S t) as Hpt.
    { destruct Hp as [[-> ->] | H%Hmn]; lia. }
    split; rewrite ?Ht ?Hu ?Hn'.
    + intros t' tm. destruct (decide (t = t')) as [<-|Hne].
      * intros _. lia.
      * rewrite lookup_insert_ne //. intros H. specialize (Hlt t' tm H). lia.
    + intros t' tm p'. destruct (decide (t = t')) as [<-|Hne].
      * rewrite lookup_insert_eq. intros [= <-] [= <-]. done.
      * rewrite lookup_insert_ne //. intros H1 H2. specialize (Hpr t' tm p' H1 H2). lia.
    + intros id cb. destruct (decide (Uuid_v4 (uuidCount s) = id)) as [<-|Hne].
      * rewrite lookup_insert_eq. intros [= <-]. exists ms.
        by rewrite lookup_insert_eq.
      * rewrite lookup_insert_ne //. intros H. destruct (Hcb id cb H) as [ms' Hms].
        exists ms'. rewrite lookup_insert_ne //.
        specialize (Hlt _ _ Hms). lia.
    + intros q H%Hm. specialize (Hmn q H). lia.
    + rewrite Hs. intros q o H. specialize (Hst q o H). lia.
  - (* the timeout of a call *)
    split; rewrite ?Ht ?Hu ?Hn.
    + intros t' tm [_ H]%lookup_delete_Some. eauto.
    + intros t' tm p' [_ H]%lookup_delete_Some. eauto.
    + intros id' cb [Hne H]%lookup_delete_Some. destruct (Hcb id' cb H) as [ms' Hms].
      exists ms'. rewrite lookup_delete_ne //. intros E. rewrite E in Harmed. congruence.
    + intros q H%Hm. eauto.
    + rewrite Hs. intros q o [H | [= -> ->]%list_elem_of_singleton]%elem_of_app; [eauto|].
      by eapply Hpr.
  - (* a reply *)
    split; rewrite ?Ht ?Hu ?Hn.
    + intros t' tm [_ H]%lookup_delete_Some. eauto.
    + intros t' tm p' [_ H]%lookup_delete_Some. eauto.
    + intros id' cb' [Hne H]%lookup_delete_Some. destruct (Hcb id' cb' H) as [ms' Hms].
      exists ms'. rewrite lookup_delete_ne //. intros E.
      destruct (Hcb id cb Hentry) as [ms0 Hms0]. congruence.
    + intros q H%Hm. eauto.
    + rewrite Hs. intros q o [H | H]%elem_of_app; [eauto|].
      destruct (reply_outcome m); [|by apply elem_of_nil in H].
      apply list_elem_of_singleton in H as [= -> ->].
      destruct (Hcb id cb Hentry) as [ms0 Hms0]. by eapply Hpr.
  - (* a retry timer is armed *)
    split; rewrite ?Ht ?Hu.
    + intros t' tm'. destruct (decide (t = t')) as [<-|Hne].
      * intros _. lia.
      * rewrite lookup_insert_ne //. intros H. specialize (Hlt t' tm' H). lia.
    + intros t' tm' p'. destruct (decide (t = t')) as [<-|Hne].
      * rewrite lookup_insert_eq. intros [= <-]. congruence.
      * rewrite lookup_insert_ne //. intros H1 H2. specialize (Hpr t' tm' p' H1 H2). lia.
    + intros id cb H. destruct (Hcb id cb H) as [ms' Hms].
      exists ms'. rewrite lookup_insert_ne //. specialize (Hlt _ _ Hms). lia.
    + intros q H%Hm. specialize (Hmn q H). lia.
    + rewrite Hs. intros q o H. specialize (Hst q o H). lia.
  - (* a retry timer fires *)
    split; rewrite ?Ht ?Hu.
    + intros t' tm' [_ H]%lookup_delete_Some. specialize (Hlt t' tm' H). lia.
    + intros t' tm' p' [_ H]%lookup_delete_Some H2. specialize (Hpr t' tm' p' H H2). lia.
    + intros id cb H. destruct (Hcb id cb H) as [ms' Hms].
      exists ms'. rewrite lookup_delete_ne //. intros E.
      rewrite E Hms in Harmed. injection Harmed as <-. done.
    + intros q H%Hm. specialize (Hmn q H). lia.
    + rewrite Hs. intros q o H. specialize (Hst q o H). lia.
  - (* the executor throws *)
    assert (p < next s') as Hpt.
    { destruct Hp as [[-> ->] | [H%Hmn ->]]; lia. }
    split; rewrite ?Ht ?Hu.
    + intros t' tm H. specialize (Hlt t' tm H). lia.
    + intros t' tm p' H1 H2. specialize (Hpr t' tm p' H1 H2). lia.
    + done.
    + intros q H%Hm. specialize (Hmn q H). lia.
    + rewrite Hs. intros q o [H | [= -> ->]%list_elem_of_singleton]%elem_of_app; [|done].
      specialize (Hst q o H). lia.
Qed.

Lemma wf_step s e : wf s → wf (step s e).
Proof. intros H. eapply wf_effect; [done | apply step_effect]. Qed.

Lemma wf_run s tr : wf s → wf (run s tr).
Proof.
  revert s. induction tr as [|e tr IH]; intros s H; [done|].
  apply IH, wf_step, H.
Qed.

Lemma wf_init o exch : wf (init o exch).
Proof.
  split; unfold init, _connect; fields.
  - intros t tm. by rewrite lookup_empty.
  - intros t tm p. by rewrite lookup_empty.
  - intros id cb. by rewrite lookup_empty.
  - intros p [(r & Hr & _) | (q & P & r & Hq & Hr & _)].
    + by apply elem_of_nil in Hr.
    + revert Hq. fields. intros [[_ <-] | [_ Hq]]%lookup_insert_Some.
      * by apply elem_of_nil in Hr.
      * by rewrite lookup_empty in Hq.
  - intros p x H. by apply elem_of_nil in H.
Qed.

(** ** Linearity of the deferred closures *)

Lemma attached_insert P q Q :
  attached (<[q := Q]> P) ≡ₚ names (reactions Q) ++ attached (delete q P).
Proof.
  unfold attached. rewrite -insert_delete_eq.
  rewrite map_to_list_insert; [apply lookup_delete_eq | by rewrite bind_cons].
Qed.

Lemma attached_lookup P q Q :
  P !! q = Some Q → attached P ≡ₚ names (reactions Q) ++ attached (delete q P).
Proof.
  intros H. unfold attached. rewrite -(map_to_list_delete _ _ _ H). by rewrite bind_cons.
Qed.

Lemma attached_fresh P q Q :
  P !! q = None → attached (<[q := Q]> P) ≡ₚ names (reactions Q) ++ attached P.
Proof. intros H. unfold attached. rewrite map_to_list_insert //. Qed.

Lemma names_app l k : names (l ++ k) = names l ++ names k.
Proof. apply omap_app. Qed.

Lemma mentions_named p s : mentions p s ↔ p ∈ named s.
Proof.
  unfold mentions, named, attached, names.
  rewrite elem_of_app list_elem_of_omap list_elem_of_bind. split.
  - intros [H | (q & Q & r & Hq & Hr & Hp)]; [by left|right].
    exists (q, Q). split; [|by apply elem_of_map_to_list].
    apply list_elem_of_omap. by exists r.
  - intros [H | ([q Q] & (r & Hr & Hp)%list_elem_of_omap & Hq%elem_of_map_to_list)];
      [by left|right].
    by exists q, Q, r.
Qed.

Lemma named_then q r s : named (then_ q r s) ⊆+ named s ++ names [r].
Proof.
  unfold then_.
  destruct (promises s !! q) as [Q|] eqn:HQ; [destruct (status Q) eqn:HS|];
    try by apply submseteq_inserts_r.
  - unfold named. fields. rewrite attached_insert (attached_lookup _ _ _ HQ).
    cbn [reactions]. rewrite names_app. apply Permutation_submseteq. solve_Permutation.
  - unfold named. fields. rewrite names_app.
    apply Permutation_submseteq. solve_Permutation.
Qed.

Lemma named_fulfil q s : named (fulfil q s) ⊆+ named s.
Proof.
  unfold fulfil.
  destruct (promises s !! q) as [Q|] eqn:HQ; [destruct (status Q) eqn:HS|]; try done.
  unfold named. fields. rewrite attached_insert (attached_lookup _ _ _ HQ).
  cbn [reactions]. rewrite names_app. apply Permutation_submseteq.
  cbn [names omap]. solve_Permutation.
Qed.

Lemma named_reject_promise q s : named (reject_promise q s) ⊆+ named s.
Proof.
  unfold reject_promise.
  destruct (promises s !! q) as [Q|] eqn:HQ; [destruct (status Q) eqn:HS|]; try done.
  unfold named. fields. rewrite attached_insert (attached_lookup _ _ _ HQ).
  cbn [reactions names omap app]. apply submseteq_skips_l, submseteq_inserts_l. done.
Qed.

Lemma named_new_promise s :
  (∀ q, is_Some (promises s !! q) → q < next s) →
  named (new_promise s).2 ≡ₚ named s.
Proof.
  intros Hlt. unfold named. fields. rewrite attached_fresh //.
  destruct (promises s !! next s) as [Q|] eqn:HQ; [|done].
  assert (next s < next s) by (apply Hlt; eauto). lia.
Qed.

Lemma named_defer d s :
  (∀ q, is_Some (promises s !! q) → q < next s) →
  named (defer d s) ⊆+ named s ++ names [RRetry d].
Proof.
  intros Hlt. unfold defer, _waitForChannel.
  destruct (new_promise s) as [w s1] eqn:Hnew.
  assert (w = next s ∧ s1 = (new_promise s).2) as [-> ->] by (by injection Hnew as <- <-).
  etrans; [apply named_then|]. apply submseteq_skips_r.
  etrans; [apply named_then|]. cbn [names omap reaction_promise]. rewrite app_nil_r.
  by rewrite named_new_promise.
Qed.

Lemma NoDup_submseteq_inv (l k : list nat) : l ⊆+ k → NoDup k → NoDup l.
Proof. intros [k' E]%submseteq_Permutation. rewrite E. by intros [? _]%NoDup_app. Qed.

Lemma promises_then q r s k :
  is_Some (promises (then_ q r s) !! k) → is_Some (promises s !! k).
Proof.
  unfold then_. destruct (promises s !! q) as [Q|] eqn:HQ; [destruct (status Q)|];
    try done.
  fields. intros [<- | [_ H]]%lookup_insert_is_Some; [by rewrite HQ | done].
Qed.

Lemma promises_fulfil q s k :
  is_Some (promises (fulfil q s) !! k) → is_Some (promises s !! k).
Proof.
  unfold fulfil. destruct (promises s !! q) as [Q|] eqn:HQ; [destruct (status Q)|];
    try done.
  fields. intros [<- | [_ H]]%lookup_insert_is_Some; [by rewrite HQ | done].
Qed.

Lemma promises_reject_promise q s k :
  is_Some (promises (reject_promise q s) !! k) → is_Some (promises s !! k).
Proof.
  unfold reject_promise. destruct (promises s !! q) as [Q|] eqn:HQ; [destruct (status Q)|];
    try done.
  fields. intros [<- | [_ H]]%lookup_insert_is_Some; [by rewrite HQ | done].
Qed.

(** A task that adds no closure, no call timer and no settlement of a
    named promise keeps the closures linear. *)
Lemma linear_sub s s' :
  linear s → named s' ⊆+ named s →
  (∀ q, is_Some (promises s' !! q) → q < next s') →
  next s ≤ next s' →
  (∀ t tm p, timers s' !! t = Some tm → timer_promise tm = Some p →
             timers s !! t = Some tm) →
  (∀ p o, p ∈ named s → (p, o) ∈ settlements s' → (p, o) ∈ settlements s) →
  linear s'.
Proof.
  intros [Hnd Hpr Hh Hti Hun] Hsub Hpr' Hn Ht Hs. split.
  - by eapply NoDup_submseteq_inv.
  - done.
  - intros p Hp. eapply elem_of_submseteq in Hp; [|done]. specialize (Hh p Hp). lia.
  - intros p t tm Hp Htm Heq. eapply elem_of_submseteq in Hp; [|done].
    apply (Hti p t tm Hp); [|done]. by eapply Ht.
  - intros p o Hp Hin. eapply elem_of_submseteq in Hp; [|done].
    apply (Hun p o Hp). by apply Hs.
Qed.

Lemma linear_frame s s' :
  linear s → microtasks s' = microtasks s → promises s' = promises s →
  next s ≤ next s' →
  (∀ t tm p, timers s' !! t = Some tm → timer_promise tm = Some p →
             timers s !! t = Some tm) →
  settlements s' = settlements s →
  linear s'.
Proof.
  intros Hl Hm Hp Hn Ht Hs.
  assert (named s' = named s) as E by (unfold named; by rewrite Hm Hp).
  apply (linear_sub s); try done.
  - by rewrite E.
  - intros q. rewrite Hp. intros H%(ln_promises s Hl). lia.
  - intros p o _. by rewrite Hs.
Qed.

Lemma linear_fulfil q s : linear s → linear (fulfil q s).
Proof.
  intros Hl. destruct (fulfil_shape q s) as (P & M & E).
  apply (linear_sub s); try done.
  - apply named_fulfil.
  - intros k H%promises_fulfil%(ln_promises s Hl). rewrite E. by fields.
  - rewrite E. by fields.
  - rewrite E. by fields.
  - rewrite E. by fields.
Qed.

Lemma linear_reject_promise q s : linear s → linear (reject_promise q s).
Proof.
  intros Hl. destruct (reject_promise_shape q s) as (P & M & E).
  apply (linear_sub s); try done.
  - apply named_reject_promise.
  - intros k H%promises_reject_promise%(ln_promises s Hl). rewrite E. by fields.
  - rewrite E. by fields.
  - rewrite E. by fields.
  - rewrite E. by fields.
Qed.

Lemma promises_defer d s k :
  is_Some (promises (defer d s) !! k) → is_Some (promises s !! k) ∨ k = next s.
Proof.
  unfold defer, _waitForChannel.
  destruct (new_promise s) as [w s1] eqn:Hnew.
  assert (w = next s ∧ s1 = (new_promise s).2) as [-> ->] by (by injection Hnew as <- <-).
  intros H%promises_then%promises_then. revert H. fields.
  intros [<- | [_ H]]%lookup_insert_is_Some; auto.
Qed.

(** Deferring a call whose promise no closure names yet. *)
Lemma linear_defer d s :
  linear s →
  (∀ p, reaction_promise (RRetry d) = Some p →
     (p ∉ named s) ∧ p < next s ∧
     (∀ t tm, timers s !! t = Some tm → timer_promise tm ≠ Some p) ∧
     ∀ o, (p, o) ∉ settlements s) →
  linear (defer d s).
Proof.
  intros Hl Hd. pose proof Hl as [Hnd Hpr Hh Hti Hun].
  destruct (defer_shape d s) as (P & M & E).
  pose proof (named_defer d s Hpr) as Hsub.
  assert (∀ p, p ∈ named (defer d s) → p ∈ named s ∨ reaction_promise (RRetry d) = Some p)
    as Hin.
  { intros p Hp. eapply elem_of_submseteq in Hp; [|done].
    apply elem_of_app in Hp as [Hp | Hp]; [by left|right].
    apply list_elem_of_omap in Hp as (r & ->%list_elem_of_singleton & Hr). done. }
  split.
  - eapply NoDup_submseteq_inv; [done|]. apply NoDup_app. split_and!; [done| |].
    + intros p Hp (r & ->%list_elem_of_singleton & Hr)%list_elem_of_omap.
      by destruct (Hd p Hr) as [? _].
    + destruct d; simpl; [apply NoDup_singleton | apply NoDup_nil_2..].
  - intros k [H | ->]%promises_defer; rewrite E; fields; [|lia].
    specialize (Hpr k H). lia.
  - intros p [Hp | Hp]%Hin; rewrite E; fields.
    + specialize (Hh p Hp). lia.
    + destruct (Hd p Hp) as (_ & ? & _). lia.
  - intros p t tm [Hp | Hp]%Hin; rewrite E; fields.
    + by apply Hti.
    + destruct (Hd p Hp) as (_ & _ & H & _). apply H.
  - intros p o [Hp | Hp]%Hin; rewrite E; fields.
    + by apply Hun.
    + destruct (Hd p Hp) as (_ & _ & _ & H). apply H.
Qed.

(** Running [rpcExec] for a promise that no closure names. *)
Lemma linear_rpcExec p key data opts s :
  linear s → p ∉ named s → p < next s →
  (∀ t tm, timers s !! t = Some tm → timer_promise tm ≠ Some p) →
  (∀ o, (p, o) ∉ settlements s) →
  linear (rpcExec p key data opts s).
Proof.
  intros Hl Hp Hlt Hpt Hps. pose proof Hl as [Hnd Hpr Hh Hti Hun].
  unfold rpcExec. destruct (channel s) as [ch|].
  - unfold rpcExec_ready. destruct (JSON_stringify data) as [content|]; fields.
    + split; unfold named; fields; try done.
      * intros q H%Hpr. lia.
      * intros q H%Hh. lia.
      * intros q t tm Hq [[_ <-] | [_ H]]%lookup_insert_Some; [|by eapply Hti].
        cbn. intros [= ->]. done.
    + apply (linear_sub s); fields; try done.
      intros q o Hq [H | [= -> _]%list_elem_of_singleton]%elem_of_app; [done|].
      by destruct Hp.
  - apply linear_defer; [done|]. cbn [reaction_promise]. by intros ? [= <-].
Qed.

Lemma linear_publish key data opts s :
  linear s → linear (finish (publish key data opts s)).
Proof.
  intros Hl. unfold publish. destruct (channel s) as [ch|].
  - unfold publish_ready. destruct (JSON_stringify data); fields; by apply (linear_frame s).
  - fields. by apply linear_defer.
Qed.

Lemma linear_consume queueName callback opts s :
  linear s → linear (consume queueName callback opts s).
Proof.
  intros Hl. unfold consume. destruct (channel s) as [ch|].
  - unfold consume_ready. apply (linear_frame s); fields; try done. lia.
  - by apply linear_defer.
Qed.

Lemma linear_step s e : wf s → linear s → linear (step s e).
Proof.
  intros Hwf Hl. pose proof Hl as [Hnd Hpr Hh Hti Hun].
  destruct e as [key data opts | key data opts | queueName callback opts
                | t connection | t ch | t queue | t | t | ch | message | t | ];
    cbn [step].
  - unfold call_rpcExec. apply linear_rpcExec; fields.
    + apply (linear_frame s); fields; try done. lia.
    + intros H%Hh. lia.
    + lia.
    + intros t tm Htm Hp. pose proof (wf_timer_promise s Hwf t tm _ Htm Hp). lia.
    + intros o Ho. pose proof (wf_settled s Hwf _ _ Ho). lia.
  - by apply linear_publish.
  - by apply linear_consume.
  - unfold connected.
    destruct (tasks s !! t) as [[p a [| | |] | ]|] eqn:Htask; try done;
      by apply (linear_frame s).
  - unfold channel_created.
    destruct (tasks s !! t) as [[p a [| connection | |] | ]|] eqn:Htask; try done.
    fields. by case_match; apply (linear_frame s).
  - unfold queue_asserted.
    destruct (tasks s !! t) as [[p a [| | |] | q c o []]|] eqn:Htask; try done;
      fields; destruct (channel s) as [ch|]; try (by apply (linear_frame s)).
    apply linear_reject_promise. by apply (linear_frame s).
  - unfold queue_bound.
    destruct (tasks s !! t) as [[p a [| | |] | q c o []]|] eqn:Htask; try done;
      fields; destruct (channel s) as [ch|]; try (by apply (linear_frame s)).
    + apply linear_fulfil. by apply (linear_frame s).
    + apply linear_reject_promise. by apply (linear_frame s).
  - unfold transport_failed.
    destruct (tasks s !! t) as [[p a ph | q c o ph]|] eqn:Htask; try done;
      apply linear_reject_promise; by apply (linear_frame s).
  - unfold channel_error.
    destruct (listeners s !! ch) as [l|]; [|by apply (linear_frame s)].
    unfold on_channel_error. apply (linear_sub s); fields; try done.
    + assert (promises s !! next s = None) as Hfr.
      { destruct (promises s !! next s) eqn:HQ; [|done].
        assert (next s < next s) by (apply Hpr; eauto). lia. }
      unfold named. fields. by rewrite (attached_fresh _ _ _ Hfr).
    + intros q [<- | [_ H%Hpr]]%lookup_insert_is_Some; lia.
    + lia.
    + intros t tm p [[_ <-] | [_ H]]%lookup_insert_Some; done.
  - unfold deliver, _handleReply.
    destruct (correlationId message) as [id|]; [|done].
    destruct (unresolved s !! id) as [cb|] eqn:Hcb; [|done].
    destruct (wf_callback s Hwf id cb Hcb) as [ms Hms].
    match goal with |- context [reply_callback ?c ?m ?s0] =>
      pose proof (reply_callback_outcome c m s0) as E;
      destruct (reply_callback c m s0) as [s1 [err|]] end;
      cbn [fst] in E; subst s1; (apply (linear_sub s); fields; try done).
    all: try (intros q H%Hpr; lia).
    all: try (by intros t tm p [_ H]%lookup_delete_Some).
    all: intros p o Hp [H | H]%elem_of_app; [done|]; exfalso;
      destruct (reply_outcome message); [|by apply elem_of_nil in H];
      apply list_elem_of_singleton in H as [= -> _];
      by apply (Hti _ _ _ Hp Hms).
  - unfold fire. destruct (timers s !! t) as [[h dl]|] eqn:Ht; [|done].
    destruct h as [id p ms | p attempts]; cbn [handler].
    + unfold rpc_timeout. apply (linear_sub s); fields; try done.
      * by intros t' tm p' [_ H]%lookup_delete_Some.
      * intros p' o Hp [H | [= -> _]%list_elem_of_singleton]%elem_of_app; [done|].
        exfalso. by apply (Hti _ _ _ Hp Ht).
    + unfold _connect. apply (linear_frame s); fields; try done; [lia|].
      by intros t' tm p' [_ H]%lookup_delete_Some.
  - unfold run_job. destruct (microtasks s) as [|r rest] eqn:Hjobs; [done|].
    assert (named s = names [r] ++ named (set_microtasks rest s)) as Hn.
    { unfold named. rewrite Hjobs. fields. by rewrite (names_app [r]) -app_assoc. }
    assert (linear (set_microtasks rest s)) as Hl'.
    { apply (linear_sub s); fields; try done.
      rewrite Hn. by apply submseteq_inserts_l. }
    destruct r as [w | d]; [by apply linear_fulfil|].
    destruct d as [key data opts p | key data opts | queueName callback opts];
      cbn [invoke]; [|by apply linear_publish | by apply linear_consume].
    assert (p ∈ named s) as Hp by (rewrite Hn; by left).
    rewrite Hn in Hnd. apply NoDup_cons in Hnd as [Hnp _].
    apply linear_rpcExec; fields; try done.
    + by apply Hh.
    + intros t tm. by apply Hti.
    + intros o. by apply Hun.
Qed.

Lemma linear_run s tr : wf s → linear s → linear (run s tr).
Proof.
  revert s. induction tr as [|e tr IH]; intros s Hwf Hl; [done|].
  apply IH; [by apply wf_step | by apply linear_step].
Qed.

Lemma linear_init o exch : linear (init o exch).
Proof.
  assert (named (init o exch) ≡ₚ []) as E.
  { unfold named, init, _connect. fields. by rewrite attached_fresh. }
  split.
  - rewrite E. apply NoDup_nil_2.
  - unfold init, _connect. fields.
    intros q [<- | [_ H]]%lookup_insert_is_Some; [lia|].
    rewrite lookup_empty in H. by destruct H.
  - intros p. rewrite E. by intros ?%elem_of_nil.
  - intros p t tm. rewrite E. by intros ?%elem_of_nil.
  - intros p x. rewrite E. by intros ?%elem_of_nil.
Qed.

(** ** One call, followed through the event loop *)

(** The two terminal events of a call, computed. *)
Lemma timer_fires s t id p ms d :
  timers s !! t = Some {| handler := RpcTimeout id p ms; delay := d |} →
  timers (step s (EvTimer t)) = delete t (timers s) ∧
  unresolved (step s (EvTimer t)) = delete id (unresolved s) ∧
  settlements (step s (EvTimer t)) =
    settlements s ++ [(p, Reject (Error (timeout_message ms)))].
Proof. intros H. cbn [step]. unfold fire. rewrite H. done. Qed.

Lemma reply_arrives s m id cb :
  correlationId m = Some id → unresolved s !! id = Some cb →
  timers (step s (EvMessage m)) = delete (cb_timer cb) (timers s) ∧
  unresolved (step s (EvMessage m)) = delete id (unresolved s) ∧
  settlements (step s (EvMessage m)) =
    settlements s ++
      match reply_outcome m with Some o => [(cb_promise cb, o)] | None => [] end.
Proof.
  intros Hid Hcb. cbn [step]. unfold deliver, _handleReply. rewrite Hid Hcb.
  match goal with |- context [reply_callback ?c ?m ?s0] =>
    pose proof (reply_callback_outcome c m s0) as E;
    destruct (reply_callback c m s0) as [s1 [err|]] end;
    cbn [fst] in E; subst s1; done.
Qed.

Lemma outcomes_app p s l :
  (filter (λ x, x.1 = p) (settlements s ++ l)).*2 =
    outcomes p s ++ (filter (λ x, x.1 = p) l).*2.
Proof. by rewrite filter_app fmap_app. Qed.

(** A task either leaves the call alone, or it is the timer of the call
    or a reply to it, and afterwards nothing can settle [p] any more. *)
Lemma tracked_effect s e s' T p :
  wf s → tracked T p s → effect s e s' →
  (tracked T p s' ∧ outcomes p s' = outcomes p s ∧
   ∀ t tm, timers s !! t = Some tm → timer_promise tm = Some p →
           timers s' !! t = Some tm) ∨
  (∃ t id ms d,
     T = Some t ∧
     timers s !! t = Some {| handler := RpcTimeout id p ms; delay := d |} ∧
     tracked None p s' ∧
     (e = EvTimer t ∨ ∃ m, e = EvMessage m ∧ correlationId m = Some id)).
Proof.
  intros [Hlt Hpr Hcb Hmn _] [HT Hnm Hnext] Heff.
  destruct Heff as
    [Ht Hu Hs Hc Hn Hm | p' t ms Ht Hu Hs Hc Hn Hn' Hp Hm _
    | t id p' ms d He Harmed Ht Hu Hs Hc Hn Hm | m id cb He Hid Hentry Ht Hu Hs Hc Hn Hm
    | t tm Hnone Ht Hu Hs Hc Hn Hm | t tm He Harmed Hnone Ht Hu Hs Hc Hn Hm
    | p' t key data opts _ _ Ht Hu Hs Hc Hn Hp Hm].
  - (* neutral *)
    left. split_and!.
    + split.
      * rewrite Ht. done.
      * intros [H|H]%Hm; [done | lia].
      * lia.
    + unfold outcomes. by rewrite Hs.
    + rewrite Ht. done.
  - (* executor, for another promise *)
    assert (p' ≠ p) as Hpp.
    { destruct Hp as [[-> _] | H]; [lia | by intros ->]. }
    left. split_and!.
    + split.
      * intros t' tm. rewrite Ht. destruct (decide (t = t')) as [<-|Hne].
        -- rewrite lookup_insert_eq. intros [= <-] [= E]. done.
        -- rewrite lookup_insert_ne //. apply HT.
      * intros H%Hm. done.
      * lia.
    + unfold outcomes. by rewrite Hs.
    + intros t' tm H1 H2. rewrite Ht lookup_insert_ne //.
      specialize (Hlt _ _ H1). lia.
  - (* the timeout of a call *)
    destruct (decide (p' = p)) as [->|Hpp].
    + right. exists t, id, ms, d. split_and!; [by eapply HT | done | | by left].
      split; [|by intros H%Hm|lia].
      intros t' tm. rewrite Ht. intros [Hne H]%lookup_delete_Some Hp.
      pose proof (HT _ _ H Hp) as E1. pose proof (HT _ _ Harmed eq_refl) as E2. congruence.
    + left. split_and!.
      * split; [|by intros H%Hm|lia].
        intros t' tm. rewrite Ht. intros [Hne H]%lookup_delete_Some. by apply HT.
      * unfold outcomes. rewrite Hs filter_app fmap_app.
        rewrite (filter_cons_False _ _ []) //. by rewrite app_nil_r.
      * intros t' tm H1 H2. rewrite Ht lookup_delete_ne //.
        intros <-. rewrite Harmed in H1. injection H1 as <-. by injection H2.
  - (* a reply *)
    destruct (Hcb id cb Hentry) as [ms Hms].
    destruct (decide (cb_promise cb = p)) as [Hpp|Hpp].
    + right. exists (cb_timer cb), id, ms, ms. rewrite -Hpp.
      split_and!; [by eapply HT; [done | rewrite -Hpp] | done | | right; by exists m].
      rewrite Hpp.
      split; [|by intros H%Hm|lia].
      intros t' tm. rewrite Ht. intros [Hne H]%lookup_delete_Some Hp.
      pose proof (HT _ _ H Hp) as E1.
      assert (T = Some (cb_timer cb)) as E2 by (eapply HT; [done | by rewrite -Hpp]).
      congruence.
    + left. split_and!.
      * split; [|by intros H%Hm|lia].
        intros t' tm. rewrite Ht. intros [Hne H]%lookup_delete_Some. by apply HT.
      * unfold outcomes. rewrite Hs filter_app fmap_app.
        destruct (reply_outcome m); [|by rewrite app_nil_r].
        rewrite (filter_cons_False _ _ []) //. by rewrite app_nil_r.
      * intros t' tm H1 H2. rewrite Ht lookup_delete_ne //.
        intros E. rewrite -E Hms in H1. injection H1 as <-. by injection H2.
  - (* a retry timer is armed *)
    left. split_and!.
    + split; [|by intros H%Hm|lia].
      intros t' tm'. rewrite Ht. destruct (decide (t = t')) as [<-|Hne].
      * rewrite lookup_insert_eq. intros [= <-]. congruence.
      * rewrite lookup_insert_ne //. apply HT.
    + unfold outcomes. by rewrite Hs.
    + intros t' tm' H1 H2. rewrite Ht lookup_insert_ne //.
      specialize (Hlt _ _ H1). lia.
  - (* a retry timer fires *)
    left. split_and!.
    + split; [|by intros H%Hm|lia].
      intros t' tm'. rewrite Ht. intros [Hne H]%lookup_delete_Some. by apply HT.
    + unfold outcomes. by rewrite Hs.
    + intros t' tm' H1 H2. rewrite Ht lookup_delete_ne //.
      intros <-. congruence.
  - (* the executor throws, for another promise *)
    assert (p' ≠ p) as Hpp.
    { destruct Hp as [[-> _] | [H _]]; [lia | by intros ->]. }
    left. split_and!.
    + split; [by rewrite Ht | by intros H%Hm | lia].
    + unfold outcomes. rewrite Hs filter_app fmap_app.
      rewrite (filter_cons_False _ _ []) //. by rewrite app_nil_r.
    + by rewrite Ht.
Qed.

(** Once no timer is left for it, a promise keeps the outcomes it has. *)
Lemma settled_for_good s tr p :
  wf s → tracked None p s →
  tracked None p (run s tr) ∧ outcomes p (run s tr) = outcomes p s.
Proof.
  revert s. induction tr as [|e tr IH]; intros s Hwf Htr; [done|].
  cbn [run foldl]. fold (run (step s e) tr).
  destruct (tracked_effect s e (step s e) None p Hwf Htr (step_effect s e))
    as [(Htr' & Hout & _) | (t & ? & ? & ? & [=] & _)].
  destruct (IH (step s e) (wf_step _ _ Hwf) Htr') as [H1 H2].
  split; [done | congruence].
Qed.

(** A call of [rpcExec] on a ready channel, computed. *)
Lemma call_ready s ch key data content opts :
  channel s = Some ch → JSON_stringify data = Some content →
  let s1 := step s (EvRpcExec key data opts) in
  let id := Uuid_v4 (uuidCount s) in
  let ms := effective_timeout opts in
  timers s1 =
    <[S (next s) := {| handler := RpcTimeout id (next s) ms; delay := ms |}]> (timers s) ∧
  unresolved s1 =
    <[id := {| cb_timer := S (next s); cb_promise := next s |}]> (unresolved s) ∧
  sent s1 =
    sent s ++
      [OpPublish ch (exchange s) key content (Some (sendOptions id (replyQueue s) ms))] ∧
  settlements s1 = settlements s ∧
  promises s1 = promises s ∧ microtasks s1 = microtasks s ∧
  next s1 = S (S (next s)) ∧ uuidCount s1 = S (uuidCount s).
Proof.
  intros Hch Hjson. cbn [step]. unfold call_rpcExec, rpcExec. fields. rewrite Hch.
  unfold rpcExec_ready. rewrite Hjson. fields. done.
Qed.

Lemma not_settled_fresh s p : wf s → next s ≤ p → outcomes p s = [].
Proof.
  intros Hwf Hp. unfold outcomes.
  pose proof (wf_settled s Hwf) as Hst. revert Hst.
  induction (settlements s) as [|[q x] l IH]; intros Hst; [done|].
  rewrite filter_cons_False.
  - cbn [fst]. assert (q < next s) by (apply (Hst q x); set_solver). lia.
  - apply IH. intros q' x' H. apply (Hst q' x'). set_solver.
Qed.

(** Right after the call, only its timer can settle its promise. *)
Lemma call_armed s ch key data content opts :
  wf s → channel s = Some ch → JSON_stringify data = Some content →
  let s1 := step s (EvRpcExec key data opts) in
  tracked (Some (S (next s))) (next s) s1 ∧ outcomes (next s) s1 = [].
Proof.
  intros Hwf Hch Hjson s1.
  destruct (call_ready s ch key data content opts Hch Hjson)
    as (Ht & Hu & _ & Hs & Hp & Hm & Hn & _).
  fold s1 in Ht, Hu, Hs, Hp, Hm, Hn.
  split; [split|].
  - intros t tm. rewrite Ht. destruct (decide (S (next s) = t)) as [<-|Hne]; [done|].
    rewrite lookup_insert_ne //. intros H1 H2.
    pose proof (wf_timer_promise s Hwf _ _ _ H1 H2). lia.
  - intros H. apply (mentions_same _ s) in H; [|done..].
    pose proof (wf_mentions s Hwf _ H). lia.
  - lia.
  - unfold outcomes. rewrite Hs. by apply not_settled_fresh.
Qed.

Lemma outcomes_nil p s : (∀ x, (p, x) ∉ settlements s) → outcomes p s = [].
Proof.
  unfold outcomes. induction (settlements s) as [|[q x] l IH]; intros H; [done|].
  rewrite filter_cons_False.
  - cbn [fst]. intros ->. apply (H x). by left.
  - apply IH. intros y Hy. apply (H y). by right.
Qed.

(** The retry of a deferred [rpcExec] on a ready channel: afterwards only
    the timer it armed can settle the promise of the call. *)
Lemma retry_ready s ch key data content opts p rest :
  channel s = Some ch → JSON_stringify data = Some content →
  microtasks s = RRetry (DRpcExec key data opts p) :: rest →
  let s1 := step s EvJob in
  let id := Uuid_v4 (uuidCount s) in
  let ms := effective_timeout opts in
  timers s1 =
    <[next s := {| handler := RpcTimeout id p ms; delay := ms |}]> (timers s) ∧
  unresolved s1 =
    <[id := {| cb_timer := next s; cb_promise := p |}]> (unresolved s) ∧
  sent s1 =
    sent s ++
      [OpPublish ch (exchange s) key content (Some (sendOptions id (replyQueue s) ms))] ∧
  settlements s1 = settlements s ∧
  promises s1 = promises s ∧ microtasks s1 = rest ∧
  next s1 = S (next s) ∧ uuidCount s1 = S (uuidCount s).
Proof.
  intros Hch Hjson Hjobs s1 id ms. subst s1. cbn [step]. unfold run_job. rewrite Hjobs.
  cbn [invoke]. unfold rpcExec. fields. rewrite Hch. unfold rpcExec_ready.
  rewrite Hjson. by fields.
Qed.

Lemma retry_armed s ch key data content opts p rest :
  wf s → linear s → channel s = Some ch → JSON_stringify data = Some content →
  microtasks s = RRetry (DRpcExec key data opts p) :: rest →
  let s1 := step s EvJob in
  tracked (Some (next s)) p s1 ∧ outcomes p s1 = [].
Proof.
  intros Hwf Hl Hch Hjson Hjobs s1. pose proof Hl as [Hnd Hpr Hh Hti Hun].
  destruct (retry_ready s ch key data content opts p rest Hch Hjson Hjobs)
    as (Ht & Hu & _ & Hs & Hp & Hm & Hn & _).
  fold s1 in Ht, Hu, Hs, Hp, Hm, Hn.
  assert (named s = p :: named s1) as Hnamed.
  { unfold named. by rewrite Hjobs Hm Hp. }
  assert (p ∈ named s) as Hin by (rewrite Hnamed; by left).
  split; [split|].
  - intros t tm. rewrite Ht. destruct (decide (next s = t)) as [<-|Hne]; [done|].
    rewrite lookup_insert_ne //. intros H1 H2. by destruct (Hti p t tm Hin H1).
  - intros H%mentions_named. rewrite Hnamed in Hnd. by apply NoDup_cons in Hnd as [? _].
  - rewrite Hn. specialize (Hh p Hin). lia.
  - apply outcomes_nil. rewrite Hs. intros x. by apply Hun.
Qed.

(** However the executor is entered, when the payload can be serialised:
    the timer is armed, the call is registered and the request is sent. *)
Lemma executes_ready s key data content opts p t e :
  executes s key data opts p t e → JSON_stringify data = Some content →
  let id := Uuid_v4 (uuidCount s) in
  let ms := effective_timeout opts in
  timers (step s e) =
    <[t := {| handler := RpcTimeout id p ms; delay := ms |}]> (timers s) ∧
  unresolved (step s e) = <[id := {| cb_timer := t; cb_promise := p |}]> (unresolved s) ∧
  settlements (step s e) = settlements s ∧
  uuidCount (step s e) = S (uuidCount s) ∧
  ∃ ch, channel s = Some ch ∧
    sent (step s e) =
      sent s ++
        [OpPublish ch (exchange s) key content (Some (sendOptions id (replyQueue s) ms))].
Proof.
  intros [ch Hch -> -> | ch rest Hch Hjobs ->] Hjson id ms.
  - destruct (call_ready s ch key data content opts Hch Hjson)
      as (Ht & Hu & Hsent & Hs & _ & _ & _ & Hc).
    split_and!; [done..|]. by exists ch.
  - destruct (retry_ready s ch key data content opts p rest Hch Hjson Hjobs)
      as (Ht & Hu & Hsent & Hs & _ & _ & _ & Hc).
    split_and!; [done..|]. by exists ch.
Qed.

(** Afterwards the promise of the call is pending and only the timer the
    executor armed can settle it. *)
Lemma executes_armed s key data content opts p t e :
  wf s → linear s → executes s key data opts p t e →
  JSON_stringify data = Some content →
  tracked (Some t) p (step s e) ∧ outcomes p (step s e) = [].
Proof.
  intros Hwf Hl [ch Hch -> -> | ch rest Hch Hjobs ->] Hjson.
  - by apply (call_armed s ch key data content opts).
  - by apply (retry_armed s ch key data content opts p rest).
Qed.

(** As long as the trace is calm the call stays as it is: timer armed,
    promise pending. *)
Lemma calm_run s tr t id p ms d :
  wf s → tracked (Some t) p s →
  timers s !! t = Some {| handler := RpcTimeout id p ms; delay := d |} →
  calm t id tr →
  tracked (Some t) p (run s tr) ∧
  timers (run s tr) !! t = Some {| handler := RpcTimeout id p ms; delay := d |} ∧
  outcomes p (run s tr) = outcomes p s.
Proof.
  revert s. induction tr as [|e tr IH]; intros s Hwf Htr Harmed Hcalm; [done|].
  apply Forall_cons in Hcalm as [[Hnt Hnm] Hcalm].
  cbn [run foldl]. fold (run (step s e) tr).
  destruct (tracked_effect s e (step s e) (Some t) p Hwf Htr (step_effect s e))
    as [(Htr' & Hout & Hkeep) | (t' & id' & ms' & d' & [= <-] & Harmed' & _ & Hterm)].
  - destruct (IH (step s e) (wf_step _ _ Hwf) Htr' (Hkeep _ _ Harmed eq_refl) Hcalm)
      as (H1 & H2 & H3).
    split_and!; [done | done | congruence].
  - rewrite Harmed in Harmed'. injection Harmed' as <- <- <-.
    destruct Hterm as [-> | (m & -> & Hid)]; [done|].
    by destruct (Hnm m eq_refl).
Qed.

(** C10. A call whose [timeout] is absent or [0] runs with 15000.
    Whenever the executor of such a call runs, at once on a ready channel
    or when the deferred call is retried, with a payload that can be
    serialised, the call is not rejected: its timer is armed for 15000 ms,
    the timeout error that timer raises names 15000, and the request is
    published with [expiration] 15000. *)
Theorem falsy_timeout_is_default (s : State) (key : string) (data content : value)
    (opts : RpcOptions) (p t : nat) (e : Event) :
  executes s key data opts p t e →
  JSON_stringify data = Some content →
  timeout opts = None ∨ timeout opts = Some 0%Z →
  let s' := step s e in
  effective_timeout opts = 15000%Z ∧
  timers s' !! t =
    Some {| handler := RpcTimeout (Uuid_v4 (uuidCount s)) p 15000; delay := 15000 |} ∧
  settlements s' = settlements s ∧
  settlements (step s' (EvTimer t)) =
    settlements s ++
      [(p, Reject (Error "RPC Server failed to respond before the configured timeout (15000ms)"))] ∧
  ∃ ch o, channel s = Some ch ∧
          sent s' = sent s ++ [OpPublish ch (exchange s) key content (Some o)] ∧
          o !! "expiration" = Some (VNum 15000).
Proof.
  intros Hex Hjson Hfalsy s'.
  assert (effective_timeout opts = 15000%Z) as E.
  { unfold effective_timeout. by destruct Hfalsy as [-> | ->]. }
  destruct (executes_ready s key data content opts p t e Hex Hjson)
    as (Ht & _ & Hs & _ & ch & Hch & Hsent).
  fold s' in Ht, Hs, Hsent. rewrite E in Ht, Hsent.
  assert (timers s' !! t =
            Some {| handler := RpcTimeout (Uuid_v4 (uuidCount s)) p 15000; delay := 15000 |})
    as Harmed by (rewrite Ht; apply lookup_insert_eq).
  destruct (timer_fires s' t _ _ _ _ Harmed) as (_ & _ & Hfire).
  split_and!; [done | done | done | by rewrite Hfire Hs |].
  exists ch. eexists. split_and!; [done | done |].
  unfold sendOptions, Object_assign. done.
Qed.

(** X17. A call of [rpcExec] whose request goes out, at once on a
    ready channel or when the deferred call is retried, and that gets no
    reply before its timer fires is rejected with the timeout error, which
    names the timeout the call runs with, a delay that [setTimeout] takes
    as it is; the timer is armed for that many milliseconds.  That timeout
    is 15000 when [options.timeout] is absent and is [options.timeout]
    when it is a number other than [0]. *)
Theorem timeout_rejects (o : UserConnectionOptions) (exch : string) (tr0 : list Event)
    (key : string) (data content : value) (opts : RpcOptions) (p t : nat) (e : Event)
    (tr : list Event) :
  let s := run (init o exch) tr0 in
  let ms := effective_timeout opts in
  let s2 := run (step s e) tr in
  executes s key data opts p t e →
  JSON_stringify data = Some content →
  valid_delay ms →
  calm t (Uuid_v4 (uuidCount s)) tr →
  outcomes p s2 = [] ∧
  delay <$> timers s2 !! t = Some ms ∧
  outcomes p (step s2 (EvTimer t)) = [Reject (Error (timeout_message ms))] ∧
  timeout_message ms =
    "RPC Server failed to respond before the configured timeout (" +:+ pretty ms +:+ "ms)" ∧
  (timeout opts = None → ms = 15000%Z) ∧
  (∀ n, timeout opts = Some n → n ≠ 0%Z → ms = n).
Proof.
  intros s ms s2 Hex Hjson _ Hcalm.
  assert (wf s) as Hwf by apply wf_run, wf_init.
  assert (linear s) as Hl by (apply linear_run; [apply wf_init | apply linear_init]).
  destruct (executes_armed s key data content opts p t e Hwf Hl Hex Hjson) as (Htr & Hout).
  destruct (executes_ready s key data content opts p t e Hex Hjson) as (Ht & _).
  assert (timers (step s e) !! t =
            Some {| handler := RpcTimeout (Uuid_v4 (uuidCount s)) p ms; delay := ms |})
    as Harmed by (rewrite Ht; apply lookup_insert_eq).
  destruct (calm_run _ tr t _ p ms ms (wf_step _ _ Hwf) Htr Harmed Hcalm)
    as (_ & Harmed2 & Hout2).
  fold s2 in Harmed2, Hout2.
  destruct (timer_fires s2 t _ p ms ms Harmed2) as (_ & _ & Hs).
  split_and!.
  - by rewrite Hout2.
  - by rewrite Harmed2.
  - unfold outcomes at 1. rewrite Hs outcomes_app Hout2 Hout.
    rewrite filter_cons_True //.
  - done.
  - unfold ms, effective_timeout. by intros ->.
  - unfold ms, effective_timeout. intros n -> Hn.
    by destruct (Z.eqb_spec n 0).
Qed.

(** A message that matches no entry, and a timer that is not armed. *)
Lemma deliver_absent s m :
  (∀ id, correlationId m = Some id → unresolved s !! id = None) →
  step s (EvMessage m) = s.
Proof.
  intros Habsent. cbn [step]. unfold deliver, _handleReply.
  destruct (correlationId m) as [id|]; [|done].
  by rewrite (Habsent id eq_refl).
Qed.

Lemma fire_absent s t : timers s !! t = None → step s (EvTimer t) = s.
Proof. intros H. cbn [step]. unfold fire. by rewrite H. Qed.

(** ** Fresh correlation ids *)

Section Fresh.

(** [Uuid.v4()] never returns the same id twice. *)
Hypothesis Uuid_v4_fresh : Inj (=) (=) Uuid_v4.

Lemma next_id_unused s : fresh_ids s → unresolved s !! Uuid_v4 (uuidCount s) = None.
Proof.
  intros [_ Hu]. destruct (unresolved s !! Uuid_v4 (uuidCount s)) as [cb|] eqn:E; [|done].
  destruct (Hu _ _ E) as (n & Hn & Heq). apply Uuid_v4_fresh in Heq. lia.
Qed.

Lemma fresh_effect s e s' : wf s → fresh_ids s → effect s e s' → fresh_ids s'.
Proof.
  intros [Hlt Hpr Hcb Hmn Hst] Hfr Heff. pose proof (next_id_unused s Hfr) as Hunused.
  destruct Hfr as [Hft Hfu].
  destruct Heff as
    [Ht Hu Hs Hc Hn Hm | p t ms Ht Hu Hs Hc Hn Hn' Hp Hm _
    | t id p ms d _ Harmed Ht Hu Hs Hc Hn Hm | m id cb _ _ Hentry Ht Hu Hs Hc Hn Hm
    | t tm Hnone Ht Hu Hs Hc Hn Hm | t tm _ Harmed Hnone Ht Hu Hs Hc Hn Hm
    | p t key data opts _ _ Ht Hu Hs Hc Hn Hp Hm];
    [| | | | | |split; rewrite ?Ht ?Hu ?Hc //].
  - split; rewrite ?Ht ?Hu ?Hc //.
  - (* executor: the id is new *)
    split; rewrite ?Ht ?Hu ?Hc.
    + intros t' id' p' ms' d'. destruct (decide (t = t')) as [<-|Hne].
      * rewrite lookup_insert_eq. intros [= <- <- <- <-].
        eexists. by rewrite lookup_insert_eq.
      * rewrite lookup_insert_ne //. intros H.
        destruct (Hft _ _ _ _ _ H) as (cb & Hcb' & Htm).
        exists cb. split; [|done]. rewrite lookup_insert_ne //. congruence.
    + intros id' cb'. destruct (decide (Uuid_v4 (uuidCount s) = id')) as [<-|Hne].
      * intros _. exists (uuidCount s). split; [lia | done].
      * rewrite lookup_insert_ne //. intros H.
        destruct (Hfu _ _ H) as (n & Hn1 & Hn2). exists n. split; [lia | done].
  - (* the timeout of a call *)
    split; rewrite ?Ht ?Hu ?Hc.
    + intros t' id' p' ms' d' [Hne H]%lookup_delete_Some.
      destruct (Hft _ _ _ _ _ H) as (cb & Hcb' & Htm).
      exists cb. split; [|done]. rewrite lookup_delete_ne //. intros <-.
      destruct (Hft _ _ _ _ _ Harmed) as (cb0 & Hcb0 & Htm0). congruence.
    + intros id' cb' [_ H]%lookup_delete_Some. eauto.
  - (* a reply *)
    split; rewrite ?Ht ?Hu ?Hc.
    + intros t' id' p' ms' d' [Hne H]%lookup_delete_Some.
      destruct (Hft _ _ _ _ _ H) as (cb' & Hcb' & Htm).
      exists cb'. split; [|done]. rewrite lookup_delete_ne //. intros <-. congruence.
    + intros id' cb' [_ H]%lookup_delete_Some. eauto.
  - (* a retry timer is armed *)
    split; rewrite ?Ht ?Hu ?Hc //.
    intros t' id' p' ms' d'. destruct (decide (t = t')) as [<-|Hne].
    + rewrite lookup_insert_eq. intros [= ->]. done.
    + rewrite lookup_insert_ne //. apply Hft.
  - (* a retry timer fires *)
    split; rewrite ?Ht ?Hu ?Hc //.
    intros t' id' p' ms' d' [_ H]%lookup_delete_Some. eauto.
Qed.

Lemma fresh_run s tr : wf s → fresh_ids s → fresh_ids (run s tr).
Proof.
  revert s. induction tr as [|e tr IH]; intros s Hwf Hfr; [done|].
  apply IH; [by apply wf_step|]. eapply fresh_effect; [done | done | apply step_effect].
Qed.

Lemma fresh_init o exch : fresh_ids (init o exch).
Proof.
  split; unfold init, _connect; fields.
  - intros t id p ms d. by rewrite lookup_empty.
  - intros id cb. by rewrite lookup_empty.
Qed.

(** *** The registry and the race between reply and timeout *)

Lemma run_snoc s tr e : run s (tr ++ [e]) = step (run s tr) e.
Proof. unfold run. by rewrite foldl_app. Qed.

(** What one task can do to one entry of the registry. *)
Lemma entry_step s e id cb :
  wf s → fresh_ids s →
  unresolved s !! id = Some cb →
  (e ≠ EvTimer (cb_timer cb) ∧ (∀ m, e = EvMessage m → correlationId m ≠ Some id) ∧
   unresolved (step s e) !! id = Some cb) ∨
  ((e = EvTimer (cb_timer cb) ∨ ∃ m, e = EvMessage m ∧ correlationId m = Some id) ∧
   unresolved (step s e) !! id = None).
Proof.
  intros Hwf Hfr Hentry.
  destruct (wf_callback s Hwf id cb Hentry) as [ms Harmed].
  assert (e = EvTimer (cb_timer cb) ∨ e ≠ EvTimer (cb_timer cb)) as [->|Hnt].
  { destruct e as [| | | | | | | | | | t |]; try (by right).
    destruct (decide (t = cb_timer cb)) as [->|]; [by left | right; congruence]. }
  { right. split; [by left|].
    destruct (timer_fires s _ _ _ _ _ Harmed) as (_ & -> & _). apply lookup_delete_eq. }
  assert ((∀ m, e = EvMessage m → correlationId m ≠ Some id) ∨
          ∃ m, e = EvMessage m ∧ correlationId m = Some id) as [Hnm | (m & -> & Hid)].
  { destruct e as [| | | | | | | | | m | |]; try (left; by intros ?).
    destruct (decide (correlationId m = Some id)) as [E|E].
    - right. by exists m.
    - left. by intros ? [= <-]. }
  2: { right. split; [right; by exists m|].
       destruct (reply_arrives s m id cb Hid Hentry) as (_ & -> & _).
       apply lookup_delete_eq. }
  left. split_and!; [done..|].
  pose proof (next_id_unused s Hfr) as Hunused.
  destruct (step_effect s e) as
    [Ht Hu Hs Hc Hn Hm | p t ms' Ht Hu Hs Hc Hn Hn' Hp Hm _
    | t id' p ms' d He Harmed' Ht Hu Hs Hc Hn Hm | m id' cb' He Hid Hentry' Ht Hu Hs Hc Hn Hm
    | t tm Hnone Ht Hu Hs Hc Hn Hm | t tm _ Harmed' Hnone Ht Hu Hs Hc Hn Hm
    | p t key data opts _ _ Ht Hu Hs Hc Hn Hp Hm];
    rewrite Hu //.
  - rewrite lookup_insert_ne //. congruence.
  - rewrite lookup_delete_ne //. intros ->.
    destruct (fr_timer s Hfr _ _ _ _ _ Harmed') as (cb0 & Hcb0 & Htm0). congruence.
  - rewrite lookup_delete_ne //. intros ->. by eapply Hnm.
Qed.

(** An id that was generated and has left the registry does not come back. *)
Lemma id_stays_absent s e n :
  n < uuidCount s → unresolved s !! Uuid_v4 n = None →
  unresolved (step s e) !! Uuid_v4 n = None.
Proof.
  intros Hn Habs.
  destruct (step_effect s e) as
    [Ht Hu Hs Hc Hn' Hm | p t ms' Ht Hu Hs Hc Hn' Hn'' Hp Hm _
    | t id' p ms' d He Harmed' Ht Hu Hs Hc Hn' Hm | m id' cb' He Hid Hentry' Ht Hu Hs Hc Hn' Hm
    | t tm Hnone Ht Hu Hs Hc Hn' Hm | t tm _ Harmed' Hnone Ht Hu Hs Hc Hn' Hm
    | p t key data opts _ _ Ht Hu Hs Hc Hn' Hp Hm];
    rewrite Hu //.
  - rewrite lookup_insert_ne //. intros E%Uuid_v4_fresh. lia.
  - apply lookup_delete_None. by right.
  - apply lookup_delete_None. by right.
Qed.

End Fresh.

Lemma run_app s tr1 tr2 : run s (tr1 ++ tr2) = run (run s tr1) tr2.
Proof. unfold run. by rewrite foldl_app. Qed.

(** The first reply or timeout of an armed call ends it: afterwards no
    timer is left for its promise. *)
Lemma disarmed s e t p tm :
  wf s → tracked (Some t) p s →
  timers s !! t = Some tm → timer_promise tm = Some p →
  timers (step s e) !! t = None →
  tracked None p (step s e).
Proof.
  intros Hwf Htr Harmed Hp Hgone.
  destruct (tracked_effect s e _ _ p Hwf Htr (step_effect s e))
    as [(_ & _ & Hkeep) | (_ & _ & _ & _ & _ & _ & Hnone & _)]; [|done].
  rewrite (Hkeep _ _ Harmed Hp) in Hgone. done.
Qed.

(** ** Calls issued before the channel exists *)

Lemma defer_waiting s d ws ds :
  waiting_on (promises s) (next s) (channelPromise s) ws ds →
  ∃ P, defer d s = set_next (S (next s)) (set_promises P s) ∧
       waiting_on P (S (next s)) (channelPromise s) (ws ++ [next s]) (ds ++ [d]).
Proof.
  intros (Hcp & Hws & Hnd & Hnin & Hlt).
  assert (channelPromise s ≠ next s) as Hne.
  { intros E. assert (channelPromise s < next s) by (apply Hlt; eauto). lia. }
  assert (∀ w, w ∈ ws → w < next s) as Hws_lt.
  { intros w [i Hi]%list_elem_of_lookup.
    destruct (Forall2_lookup_l _ _ _ i _ Hws Hi) as (d' & _ & Hd').
    apply Hlt; eauto. }
  assert (next s ∉ ws) as Hfresh.
  { intros Hin%Hws_lt. lia. }
  unfold defer, _waitForChannel. fields. unfold then_ at 2. fields.
  rewrite lookup_insert_ne // Hcp. cbn [status reactions]. fields.
  unfold then_. fields. rewrite lookup_insert_ne // lookup_insert_eq.
  cbn [status reactions app]. fields.
  eexists. split; [reflexivity|]. split_and!.
  - rewrite lookup_insert_ne // lookup_insert_eq. by rewrite fmap_app.
  - apply Forall2_app.
    + apply Forall2_same_length_lookup. split; [by eapply Forall2_length|].
      intros i w d' Hw Hd'.
      pose proof (Forall2_lookup_lr _ _ _ _ _ _ Hws Hw Hd') as Hwd. cbn beta in Hwd.
      assert (w ∈ ws) as Hin by (apply list_elem_of_lookup; eauto).
      pose proof (Hws_lt w Hin).
      rewrite !lookup_insert_ne //; [lia | | lia].
      intros E. by rewrite -E in Hin.
    + constructor; [|constructor]. by rewrite lookup_insert_eq.
  - apply NoDup_app. split_and!; [done | | apply NoDup_singleton].
    intros w Hw E%list_elem_of_singleton. by rewrite E in Hw.
  - intros [H | E%list_elem_of_singleton]%elem_of_app; done.
  - intros k [P Hk]. destruct (decide (k = next s)) as [->|]; [lia|].
    rewrite lookup_insert_ne // in Hk.
    destruct (decide (k = channelPromise s)) as [->|].
    + assert (channelPromise s < next s) by (apply Hlt; eauto). lia.
    + rewrite !lookup_insert_ne // in Hk. assert (k < next s) by (apply Hlt; eauto). lia.
Qed.

Lemma waiting_on_weaken P n n' cp ws ds :
  n ≤ n' → waiting_on P n cp ws ds → waiting_on P n' cp ws ds.
Proof.
  intros Hn (H1 & H2 & H3 & H4 & H5). split_and!; try done.
  intros k Hk. specialize (H5 k Hk). lia.
Qed.

Lemma call_deferred s e ws ds :
  channel s = None → is_call e →
  waiting_on (promises s) (next s) (channelPromise s) ws ds →
  ∃ P n w d, step s e = set_next n (set_promises P s) ∧
             (∀ rest, deferred s (e :: rest) = d :: deferred (step s e) rest) ∧
             waiting_on P n (channelPromise s) (ws ++ [w]) (ds ++ [d]).
Proof.
  intros Hch Hcall Hw.
  destruct e as [key data opts | key data opts | queueName callback opts
                | | | | | | | | | ]; try done; cbn [step deferred app].
  - unfold call_rpcExec, rpcExec.
    change (channel (set_next (S (next s)) s)) with (channel s). rewrite Hch.
    destruct (defer_waiting (set_next (S (next s)) s) (DRpcExec key data opts (next s)) ws ds)
      as (P & -> & HP).
    { fields. eapply waiting_on_weaken; [|done]. lia. }
    by eexists P, _, _, _.
  - unfold publish. rewrite Hch. cbn [finish].
    destruct (defer_waiting s (DPublish key data opts) ws ds Hw) as (P & -> & HP).
    by eexists P, _, _, _.
  - unfold consume. rewrite Hch.
    destruct (defer_waiting s (DConsume queueName callback opts) ws ds Hw) as (P & -> & HP).
    by eexists P, _, _, _.
Qed.

Lemma calls_deferred calls s ws ds :
  channel s = None → Forall is_call calls →
  waiting_on (promises s) (next s) (channelPromise s) ws ds →
  ∃ P n ws', run s calls = set_next n (set_promises P s) ∧
             waiting_on P n (channelPromise s) (ws ++ ws') (ds ++ deferred s calls).
Proof.
  revert s ws ds. induction calls as [|e calls IH]; intros s ws ds Hch Hcalls Hw.
  { exists (promises s), (next s), []. rewrite !app_nil_r. split; [by destruct s | done]. }
  apply Forall_cons in Hcalls as [Hcall Hcalls].
  destruct (call_deferred s e ws ds Hch Hcall Hw) as (P & n & w & d & Hstep & Hd & HP).
  cbn [run foldl]. fold (run (step s e) calls). rewrite Hd Hstep.
  destruct (IH (set_next n (set_promises P s)) (ws ++ [w]) (ds ++ [d]))
    as (P' & n' & ws' & -> & HP'); [done | done | done |].
  exists P', n', (w :: ws'). split; [done|].
  by rewrite -!app_assoc in HP'.
Qed.

(** *** Draining the job queue *)

(** The jobs that resolve the waiting promises queue the retries, in the
    same order. *)
Lemma run_resolves ws ds s acc :
  Forall2 (λ w d, promises s !! w = Some {| status := Pending; reactions := [RRetry d] |})
    ws ds →
  NoDup ws →
  microtasks s = (RResolve <$> ws) ++ acc →
  ∃ P, run s (replicate (length ws) EvJob) =
         set_microtasks (acc ++ (RRetry <$> ds)) (set_promises P s).
Proof.
  revert ds s acc. induction ws as [|w ws IH]; intros ds s acc Hws Hnd Hjobs.
  { apply Forall2_nil_inv_l in Hws as ->.
    exists (promises s). cbn in *. rewrite app_nil_r -Hjobs. by destruct s. }
  apply Forall2_cons_inv_l in Hws as (d & ds' & Hw & Hws & ->).
  apply NoDup_cons in Hnd as [Hnin Hnd].
  cbn [length replicate run foldl step]. unfold run_job. rewrite Hjobs.
  cbn [fmap list_fmap app]. unfold fulfil. fields. rewrite Hw. cbn [status reactions]. fields.
  match goal with |- context [foldl _ ?s0 _] =>
    destruct (IH ds' s0 (acc ++ [RRetry d])) as [P HP] end.
  - fields. apply Forall2_same_length_lookup. split; [by eapply Forall2_length|].
    intros i w' d' Hi Hd'.
    pose proof (Forall2_lookup_lr _ _ _ _ _ _ Hws Hi Hd') as Hwd. cbn beta in Hwd.
    rewrite lookup_insert_ne //. intros ->. apply Hnin, list_elem_of_lookup. eauto.
  - done.
  - fields. by rewrite -app_assoc.
  - exists P. unfold run in HP. rewrite HP. fields. by rewrite -app_assoc.
Qed.

Lemma invoke_ready_microtasks ch d M s :
  invoke_ready ch d (set_microtasks M s) = set_microtasks M (invoke_ready ch d s).
Proof.
  destruct d as [key data opts p | key data opts | queueName callback opts];
    cbn [invoke_ready]; unfold rpcExec_ready, publish_ready, consume_ready;
    try destruct (JSON_stringify data); by fields.
Qed.

Lemma invoke_ready_frame ch d s :
  channel (invoke_ready ch d s) = channel s ∧
  microtasks (invoke_ready ch d s) = microtasks s.
Proof.
  destruct d as [key data opts p | key data opts | queueName callback opts];
    cbn [invoke_ready]; unfold rpcExec_ready, publish_ready, consume_ready;
    try destruct (JSON_stringify data); by fields.
Qed.

(** On a ready channel the retries run the deferred calls, in order. *)
Lemma run_retries ch ds s :
  channel s = Some ch →
  microtasks s = RRetry <$> ds →
  run s (replicate (length ds) EvJob) =
    foldl (λ s d, invoke_ready ch d s) (set_microtasks [] s) ds.
Proof.
  revert s. induction ds as [|d ds IH]; intros s Hch Hjobs.
  { cbn in *. rewrite -Hjobs. by destruct s. }
  cbn [length replicate run foldl step]. unfold run_job. rewrite Hjobs.
  cbn [fmap list_fmap].
  assert (invoke d (set_microtasks (RRetry <$> ds) s) =
          invoke_ready ch d (set_microtasks (RRetry <$> ds) s)) as ->.
  { destruct d; cbn [invoke invoke_ready]; unfold rpcExec, publish, consume;
      fields; by rewrite Hch. }
  destruct (invoke_ready_frame ch d (set_microtasks (RRetry <$> ds) s)) as [E1 E2].
  fold (run (invoke_ready ch d (set_microtasks (RRetry <$> ds) s)) (replicate (length ds) EvJob)).
  rewrite IH.
  - by rewrite E1.
  - by rewrite E2.
  - by rewrite !invoke_ready_microtasks.
Qed.

Lemma deferred_app s tr1 tr2 :
  deferred s (tr1 ++ tr2) = deferred s tr1 ++ deferred (run s tr1) tr2.
Proof.
  revert s. induction tr1 as [|e tr1 IH]; intros s; [done|].
  cbn [app deferred run foldl]. fold (run (step s e) tr1). by rewrite IH app_assoc.
Qed.

Lemma deferred_length s calls :
  Forall is_call calls → length (deferred s calls) = length calls.
Proof.
  revert s. induction calls as [|e calls IH]; intros s Hcalls; [done|].
  apply Forall_cons in Hcalls as [Hcall Hcalls].
  cbn [deferred]. rewrite length_app IH //. by destruct e.
Qed.

Lemma init_state o exch :
  init o exch =
    mkState (merge_connection_options o) exch 0 None None ∅
      {[ 0 := {| status := Pending; reactions := [] |} ]} [] ∅
      {[ 1 := ConnectTask 0 1 AwaitConnect ]} ∅ 2 0 [OpConnect] [] [].
Proof. done. Qed.

(** X14. The deferral when the attempt succeeds.  Calls of [rpcExec],
    [publish] and [consume] made after the constructor and before the
    first connection attempt has created its channel are deferred: while
    they wait nothing is published, nothing is settled and nothing is
    thrown.  When that attempt completes its setup, the job queue runs
    every deferred call on the channel, in the order the calls were made:
    after two jobs per call the state is the one reached by running the
    ready branch of each call in turn. *)
Theorem deferred_calls_run_in_order (o : UserConnectionOptions) (exch : string)
    (calls1 calls2 : list Event) (connection ch : nat) (queue : string) :
  Forall is_call calls1 → Forall is_call calls2 →
  let tr := calls1 ++ EvConnected 1 connection :: calls2 in
  let waiting := run (init o exch) tr in
  let ds := deferred (init o exch) tr in
  let ready :=
    run waiting [EvChannelCreated 1 ch; EvQueueAsserted 1 queue; EvQueueBound 1] in
  (length ds = length calls1 + length calls2 ∧
   sent waiting = [OpConnect; OpCreateChannel connection] ∧
   settlements waiting = [] ∧ uncaught waiting = []) ∧
  (channel ready = Some ch ∧
   sent ready =
     [OpConnect; OpCreateChannel connection; OpAssertQueue ch "" true;
      OpBindQueue ch queue exch queue;
      OpConsume ch (Some queue) ReplyConsumer DEFAULT_CONSUME_OPTIONS]) ∧
  ∃ P, run ready (replicate (2 * length ds) EvJob) =
         foldl (λ s d, invoke_ready ch d s) (set_microtasks [] (set_promises P ready)) ds.
Proof.
  intros Hcalls1 Hcalls2 tr waiting ds ready.
  assert (ready =
    run waiting [EvChannelCreated 1 ch; EvQueueAsserted 1 queue; EvQueueBound 1])
    as Hready0 by done.
  clearbody ready.
  (* the calls made before the connection is there *)
  destruct (calls_deferred calls1 (init o exch) [] []) as (P1 & n1 & ws1 & Hrun1 & Hw1);
    [done | done | |].
  { rewrite init_state. fields. split_and!.
    - by rewrite lookup_singleton_eq.
    - constructor.
    - constructor.
    - by intros ?%elem_of_nil.
    - intros k [P [<- _]%lookup_singleton_Some]. lia. }
  cbn [app] in Hw1. rewrite init_state in Hrun1 Hw1. fields in Hrun1. fields in Hw1.
  (* the connection is made *)
  set (s_b := step (run (init o exch) calls1) (EvConnected 1 connection)).
  assert (s_b =
    mkState (merge_connection_options o) exch 0 None None ∅ P1 [] ∅
      (<[1 := ConnectTask 0 1 (AwaitCreateChannel connection)]>
         {[ 1 := ConnectTask 0 1 AwaitConnect ]}) ∅ n1 0
      [OpConnect; OpCreateChannel connection] [] []) as Hb.
  { unfold s_b. rewrite Hrun1. cbn [step]. unfold connected. fields.
    by rewrite lookup_singleton_eq. }
  assert (ds = deferred (init o exch) calls1 ++ deferred s_b calls2) as Hds.
  { unfold ds, tr. rewrite deferred_app. done. }
  assert (waiting = run s_b calls2) as Hwaiting.
  { unfold waiting, tr. rewrite run_app. done. }
  clearbody waiting ds s_b. subst s_b waiting.
  (* the calls made before the channel is there *)
  match goal with |- context [run ?s0 calls2] =>
    destruct (calls_deferred calls2 s0 ws1 (deferred (init o exch) calls1))
      as (P2 & n2 & ws2 & Hrun2 & Hw2); [done | done | done |] end.
  rewrite Hrun2 in Hready0 |- *. clear Hrun2. fields in Hw2. fields in Hready0. fields.
  destruct Hw2 as (Hcp & Hws & Hnd & Hnin & Hlt). rewrite -Hds in Hws.
  pose proof (Forall2_length _ _ _ Hws) as Hlen.
  (* the channel is set up *)
  assert (∃ L, ready =
    mkState (merge_connection_options o) exch 0 (Some ch) (Some queue) ∅
      (<[0 := {| status := Fulfilled; reactions := [] |}]> P2)
      (RResolve <$> (ws1 ++ ws2)) ∅
      (delete 1 (<[1 := ConnectTask 0 1 AwaitBindQueue]>
         (<[1 := ConnectTask 0 1 AwaitAssertQueue]>
            (<[1 := ConnectTask 0 1 (AwaitCreateChannel connection)]>
               {[ 1 := ConnectTask 0 1 AwaitConnect ]})))) L n2 0
      [OpConnect; OpCreateChannel connection; OpAssertQueue ch "" true;
       OpBindQueue ch queue exch queue;
       OpConsume ch (Some queue) ReplyConsumer DEFAULT_CONSUME_OPTIONS] [] []) as [L Hready].
  { rewrite Hready0. cbn [run foldl step]. unfold channel_created. fields.
    rewrite lookup_insert_eq. fields.
    destruct (1 <? maxConnectionAttempts (merge_connection_options o))%Z;
      unfold queue_asserted; fields; rewrite lookup_insert_eq; fields;
      unfold queue_bound; fields; rewrite lookup_insert_eq; fields;
      unfold fulfil; fields; rewrite Hcp; cbn [status reactions]; fields;
      eexists; reflexivity. }
  clear Hready0. subst ready.
  split_and!; fields; try done.
  - rewrite Hds length_app !deferred_length //.
  - (* the jobs *)
    replace (2 * length ds) with (length (ws1 ++ ws2) + length ds) by lia.
    rewrite replicate_add run_app.
    match goal with |- context [run ?s0 (replicate (length (ws1 ++ ws2)) EvJob)] =>
      destruct (run_resolves (ws1 ++ ws2) ds s0 []) as [P ->] end.
    + fields. apply Forall2_same_length_lookup. split; [done|].
      intros i w d Hi Hd.
      pose proof (Forall2_lookup_lr _ _ _ _ _ _ Hws Hi Hd) as Hwd. cbn beta in Hwd.
      rewrite lookup_insert_ne //. intros <-. apply Hnin, list_elem_of_lookup. eauto.
    + done.
    + fields. by rewrite app_nil_r.
    + exists P. rewrite (run_retries ch ds); [done | done |]. done.
Qed.

(** ** When the last connection attempt fails *)

Lemma defer_rejected d s P :
  promises s !! channelPromise s = Some P → status P = Rejected →
  channelPromise s < next s →
  ∃ P', defer d s = set_next (S (next s)) (set_promises P' s) ∧
        P' !! channelPromise s = Some P.
Proof.
  intros HP HR Hlt.
  unfold defer, _waitForChannel. fields. unfold then_ at 2. fields.
  rewrite lookup_insert_ne; [lia|]. rewrite HP HR.
  unfold then_. fields. rewrite lookup_insert_eq. cbn [status]. fields.
  eexists. split; [reflexivity|].
  rewrite !lookup_insert_ne; [lia | lia | done].
Qed.

Lemma stranded_defer d s :
  stranded s →
  stranded (defer d s) ∧ settlements (defer d s) = settlements s ∧
  sent (defer d s) = sent s.
Proof.
  intros [Hch (P & HP & HR) Hlt Hta Hti Hli Hjo Hun].
  destruct (defer_rejected d s P HP HR Hlt) as (P' & -> & HP').
  split; [split|done]; fields; try done.
  - by exists P.
  - lia.
Qed.

Lemma stranded_step s e :
  stranded s →
  stranded (step s e) ∧ settlements (step s e) = settlements s ∧
  sent (step s e) = sent s.
Proof.
  intros Hst. pose proof Hst as [Hch (P & HP & HR) Hlt Hta Hti Hli Hjo Hun].
  destruct e as [key data opts | key data opts | queueName callback opts
                | t connection | t ch | t queue | t | t | ch | message | t | ];
    cbn [step].
  - unfold call_rpcExec, rpcExec.
    change (channel (set_next (S (next s)) s)) with (channel s). rewrite Hch.
    destruct (stranded_defer (DRpcExec key data opts (next s)) (set_next (S (next s)) s))
      as (H1 & H2 & H3).
    { split; fields; try done; [by exists P | lia]. }
    done.
  - unfold publish. rewrite Hch. cbn [finish]. by apply stranded_defer.
  - unfold consume. rewrite Hch. by apply stranded_defer.
  - unfold connected. by rewrite Hta lookup_empty.
  - unfold channel_created. by rewrite Hta lookup_empty.
  - unfold queue_asserted. by rewrite Hta lookup_empty.
  - unfold queue_bound. by rewrite Hta lookup_empty.
  - unfold transport_failed. by rewrite Hta lookup_empty.
  - unfold channel_error. rewrite Hli lookup_empty.
    split_and!; [split; fields; try done; by exists P | done | done].
  - change (deliver message s) with (step s (EvMessage message)).
    rewrite (deliver_absent s message) //. intros id _. by rewrite Hun lookup_empty.
  - change (fire t s) with (step s (EvTimer t)).
    rewrite (fire_absent s t) //. by rewrite Hti lookup_empty.
  - unfold run_job. by rewrite Hjo.
Qed.

(** Whatever happens next, a stranded client settles no promise and makes
    no call on the transport: the calls that wait stay deferred. *)
Lemma stranded_forever s tr :
  stranded s →
  settlements (run s tr) = settlements s ∧ sent (run s tr) = sent s.
Proof.
  revert s. induction tr as [|e tr IH]; intros s Hst; [done|].
  destruct (stranded_step s e Hst) as (H1 & H2 & H3).
  cbn [run foldl]. fold (run (step s e) tr).
  destruct (IH _ H1) as [-> ->]. done.
Qed.

(** ** A deferred call whose connection attempt failed *)

Lemma shelved_then w d q r s :
  shelved w d s → q ≠ w → r ≠ RResolve w → shelved w d (then_ q r s).
Proof.
  intros [Hp Hh Hc Hj Hr Hta Hti] Hq Hrr. unfold then_.
  destruct (promises s !! q) as [Q|] eqn:HQ; [destruct (status Q) eqn:HS|]; try done.
  - split; fields; try done.
    + by rewrite lookup_insert_ne.
    + intros q' Q'. destruct (decide (q = q')) as [<-|Hne].
      * rewrite lookup_insert_eq. intros [= <-]. cbn [reactions].
        intros [H | H%list_elem_of_singleton]%elem_of_app; [by eapply Hr | done].
      * rewrite lookup_insert_ne //. apply Hr.
  - split; fields; try done.
    intros [H | H%list_elem_of_singleton]%elem_of_app; done.
Qed.

Lemma shelved_fulfil w d q s : shelved w d s → q ≠ w → shelved w d (fulfil q s).
Proof.
  intros [Hp Hh Hc Hj Hr Hta Hti] Hq. unfold fulfil.
  destruct (promises s !! q) as [Q|] eqn:HQ; [destruct (status Q) eqn:HS|]; try done.
  split; fields; try done.
  - by rewrite lookup_insert_ne.
  - intros [H | H]%elem_of_app; [done | by eapply Hr].
  - intros q' Q'. destruct (decide (q = q')) as [<-|Hne].
    + rewrite lookup_insert_eq. intros [= <-]. cbn [reactions]. by intros ?%elem_of_nil.
    + rewrite lookup_insert_ne //. apply Hr.
Qed.

Lemma shelved_reject_promise w d q s :
  shelved w d s → q ≠ w → shelved w d (reject_promise q s).
Proof.
  intros [Hp Hh Hc Hj Hr Hta Hti] Hq. unfold reject_promise.
  destruct (promises s !! q) as [Q|] eqn:HQ; [destruct (status Q) eqn:HS|]; try done.
  split; fields; try done.
  - by rewrite lookup_insert_ne.
  - intros q' Q'. destruct (decide (q = q')) as [<-|Hne].
    + rewrite lookup_insert_eq. intros [= <-]. cbn [reactions]. by intros ?%elem_of_nil.
    + rewrite lookup_insert_ne //. apply Hr.
Qed.

Lemma shelved_new_promise w d s : shelved w d s → shelved w d (new_promise s).2.
Proof.
  intros [Hp Hh Hc Hj Hr Hta Hti]. split; fields; try done.
  - rewrite lookup_insert_ne //. lia.
  - lia.
  - intros q' Q'. destruct (decide (next s = q')) as [<-|Hne].
    + rewrite lookup_insert_eq. intros [= <-]. cbn [reactions]. by intros ?%elem_of_nil.
    + rewrite lookup_insert_ne //. apply Hr.
Qed.

Lemma shelved_defer w d d' s : shelved w d s → shelved w d (defer d' s).
Proof.
  intros Hsh. pose proof (sh_handle w d s Hsh) as Hh.
  pose proof (sh_channelPromise w d s Hsh) as Hc.
  unfold defer, _waitForChannel.
  destruct (new_promise s) as [w' s1] eqn:Hnew.
  assert (w' = next s ∧ s1 = (new_promise s).2) as [-> ->] by (by injection Hnew as <- <-).
  apply shelved_then; [apply shelved_then| |]; try done.
  - by apply shelved_new_promise.
  - intros [= E]. lia.
  - lia.
Qed.

Lemma shelved_invoke w d d' s : shelved w d s → shelved w d (invoke d' s).
Proof.
  intros Hsh. pose proof Hsh as [Hp Hh Hc Hj Hr Hta Hti].
  destruct d' as [key data opts p | key data opts | queueName callback opts];
    cbn [invoke].
  - unfold rpcExec. destruct (channel s) as [ch|]; [|by apply shelved_defer].
    unfold rpcExec_ready. destruct (JSON_stringify data); fields; [|by split; fields].
    split; fields; try done; [lia|].
    intros t p' a dl [[_ [=]] | [_ Hl]]%lookup_insert_Some. by eapply Hti.
  - unfold publish. destruct (channel s) as [ch|]; [|by apply shelved_defer].
    unfold publish_ready. destruct (JSON_stringify data); by split; fields.
  - unfold consume. destruct (channel s) as [ch|]; [|by apply shelved_defer].
    unfold consume_ready. split; fields; try done; [lia|].
    intros t p a ph [[_ [=]] | [_ Hl]]%lookup_insert_Some. by eapply Hta.
Qed.

Lemma shelved_step w d s e : shelved w d s → shelved w d (step s e).
Proof.
  intros Hsh. pose proof Hsh as [Hp Hh Hc Hj Hr Hta Hti].
  destruct e as [key data opts | key data opts | queueName callback opts
                | t connection | t ch | t queue | t | t | ch | message | t | ];
    cbn [step].
  - unfold call_rpcExec, rpcExec.
    change (channel (set_next (S (next s)) s)) with (channel s).
    destruct (channel s) as [ch|].
    + unfold rpcExec_ready. destruct (JSON_stringify data); fields.
      * split; fields; try done; [lia|].
        intros t p a dl [[_ [=]] | [_ Hl]]%lookup_insert_Some. by eapply Hti.
      * split; fields; try done. lia.
    + apply shelved_defer. split; fields; try done. lia.
  - by apply (shelved_invoke w d (DPublish key data opts)).
  - unfold consume. destruct (channel s) as [ch|]; [|by apply shelved_defer].
    unfold consume_ready. split; fields; try done; [lia|].
    intros t p a ph [[_ [=]] | [_ Hl]]%lookup_insert_Some. by eapply Hta.
  - unfold connected.
    destruct (tasks s !! t) as [[p a [| | |] | ]|] eqn:Htask; try done.
    split; fields; try done.
    intros t' p' a' ph [[_ [= <- _ _]] | [_ Hl]]%lookup_insert_Some; by eapply Hta.
  - unfold channel_created.
    destruct (tasks s !! t) as [[p a [| connection | |] | ]|] eqn:Htask; try done.
    fields. case_match; (split; fields; try done);
      intros t' p' a' ph [[_ [= <- _ _]] | [_ Hl]]%lookup_insert_Some; by eapply Hta.
  - unfold queue_asserted.
    destruct (tasks s !! t) as [[p a [| | |] | q c o []]|] eqn:Htask; try done;
      fields; destruct (channel s) as [ch|].
    + split; fields; try done.
      intros t' p' a' ph [[_ [= <- _ _]] | [_ Hl]]%lookup_insert_Some; by eapply Hta.
    + apply shelved_reject_promise; [|by eapply Hta].
      split; fields; try done. intros t' p' a' ph [_ Hl]%lookup_delete_Some. by eapply Hta.
    + split; fields; try done.
      intros t' p' a' ph [[_ [=]] | [_ Hl]]%lookup_insert_Some; by eapply Hta.
    + split; fields; try done. intros t' p' a' ph [_ Hl]%lookup_delete_Some. by eapply Hta.
  - unfold queue_bound.
    destruct (tasks s !! t) as [[p a [| | |] | q c o []]|] eqn:Htask; try done;
      fields; destruct (channel s) as [ch|].
    + apply shelved_fulfil; [|by eapply Hta].
      split; fields; try done. intros t' p' a' ph [_ Hl]%lookup_delete_Some. by eapply Hta.
    + apply shelved_reject_promise; [|by eapply Hta].
      split; fields; try done. intros t' p' a' ph [_ Hl]%lookup_delete_Some. by eapply Hta.
    + split; fields; try done. intros t' p' a' ph [_ Hl]%lookup_delete_Some. by eapply Hta.
    + split; fields; try done. intros t' p' a' ph [_ Hl]%lookup_delete_Some. by eapply Hta.
  - unfold transport_failed.
    destruct (tasks s !! t) as [[p a ph | q c o ph]|] eqn:Htask; try done.
    + apply shelved_reject_promise; [|by eapply Hta].
      split; fields; try done. intros t' p' a' ph' [_ Hl]%lookup_delete_Some. by eapply Hta.
    + split; fields; try done. intros t' p' a' ph' [_ Hl]%lookup_delete_Some. by eapply Hta.
  - unfold channel_error. destruct (listeners s !! ch) as [l|]; [|by split; fields].
    unfold on_channel_error. split; fields; try done.
    + rewrite lookup_insert_ne //. lia.
    + lia.
    + lia.
    + intros q' Q'. destruct (decide (next s = q')) as [<-|Hne].
      * rewrite lookup_insert_eq. intros [= <-]. cbn [reactions]. by intros ?%elem_of_nil.
      * rewrite lookup_insert_ne //. apply Hr.
    + intros t p a dl [[_ [= <- _ _]] | [_ Hl]]%lookup_insert_Some; [lia | by eapply Hti].
  - unfold deliver, _handleReply.
    destruct (correlationId message) as [id|]; [|done].
    destruct (unresolved s !! id) as [cb|]; [|done].
    match goal with |- context [reply_callback ?c ?m ?s0] =>
      pose proof (reply_callback_outcome c m s0) as E;
      destruct (reply_callback c m s0) as [s1 [err|]] end;
      cbn [fst] in E; subst s1; (split; fields; try done);
      intros t p a dl [_ Hl]%lookup_delete_Some; by eapply Hti.
  - unfold fire. destruct (timers s !! t) as [[h dl]|] eqn:Ht; [|done].
    destruct h as [id p ms | p attempts]; cbn [handler].
    + unfold rpc_timeout. split; fields; try done.
      intros t' p' a dl' [_ Hl]%lookup_delete_Some; by eapply Hti.
    + unfold _connect. split; fields; try done; [lia | |].
      * intros t' p' a ph [[_ [= <- _ _]] | [_ Hl]]%lookup_insert_Some;
          [by eapply Hti | by eapply Hta].
      * intros t' p' a dl' [_ Hl]%lookup_delete_Some; by eapply Hti.
  - unfold run_job. destruct (microtasks s) as [|r rest] eqn:Hjobs; [done|].
    assert (shelved w d (set_microtasks rest s)) as Hsh'.
    { split; fields; try done. intros H. apply Hj. by right. }
    destruct r as [w' | d'].
    + apply shelved_fulfil; [done|]. intros ->. apply Hj. by left.
    + by apply shelved_invoke.
Qed.

(** The retry of a shelved call stays where it is: it never runs. *)
Lemma shelved_forever w d s tr : shelved w d s → shelved w d (run s tr).
Proof.
  revert s. induction tr as [|e tr IH]; intros s Hsh; [done|].
  apply IH, shelved_step, Hsh.
Qed.

Lemma orphaned_then p w q r s :
  orphaned p w s → reaction_promise r ≠ Some p → orphaned p w (then_ q r s).
Proof.
  intros [Hh Hti Hun Hj Hr] Hrp. unfold then_.
  destruct (promises s !! q) as [Q|] eqn:HQ; [destruct (status Q) eqn:HS|]; try done.
  - split; fields; try done.
    intros q' Q' r'. destruct (decide (q = q')) as [<-|Hne].
    + rewrite lookup_insert_eq. intros [= <-]. cbn [reactions].
      intros [H | ->%list_elem_of_singleton]%elem_of_app; [by eapply Hr | done].
    + rewrite lookup_insert_ne //. apply Hr.
  - split; fields; try done.
    intros r' [H | ->%list_elem_of_singleton]%elem_of_app; [by apply Hj | done].
Qed.

Lemma orphaned_fulfil p w q s : orphaned p w s → q ≠ w → orphaned p w (fulfil q s).
Proof.
  intros [Hh Hti Hun Hj Hr] Hq. unfold fulfil.
  destruct (promises s !! q) as [Q|] eqn:HQ; [destruct (status Q) eqn:HS|]; try done.
  split; fields; try done.
  - intros r [H | H]%elem_of_app; [by apply Hj|].
    intros Hrp. by apply Hq, (Hr q Q r).
  - intros q' Q' r. destruct (decide (q = q')) as [<-|Hne].
    + rewrite lookup_insert_eq. intros [= <-]. cbn [reactions]. by intros ?%elem_of_nil.
    + rewrite lookup_insert_ne //. apply Hr.
Qed.

Lemma orphaned_reject_promise p w q s : orphaned p w s → orphaned p w (reject_promise q s).
Proof.
  intros [Hh Hti Hun Hj Hr]. unfold reject_promise.
  destruct (promises s !! q) as [Q|] eqn:HQ; [destruct (status Q) eqn:HS|]; try done.
  split; fields; try done.
  intros q' Q' r. destruct (decide (q = q')) as [<-|Hne].
  - rewrite lookup_insert_eq. intros [= <-]. cbn [reactions]. by intros ?%elem_of_nil.
  - rewrite lookup_insert_ne //. apply Hr.
Qed.

Lemma orphaned_new_promise p w s : orphaned p w s → orphaned p w (new_promise s).2.
Proof.
  intros [Hh Hti Hun Hj Hr]. split; fields; try done; [lia|].
  intros q' Q' r. destruct (decide (next s = q')) as [<-|Hne].
  - rewrite lookup_insert_eq. intros [= <-]. cbn [reactions]. by intros ?%elem_of_nil.
  - rewrite lookup_insert_ne //. apply Hr.
Qed.

Lemma orphaned_defer p w d' s :
  orphaned p w s → reaction_promise (RRetry d') ≠ Some p → orphaned p w (defer d' s).
Proof.
  intros Hor Hd. unfold defer, _waitForChannel.
  destruct (new_promise s) as [w' s1] eqn:Hnew.
  assert (w' = next s ∧ s1 = (new_promise s).2) as [-> ->] by (by injection Hnew as <- <-).
  apply orphaned_then; [apply orphaned_then|]; try done.
  by apply orphaned_new_promise.
Qed.

Lemma orphaned_invoke p w d' s :
  orphaned p w s → reaction_promise (RRetry d') ≠ Some p → orphaned p w (invoke d' s).
Proof.
  intros Hor Hd. pose proof Hor as [Hh Hti Hun Hj Hr].
  destruct d' as [key data opts p' | key data opts | queueName callback opts];
    cbn [invoke].
  - unfold rpcExec. destruct (channel s) as [ch|]; [|by apply orphaned_defer].
    unfold rpcExec_ready. destruct (JSON_stringify data); fields; [|by split; fields].
    split; fields; try done; [lia | |].
    + intros t tm [[_ <-] | [_ Hl]]%lookup_insert_Some; [exact Hd | by eapply Hti].
    + intros id cb [[_ <-] | [_ Hl]]%lookup_insert_Some; [|by eapply Hun].
      cbn [cb_promise]. intros ->. by apply Hd.
  - unfold publish. destruct (channel s) as [ch|]; [|by apply orphaned_defer].
    unfold publish_ready. destruct (JSON_stringify data); by split; fields.
  - unfold consume. destruct (channel s) as [ch|]; [|by apply orphaned_defer].
    unfold consume_ready. split; fields; try done. lia.
Qed.

Lemma orphaned_step p w d s e :
  shelved w d s → orphaned p w s → orphaned p w (step s e).
Proof.
  intros Hsh Hor. pose proof Hor as [Hh Hti Hun Hj Hr].
  destruct e as [key data opts | key data opts | queueName callback opts
                | t connection | t ch | t queue | t | t | ch | message | t | ];
    cbn [step].
  - unfold call_rpcExec.
    change (rpcExec (next s) key data opts (set_next (S (next s)) s))
      with (invoke (DRpcExec key data opts (next s)) (set_next (S (next s)) s)).
    apply orphaned_invoke.
    + split; fields; try done. lia.
    + cbn [reaction_promise]. intros [= E]. lia.
  - by apply (orphaned_invoke p w (DPublish key data opts)).
  - by apply (orphaned_invoke p w (DConsume queueName callback opts)).
  - unfold connected.
    by destruct (tasks s !! t) as [[p' a [| | |] | ]|] eqn:Htask.
  - unfold channel_created.
    destruct (tasks s !! t) as [[p' a [| connection | |] | ]|] eqn:Htask; try done.
    fields. by case_match; split; fields.
  - unfold queue_asserted.
    destruct (tasks s !! t) as [[p' a [| | |] | q c o []]|] eqn:Htask; try done;
      fields; destruct (channel s) as [ch|]; try (by split; fields).
    apply orphaned_reject_promise. by split; fields.
  - unfold queue_bound.
    destruct (tasks s !! t) as [[p' a [| | |] | q c o []]|] eqn:Htask; try done;
      fields; destruct (channel s) as [ch|]; try (by split; fields).
    + apply orphaned_fulfil; [by split; fields|]. by eapply (sh_tasks w d s Hsh).
    + apply orphaned_reject_promise. by split; fields.
  - unfold transport_failed.
    destruct (tasks s !! t) as [[p' a ph | q c o ph]|] eqn:Htask; try done.
    apply orphaned_reject_promise. by split; fields.
  - unfold channel_error. destruct (listeners s !! ch) as [l|]; [|by split; fields].
    unfold on_channel_error. split; fields; try done.
    + lia.
    + intros t tm [[_ <-] | [_ Hl]]%lookup_insert_Some; [done | by eapply Hti].
    + intros q' Q' r. destruct (decide (next s = q')) as [<-|Hne].
      * rewrite lookup_insert_eq. intros [= <-]. cbn [reactions]. by intros ?%elem_of_nil.
      * rewrite lookup_insert_ne //. apply Hr.
  - unfold deliver, _handleReply.
    destruct (correlationId message) as [id|]; [|done].
    destruct (unresolved s !! id) as [cb|]; [|done].
    match goal with |- context [reply_callback ?c ?m ?s0] =>
      pose proof (reply_callback_outcome c m s0) as E;
      destruct (reply_callback c m s0) as [s1 [err|]] end;
      cbn [fst] in E; subst s1; (split; fields; try done).
    + intros t tm [_ Hl]%lookup_delete_Some; by eapply Hti.
    + intros id' cb' [_ Hl]%lookup_delete_Some; by eapply Hun.
    + intros t tm [_ Hl]%lookup_delete_Some; by eapply Hti.
    + intros id' cb' [_ Hl]%lookup_delete_Some; by eapply Hun.
  - unfold fire. destruct (timers s !! t) as [[h dl]|] eqn:Ht; [|done].
    destruct h as [id p' ms | p' attempts]; cbn [handler].
    + unfold rpc_timeout. split; fields; try done.
      * intros t' tm [_ Hl]%lookup_delete_Some; by eapply Hti.
      * intros id' cb' [_ Hl]%lookup_delete_Some; by eapply Hun.
    + unfold _connect. split; fields; try done; [lia|].
      intros t' tm [_ Hl]%lookup_delete_Some; by eapply Hti.
  - unfold run_job. destruct (microtasks s) as [|r rest] eqn:Hjobs; [done|].
    assert (orphaned p w (set_microtasks rest s)) as Hor'.
    { split; fields; try done. intros r' H. apply Hj. by right. }
    destruct r as [w' | d'].
    + apply orphaned_fulfil; [done|]. intros ->.
      apply (sh_jobs w d s Hsh). rewrite Hjobs. by left.
    + apply orphaned_invoke; [done|]. apply Hj. by left.
Qed.

Lemma orphaned_outcomes p w s e :
  orphaned p w s → outcomes p (step s e) = outcomes p s.
Proof.
  intros [Hh Hti Hun Hj Hr].
  destruct (step_effect s e) as [? ? Hs | ? ? ? ? ? Hs | t id p' ms dl _ Ht _ _ Hs
                                | m id cb _ _ Hcb _ _ Hs | ? ? ? ? ? Hs | ? ? ? ? ? ? ? Hs
                                | p' t key data opts Hex _ _ _ Hs];
    unfold outcomes; rewrite Hs; try done.
  - rewrite outcomes_app filter_cons_False; [|by rewrite filter_nil app_nil_r].
    cbn [fst]. intros ->. by apply (Hti _ _ Ht).
  - rewrite outcomes_app. destruct (reply_outcome m) as [o|].
    + rewrite filter_cons_False; [|by rewrite filter_nil app_nil_r].
      cbn [fst]. by apply (Hun _ _ Hcb).
    + by rewrite filter_nil app_nil_r.
  - rewrite outcomes_app filter_cons_False; [|by rewrite filter_nil app_nil_r].
    cbn [fst]. intros ->. destruct Hex as [ch Hch -> _ | ch rest Hch Hjobs _]; [lia|].
    apply (Hj (RRetry (DRpcExec key data opts p))); [|done]. rewrite Hjobs. by left.
Qed.

(** A call that is shelved and orphaned is lost: whatever happens next,
    its retry stays attached to the pending promise [w] and the promise
    it returned is not settled. *)
Lemma lost_forever p w d s tr :
  shelved w d s → orphaned p w s →
  shelved w d (run s tr) ∧ outcomes p (run s tr) = outcomes p s.
Proof.
  revert s. induction tr as [|e tr IH]; intros s Hsh Hor; [done|].
  cbn [run foldl]. fold (run (step s e) tr).
  destruct (IH (step s e) (shelved_step _ _ _ _ Hsh) (orphaned_step _ _ _ _ _ Hsh Hor))
    as [H1 H2].
  split; [done|]. rewrite H2. by eapply orphaned_outcomes.
Qed.

(** ** What a call does while there is no channel *)

(** X1. A call of [rpcExec], [publish] or [consume] made while
    [this.channel] is unset only stores a closure, in whatever state the
    client is: nothing is sent, settled or thrown, the registry is
    untouched and no timer is armed, so that the timeout of a deferred
    [rpcExec] does not run while the call waits. *)
Theorem deferred_call_is_silent (s : State) (e : Event) :
  channel s = None → is_call e →
  let s' := step s e in
  sent s' = sent s ∧ settlements s' = settlements s ∧ uncaught s' = uncaught s ∧
  unresolved s' = unresolved s ∧ timers s' = timers s ∧ tasks s' = tasks s ∧
  uuidCount s' = uuidCount s ∧ channel s' = None.
Proof.
  intros Hch Hcall.
  destruct e as [key data opts | key data opts | queueName callback opts
                | | | | | | | | | ]; try done; cbn [step].
  - unfold call_rpcExec, rpcExec.
    change (channel (set_next (S (next s)) s)) with (channel s). rewrite Hch.
    destruct (defer_shape (DRpcExec key data opts (next s)) (set_next (S (next s)) s))
      as (P & M & ->).
    by fields.
  - unfold publish. rewrite Hch. cbn [finish].
    destruct (defer_shape (DPublish key data opts) s) as (P & M & ->). by fields.
  - unfold consume. rewrite Hch.
    destruct (defer_shape (DConsume queueName callback opts) s) as (P & M & ->). by fields.
Qed.

(** ** Every registered call can time out *)

(** X2. At any time, on any path, an entry of the registry belongs
    to an armed timer that names the same correlation id and the same
    promise; when that timer fires the promise is rejected with the timeout
    error and the entry is removed. *)
Theorem registry_entries_are_armed (o : UserConnectionOptions) (exch : string)
    (tr : list Event) (id : string) (cb : Callback) :
  let s := run (init o exch) tr in
  unresolved s !! id = Some cb →
  ∃ ms,
    timers s !! cb_timer cb =
      Some {| handler := RpcTimeout id (cb_promise cb) ms; delay := ms |} ∧
    settlements (step s (EvTimer (cb_timer cb))) =
      settlements s ++ [(cb_promise cb, Reject (Error (timeout_message ms)))] ∧
    unresolved (step s (EvTimer (cb_timer cb))) = delete id (unresolved s).
Proof.
  intros s Hcb.
  assert (wf s) as Hwf by apply wf_run, wf_init.
  destruct (wf_callback s Hwf id cb Hcb) as [ms Hms]. exists ms.
  destruct (timer_fires s _ _ _ _ _ Hms) as (_ & Hu & Hs). done.
Qed.

(** ** Settlement, on every path *)

Lemma outcomes_step p s e :
  length (outcomes p (step s e)) ≤ S (length (outcomes p s)).
Proof.
  destruct (step_effect s e) as [? ? Hs | ? ? ? ? ? Hs | t id p' ms dl _ Ht _ _ Hs
                                | m id cb _ _ Hcb _ _ Hs | ? ? ? ? ? Hs | ? ? ? ? ? ? ? Hs
                                | p' t key data opts _ _ _ _ Hs];
    unfold outcomes at 1; rewrite Hs; try (fold (outcomes p s); lia).
  - rewrite outcomes_app length_app. destruct (decide (p' = p)) as [->|Hne].
    + rewrite filter_cons_True //. cbn. lia.
    + rewrite filter_cons_False //. cbn. lia.
  - rewrite outcomes_app length_app. destruct (reply_outcome m) as [x|]; [|cbn; lia].
    destruct (decide (cb_promise cb = p)) as [->|Hne].
    + rewrite filter_cons_True //. cbn. lia.
    + rewrite filter_cons_False //. cbn. lia.
  - rewrite outcomes_app length_app. destruct (decide (p' = p)) as [->|Hne].
    + rewrite filter_cons_True //. cbn. lia.
    + rewrite filter_cons_False //. cbn. lia.
Qed.

(** A promise that has no timer and no outcome is, after one more task,
    either still named by a closure, or armed, or out of reach. *)
Lemma unarmed_step p s e :
  wf s → linear s →
  (∀ t tm, timers s !! t = Some tm → timer_promise tm ≠ Some p) →
  outcomes p s = [] →
  phase p (step s e).
Proof.
  intros Hwf Hl Hnt Hout.
  pose proof (linear_step s e Hwf Hl) as Hl'.
  destruct (decide (next (step s e) ≤ p)) as [|Hlt]; [by apply phase_fresh|].
  destruct (decide (p ∈ named (step s e))) as [|Hnn]; [by apply phase_deferred|].
  assert (¬ mentions p (step s e)) as Hnm by (by rewrite mentions_named).
  assert (p < next (step s e)) as Hp by lia.
  destruct (step_effect s e) as
    [Ht Hu Hs Hc Hn Hm | p' t ms Ht Hu Hs Hc Hn Hn' Hp' Hm _
    | t id p' ms d He Harmed Ht Hu Hs Hc Hn Hm | m id cb He Hid Hentry Ht Hu Hs Hc Hn Hm
    | t tm Hnone Ht Hu Hs Hc Hn Hm | t tm He Harmed Hnone Ht Hu Hs Hc Hn Hm
    | p' t key data opts _ _ Ht Hu Hs Hc Hn Hp' Hm].
  - apply phase_final.
    + split; [|done..]. intros t tm. rewrite Ht. intros H1 H2. by destruct (Hnt _ _ H1).
    + unfold outcomes. rewrite Hs. fold (outcomes p s). rewrite Hout. cbn. lia.
  - destruct (decide (p' = p)) as [->|Hne].
    + apply (phase_armed _ _ t).
      * split; [|done..]. intros t' tm. rewrite Ht.
        intros [[<- _] | [_ H1]]%lookup_insert_Some H2; [done|]. by destruct (Hnt _ _ H1).
      * unfold outcomes. rewrite Hs. done.
    + apply phase_final.
      * split; [|done..]. intros t' tm. rewrite Ht.
        intros [[_ <-] | [_ H1]]%lookup_insert_Some H2; [by injection H2|].
        by destruct (Hnt _ _ H1).
      * unfold outcomes. rewrite Hs. fold (outcomes p s). rewrite Hout. cbn. lia.
  - assert (p' ≠ p) as Hne by (intros ->; by destruct (Hnt _ _ Harmed)).
    apply phase_final.
    + split; [|done..]. intros t' tm. rewrite Ht.
      intros [_ H1]%lookup_delete_Some H2. by destruct (Hnt _ _ H1).
    + unfold outcomes. rewrite Hs outcomes_app Hout filter_cons_False //.
      cbn. lia.
  - destruct (wf_callback s Hwf id cb Hentry) as [ms Hms].
    assert (cb_promise cb ≠ p) as Hne by (intros E; destruct (Hnt _ _ Hms); by rewrite -E).
    apply phase_final.
    + split; [|done..]. intros t' tm. rewrite Ht.
      intros [_ H1]%lookup_delete_Some H2. by destruct (Hnt _ _ H1).
    + unfold outcomes. rewrite Hs outcomes_app Hout.
      destruct (reply_outcome m); [rewrite filter_cons_False //|]; cbn; lia.
  - apply phase_final.
    + split; [|done..]. intros t' tm'. rewrite Ht.
      intros [[_ <-] | [_ H1]]%lookup_insert_Some H2; [congruence|].
      by destruct (Hnt _ _ H1).
    + unfold outcomes. rewrite Hs. fold (outcomes p s). rewrite Hout. cbn. lia.
  - apply phase_final.
    + split; [|done..]. intros t' tm'. rewrite Ht.
      intros [_ H1]%lookup_delete_Some H2. by destruct (Hnt _ _ H1).
    + unfold outcomes. rewrite Hs. fold (outcomes p s). rewrite Hout. cbn. lia.
  - apply phase_final.
    + split; [|done..]. intros t' tm'. rewrite Ht. intros H1 H2. by destruct (Hnt _ _ H1).
    + pose proof (outcomes_step p s e) as H. rewrite Hout in H. cbn in H. lia.
Qed.

Lemma phase_step p s e : wf s → linear s → phase p s → phase p (step s e).
Proof.
  intros Hwf Hl [Hfr | Hnm | t Htr Hout | Htr Hout].
  - apply unarmed_step; try done.
    + intros t tm H1 H2. pose proof (wf_timer_promise s Hwf _ _ _ H1 H2). lia.
    + by apply not_settled_fresh.
  - apply unarmed_step; try done.
    + intros t tm. by apply (ln_timers s Hl).
    + apply outcomes_nil. intros x. by apply (ln_unsettled s Hl).
  - destruct (tracked_effect s e (step s e) (Some t) p Hwf Htr (step_effect s e))
      as [(Htr' & Hout' & _) | (t' & id & ms & d & _ & _ & Htr' & _)].
    + apply (phase_armed _ _ t); [done | congruence].
    + apply phase_final; [done|].
      pose proof (outcomes_step p s e) as H. rewrite Hout in H. cbn in H. lia.
  - destruct (tracked_effect s e (step s e) None p Hwf Htr (step_effect s e))
      as [(Htr' & Hout' & _) | (t' & ? & ? & ? & [=] & _)].
    apply phase_final; [done | congruence].
Qed.

Lemma phase_run p s tr : wf s → linear s → phase p s → phase p (run s tr).
Proof.
  revert s. induction tr as [|e tr IH]; intros s Hwf Hl Hph; [done|].
  apply IH; [by apply wf_step | by apply linear_step | by apply phase_step].
Qed.

Lemma phase_init p o exch : phase p (init o exch).
Proof.
  assert (wf (init o exch)) as Hwf by apply wf_init.
  destruct (decide (next (init o exch) ≤ p)) as [|Hlt]; [by apply phase_fresh|].
  apply phase_final.
  - split.
    + intros t tm. unfold init, _connect. fields. by rewrite lookup_empty.
    + rewrite mentions_named. pose proof (linear_init o exch) as Hl.
      intros H. assert (named (init o exch) ≡ₚ []) as E.
      { unfold named, init, _connect. fields. by rewrite attached_fresh. }
      rewrite E in H. by apply elem_of_nil in H.
    + lia.
  - unfold outcomes, init, _connect. fields. cbn. lia.
Qed.

(** X3. No promise is ever settled twice: on every path, for calls
    made on a ready channel and for deferred calls alike, and whether or
    not the generated correlation ids are distinct, [resolve] and [reject]
    are called at most once, in total, on the promise a call returned. *)
Theorem settled_at_most_once (o : UserConnectionOptions) (exch : string)
    (tr : list Event) (p : nat) :
  length (outcomes p (run (init o exch) tr)) ≤ 1.
Proof.
  pose proof (phase_run p (init o exch) tr (wf_init o exch) (linear_init o exch)
                (phase_init p o exch)) as Hph.
  set (s := run (init o exch) tr) in *.
  assert (wf s) as Hwf by apply wf_run, wf_init.
  assert (linear s) as Hl by (apply linear_run; [apply wf_init | apply linear_init]).
  destruct Hph as [Hfr | Hnm | t Htr Hout | Htr Hout].
  - assert (outcomes p s = []) as -> by (by apply not_settled_fresh). cbn. lia.
  - assert (outcomes p s = []) as ->; [|cbn; lia].
    apply outcomes_nil. intros x. by apply (ln_unsettled s Hl).
  - rewrite Hout. cbn. lia.
  - done.
Qed.

(** ** What a task sends *)

Lemma sent_then q r s : sent (then_ q r s) = sent s.
Proof. destruct (then_shape q r s) as (P & M & ->). by fields. Qed.

Lemma sent_defer d s : sent (defer d s) = sent s.
Proof. destruct (defer_shape d s) as (P & M & ->). by fields. Qed.

Lemma count_connects_app l k : count_connects (l ++ k) = count_connects l + count_connects k.
Proof. unfold count_connects. by rewrite filter_app length_app. Qed.

(** The transport calls of one task: they name the exchange of the client,
    and [AMQP.connect] is called by a retry timer only. *)
Lemma sent_step s e :
  ∃ ops, sent (step s e) = sent s ++ ops ∧ Forall (op_ok (exchange s)) ops ∧
    count_connects ops =
      match e with
      | EvTimer t =>
          match handler <$> timers s !! t with
          | Some (RetryConnect _ _) => 1
          | _ => 0
          end
      | _ => 0
      end.
Proof.
  assert (∀ d s0, ∃ ops, sent (invoke d s0) = sent s0 ++ ops ∧
            Forall (op_ok (exchange s0)) ops ∧ count_connects ops = 0) as Hinv.
  { intros d s0. destruct d as [key data opts p | key data opts | queueName callback opts];
      cbn [invoke]; unfold rpcExec, publish, consume; destruct (channel s0) as [ch|];
      cbn [finish]; rewrite ?sent_defer; try (exists []; by rewrite app_nil_r).
    - unfold rpcExec_ready. destruct (JSON_stringify data); fields;
        [|exists []; by rewrite app_nil_r].
      eexists. split; [done|]. by repeat constructor.
    - unfold publish_ready. destruct (JSON_stringify data); fields;
        [|exists []; by rewrite app_nil_r].
      eexists. split; [done|]. by repeat constructor.
    - unfold consume_ready. fields. eexists. split; [done|]. by repeat constructor. }
  destruct e as [key data opts | key data opts | queueName callback opts
                | t connection | t ch | t queue | t | t | ch | message | t | ];
    cbn [step].
  - unfold call_rpcExec.
    apply (Hinv (DRpcExec key data opts (next s)) (set_next (S (next s)) s)).
  - apply (Hinv (DPublish key data opts) s).
  - apply (Hinv (DConsume queueName callback opts) s).
  - unfold connected.
    destruct (tasks s !! t) as [[p a [| | |] | ]|]; try (exists []; by rewrite app_nil_r).
    fields. eexists. split; [done|]. by repeat constructor.
  - unfold channel_created.
    destruct (tasks s !! t) as [[p a [| connection | |] | ]|];
      try (exists []; by rewrite app_nil_r).
    fields. case_match; fields; (eexists; split; [done|]; by repeat constructor).
  - unfold queue_asserted.
    destruct (tasks s !! t) as [[p a [| | |] | q c o []]|];
      try (exists []; by rewrite app_nil_r);
      fields; destruct (channel s) as [ch|]; fields;
      try (eexists; split; [done|]; by repeat constructor).
    + match goal with |- context [reject_promise ?q ?s0] =>
        destruct (reject_promise_shape q s0) as (P & M & ->) end.
      fields. exists []. by rewrite app_nil_r.
    + exists []. by rewrite app_nil_r.
  - unfold queue_bound.
    destruct (tasks s !! t) as [[p a [| | |] | q c o []]|];
      try (exists []; by rewrite app_nil_r);
      fields; destruct (channel s) as [ch|]; fields.
    + match goal with |- context [fulfil ?q ?s0] =>
        destruct (fulfil_shape q s0) as (P & M & ->) end.
      fields. eexists. split; [done|]. by repeat constructor.
    + match goal with |- context [reject_promise ?q ?s0] =>
        destruct (reject_promise_shape q s0) as (P & M & ->) end.
      fields. exists []. by rewrite app_nil_r.
    + eexists. split; [done|]. by repeat constructor.
    + exists []. by rewrite app_nil_r.
  - unfold transport_failed.
    destruct (tasks s !! t) as [[p a ph | q c o ph]|];
      try (exists []; by rewrite app_nil_r).
    match goal with |- context [reject_promise ?q ?s0] =>
      destruct (reject_promise_shape q s0) as (P & M & ->) end.
    fields. exists []. by rewrite app_nil_r.
  - unfold channel_error. destruct (listeners s !! ch) as [l|].
    + unfold on_channel_error. fields. eexists. split; [done|]. by repeat constructor.
    + fields. exists []. by rewrite app_nil_r.
  - unfold deliver, _handleReply.
    destruct (correlationId message) as [id|]; [|exists []; by rewrite app_nil_r].
    destruct (unresolved s !! id) as [cb|]; [|exists []; by rewrite app_nil_r].
    match goal with |- context [reply_callback ?c ?m ?s0] =>
      pose proof (reply_callback_outcome c m s0) as E;
      destruct (reply_callback c m s0) as [s1 [err|]] end;
      cbn [fst] in E; subst s1; fields; exists []; by rewrite app_nil_r.
  - unfold fire. destruct (timers s !! t) as [[h dl]|]; [|exists []; by rewrite app_nil_r].
    destruct h as [id p ms | p attempts]; cbn [handler fmap option_fmap option_map].
    + unfold rpc_timeout. fields. exists []. by rewrite app_nil_r.
    + unfold _connect. fields. eexists. split; [done|]. by repeat constructor.
  - unfold run_job. destruct (microtasks s) as [|r rest]; [exists []; by rewrite app_nil_r|].
    destruct r as [w | d].
    + match goal with |- context [fulfil ?q ?s0] =>
        destruct (fulfil_shape q s0) as (P & M & ->) end.
      fields. exists []. by rewrite app_nil_r.
    + apply (Hinv d (set_microtasks rest s)).
Qed.

Lemma step_constants s e :
  options (step s e) = options s ∧ exchange (step s e) = exchange s.
Proof.
  assert (∀ d s0, options (invoke d s0) = options s0 ∧ exchange (invoke d s0) = exchange s0)
    as Hinv.
  { intros d s0. destruct d as [key data opts p | key data opts | queueName callback opts];
      cbn [invoke]; unfold rpcExec, publish, consume; destruct (channel s0) as [ch|];
      unfold rpcExec_ready, publish_ready; try destruct (JSON_stringify data);
      cbn [finish new_Buffer]; try done;
      match goal with |- context [defer ?d ?s1] =>
        destruct (defer_shape d s1) as (P & M & ->) end; by fields. }
  destruct e as [key data opts | key data opts | queueName callback opts
                | t connection | t ch | t queue | t | t | ch | message | t | ];
    cbn [step].
  - unfold call_rpcExec.
    apply (Hinv (DRpcExec key data opts (next s)) (set_next (S (next s)) s)).
  - apply (Hinv (DPublish key data opts) s).
  - apply (Hinv (DConsume queueName callback opts) s).
  - unfold connected. by destruct (tasks s !! t) as [[p a [| | |] | ]|].
  - unfold channel_created.
    destruct (tasks s !! t) as [[p a [| connection | |] | ]|]; try done.
    fields. by case_match.
  - unfold queue_asserted.
    destruct (tasks s !! t) as [[p a [| | |] | q c o []]|]; try done;
      fields; destruct (channel s) as [ch|]; try done.
    match goal with |- context [reject_promise ?q ?s0] =>
      destruct (reject_promise_shape q s0) as (P & M & ->) end. by fields.
  - unfold queue_bound.
    destruct (tasks s !! t) as [[p a [| | |] | q c o []]|]; try done;
      fields; destruct (channel s) as [ch|]; try done.
    + match goal with |- context [fulfil ?q ?s0] =>
        destruct (fulfil_shape q s0) as (P & M & ->) end. by fields.
    + match goal with |- context [reject_promise ?q ?s0] =>
        destruct (reject_promise_shape q s0) as (P & M & ->) end. by fields.
  - unfold transport_failed.
    destruct (tasks s !! t) as [[p a ph | q c o ph]|]; try done.
    match goal with |- context [reject_promise ?q ?s0] =>
      destruct (reject_promise_shape q s0) as (P & M & ->) end. by fields.
  - unfold channel_error. by destruct (listeners s !! ch) as [l|].
  - unfold deliver, _handleReply.
    destruct (correlationId message) as [id|]; [|done].
    destruct (unresolved s !! id) as [cb|]; [|done].
    match goal with |- context [reply_callback ?c ?m ?s0] =>
      pose proof (reply_callback_outcome c m s0) as E;
      destruct (reply_callback c m s0) as [s1 [err|]] end;
      cbn [fst] in E; by subst s1.
  - unfold fire. destruct (timers s !! t) as [[h dl]|]; [|done].
    by destruct h as [id p ms | p attempts].
  - unfold run_job. destruct (microtasks s) as [|r rest]; [done|].
    destruct r as [w | d]; [|apply (Hinv d (set_microtasks rest s))].
    match goal with |- context [fulfil ?q ?s0] =>
      destruct (fulfil_shape q s0) as (P & M & ->) end. by fields.
Qed.

(** X4. Every publication of the client, by [publish] or by
    [rpcExec], goes to the exchange given to the constructor (['msgr'] when
    none was given), and every queue the client binds, the reply queue and
    the queues of [consume], is bound to that exchange with its own name
    as binding key. *)
Theorem client_keeps_to_its_exchange (name : option string)
    (o : UserConnectionOptions) (tr : list Event) :
  Forall (op_ok (default "msgr" name)) (sent (run (new_Msgr name o) tr)).
Proof.
  unfold new_Msgr. set (exch := default "msgr" name).
  assert (∀ s, exchange s = exch → Forall (op_ok exch) (sent s) →
               Forall (op_ok exch) (sent (run s tr))) as Hgen.
  { induction tr as [|e tr IH]; intros s Hx Hs; [done|].
    cbn [run foldl]. fold (run (step s e) tr).
    destruct (sent_step s e) as (ops & Hsent & Hops & _).
    apply IH.
    - by rewrite (proj2 (step_constants s e)).
    - rewrite Hsent. apply Forall_app. split; [done|]. by rewrite -Hx. }
  apply Hgen; [done|]. rewrite init_state. fields. by repeat constructor.
Qed.

(** ** The race between a reply and the timeout *)

(** An entry of the registry was there before the task, or the task is
    the one that sent the request of its call. *)
Lemma entry_origin s e id cb :
  unresolved (step s e) !! id = Some cb →
  unresolved s !! id = Some cb ∨ registers s e id cb.
Proof.
  destruct (step_effect s e) as
    [Ht Hu Hs Hc Hn Hm | p t ms Ht Hu Hs Hc Hn Hn' Hp Hm Hex
    | t id' p ms d He Harmed Ht Hu Hs Hc Hn Hm | m id' cb' He Hid Hentry Ht Hu Hs Hc Hn Hm
    | t tm Hnone Ht Hu Hs Hc Hn Hm | t tm _ Harmed Hnone Ht Hu Hs Hc Hn Hm
    | p t key data opts _ _ Ht Hu Hs Hc Hn Hp Hm];
    rewrite Hu; auto.
  - intros [[<- <-] | [_ H]]%lookup_insert_Some; [right | by left].
    destruct Hex as (key & data & opts & content & Hex & Hjson & _).
    by exists key, data, opts, content.
  - intros [_ H]%lookup_delete_Some. by left.
  - intros [_ H]%lookup_delete_Some. by left.
Qed.

Lemma registers_entry s e id cb :
  registers s e id cb → unresolved (step s e) !! id = Some cb.
Proof.
  intros (key & data & opts & content & Hex & Hjson & ->).
  destruct (executes_ready s key data content opts _ _ e Hex Hjson) as (_ & -> & _).
  rewrite lookup_insert_eq. by destruct cb.
Qed.

Lemma effect_grows s e s' :
  effect s e s' → next s ≤ next s' ∧ uuidCount s ≤ uuidCount s'.
Proof.
  intros
    [Ht Hu Hs Hc Hn Hm | p t ms Ht Hu Hs Hc Hn Hn' Hp Hm _
    | t id' p ms d He Harmed Ht Hu Hs Hc Hn Hm | m id' cb' He Hid Hentry Ht Hu Hs Hc Hn Hm
    | t tm Hnone Ht Hu Hs Hc Hn Hm | t tm _ Harmed Hnone Ht Hu Hs Hc Hn Hm
    | p t key data opts _ _ Ht Hu Hs Hc Hn Hp Hm]; lia.
Qed.

(** The handle of a timer that fired or was cleared is not used again. *)
Lemma timer_stays_cleared s e t :
  t < next s → timers s !! t = None → timers (step s e) !! t = None.
Proof.
  intros Hlt Hgone.
  destruct (step_effect s e) as
    [Ht Hu Hs Hc Hn Hm | p t' ms Ht Hu Hs Hc Hn Hn' Hp Hm _
    | t' id' p ms d He Harmed Ht Hu Hs Hc Hn Hm | m id' cb' He Hid Hentry Ht Hu Hs Hc Hn Hm
    | t' tm Hnone Ht Hu Hs Hc Hn Hm | t' tm _ Harmed Hnone Ht Hu Hs Hc Hn Hm
    | p t' key data opts _ _ Ht Hu Hs Hc Hn Hp Hm];
    rewrite Ht //.
  - rewrite lookup_insert_ne //. lia.
  - apply lookup_delete_None. by right.
  - apply lookup_delete_None. by right.
  - rewrite lookup_insert_ne //. lia.
  - apply lookup_delete_None. by right.
Qed.

(** Once a call has ended, its timer and its entry are gone for good. *)
Lemma ended_for_good (Uuid_v4_fresh : Inj (=) (=) Uuid_v4) s tr t n :
  t < next s → timers s !! t = None →
  n < uuidCount s → unresolved s !! Uuid_v4 n = None →
  timers (run s tr) !! t = None ∧ unresolved (run s tr) !! Uuid_v4 n = None.
Proof.
  revert s. induction tr as [|e tr IH]; intros s Hlt Hgone Hn Habs; [done|].
  cbn [run foldl]. fold (run (step s e) tr).
  destruct (effect_grows s e _ (step_effect s e)) as [H1 H2].
  apply IH; [lia | by apply timer_stays_cleared | lia | by apply id_stays_absent].
Qed.

(** The call of an entry of the registry is pending, and only its timer
    can settle its promise. *)
Lemma entry_tracked s id cb :
  wf s → linear s → phase (cb_promise cb) s → unresolved s !! id = Some cb →
  ∃ ms,
    timers s !! cb_timer cb =
      Some {| handler := RpcTimeout id (cb_promise cb) ms; delay := ms |} ∧
    tracked (Some (cb_timer cb)) (cb_promise cb) s ∧
    outcomes (cb_promise cb) s = [].
Proof.
  intros Hwf Hl Hph Hentry.
  destruct (wf_callback s Hwf id cb Hentry) as [ms Harmed].
  exists ms. split; [done|].
  destruct Hph as [Hfresh | Hnm | t Htr Hout | Htr Hout].
  - pose proof (wf_timer_promise s Hwf _ _ _ Harmed eq_refl). lia.
  - by destruct (ln_timers s Hl _ _ _ Hnm Harmed).
  - pose proof (tr_timers _ _ _ Htr _ _ Harmed eq_refl) as [= ->]. done.
  - by pose proof (tr_timers _ _ _ Htr _ _ Harmed eq_refl).
Qed.

Lemma filter_own (p : nat) (l : list Settle) :
  (filter (λ x : nat * Settle, x.1 = p) (pair p <$> l)).*2 = l.
Proof.
  induction l as [|x l IH]; [done|].
  cbn [fmap list_fmap]. rewrite filter_cons_True //. cbn [fmap list_fmap snd]. by f_equal.
Qed.

(** What the task that ends a call does. *)
Lemma call_ends s e id cb ms :
  unresolved s !! id = Some cb →
  timers s !! cb_timer cb =
    Some {| handler := RpcTimeout id (cb_promise cb) ms; delay := ms |} →
  ends (cb_timer cb) id e →
  timers (step s e) !! cb_timer cb = None ∧
  unresolved (step s e) !! id = None ∧
  settlements (step s e) = settlements s ++ (pair (cb_promise cb) <$> verdict ms e).
Proof.
  intros Hentry Harmed [-> | (m & -> & Hid)].
  - destruct (timer_fires s _ _ _ _ _ Harmed) as (-> & -> & ->).
    split_and!; [apply lookup_delete_eq.. | done].
  - destruct (reply_arrives s m id cb Hid Hentry) as (-> & -> & ->).
    split_and!; [apply lookup_delete_eq.. |].
    cbn [verdict]. by destruct (reply_outcome m).
Qed.

(** C3. From the constructor on, and with fresh correlation ids.
    An id is in the registry exactly when its call is outstanding: the
    request of the call was sent, and since then no message with this id
    was delivered and the timer of the call did not fire.  The call of an
    entry is pending, with its timer armed.  Whichever of a reply and the
    timeout is processed first removes the entry and decides, once and for
    all, what becomes of the promise: the timeout rejects it with the
    timeout error, a reply gives it the outcome of its classification (and
    none when the callback cannot read the reply).  From then on the
    entry and the timer are gone, the promise keeps what it has, and the
    other one of the two, a second reply or a second firing changes
    nothing at all. *)
Theorem registry_tracks_outstanding_calls (Uuid_v4_fresh : Inj (=) (=) Uuid_v4)
    (o : UserConnectionOptions) (exch : string) (tr : list Event) (id : string)
    (cb : Callback) :
  let s := run (init o exch) tr in
  (unresolved s !! id = Some cb ↔ outstanding (init o exch) tr id cb) ∧
  (unresolved s !! id = Some cb →
   ∃ ms,
     timers s !! cb_timer cb =
       Some {| handler := RpcTimeout id (cb_promise cb) ms; delay := ms |} ∧
     outcomes (cb_promise cb) s = [] ∧
     ∀ e post, ends (cb_timer cb) id e →
       let s2 := run (step s e) post in
       unresolved s2 !! id = None ∧
       timers s2 !! cb_timer cb = None ∧
       outcomes (cb_promise cb) s2 = verdict ms e ∧
       ∀ e', ends (cb_timer cb) id e' → step s2 e' = s2).
Proof.
  intros s. split.
  - (* the registry holds the outstanding calls *)
    subst s. revert cb. induction tr as [|e tr IH] using rev_ind; intros cb.
    { split.
      - rewrite init_state. fields. by rewrite lookup_empty.
      - intros (pre & e & post & E & _). by destruct pre. }
    assert (wf (run (init o exch) tr)) as Hwf by apply wf_run, wf_init.
    assert (fresh_ids (run (init o exch) tr)) as Hfr
      by (apply fresh_run; [done | apply wf_init | apply fresh_init]).
    rewrite run_snoc. split.
    + intros H. destruct (entry_origin _ e _ _ H) as [Hold | Hreg].
      * destruct (entry_step Uuid_v4_fresh _ e _ _ Hwf Hfr Hold)
          as [(Hnt & Hnm & _) | [_ E]]; [|congruence].
        apply IH in Hold as (pre & e0 & post & -> & H1 & H2).
        exists pre, e0, (post ++ [e]). split_and!; [by rewrite -app_assoc | done |].
        apply Forall_app. split; [done|]. by constructor.
      * exists tr, e, []. split_and!; [done | done | constructor].
    + intros (pre & e0 & post & E & H1 & H2).
      destruct post as [|e1 post _] using rev_ind.
      * apply app_inj_tail in E as [<- <-]. by apply registers_entry.
      * rewrite app_comm_cons app_assoc in E. apply app_inj_tail in E as [-> <-].
        apply Forall_app in H2 as [H2 [Hnt Hnm]%Forall_singleton].
        assert (unresolved (run (init o exch) (pre ++ e0 :: post)) !! id = Some cb) as Hold.
        { apply IH. by exists pre, e0, post. }
        destruct (entry_step Uuid_v4_fresh _ e _ _ Hwf Hfr Hold)
          as [(_ & _ & E) | [[-> | (m & -> & Hid)] _]]; [done | done |].
        by destruct (Hnm m eq_refl).
  - (* the race *)
    intros Hentry.
    assert (wf s) as Hwf by apply wf_run, wf_init.
    assert (linear s) as Hl by (apply linear_run; [apply wf_init | apply linear_init]).
    assert (fresh_ids s) as Hfr
      by (apply fresh_run; [done | apply wf_init | apply fresh_init]).
    pose proof (phase_run (cb_promise cb) (init o exch) tr (wf_init o exch)
                  (linear_init o exch) (phase_init _ o exch)) as Hph.
    fold s in Hph.
    destruct (entry_tracked s id cb Hwf Hl Hph Hentry) as (ms & Harmed & Htr & Hout).
    exists ms. split_and!; [done | done |].
    intros e post Hends s2. set (s1 := step s e) in *.
    destruct (call_ends s e id cb ms Hentry Harmed Hends) as (Hgone & Habs & Hs).
    fold s1 in Hgone, Habs, Hs.
    assert (outcomes (cb_promise cb) s1 = verdict ms e) as Hout1.
    { unfold outcomes at 1. by rewrite Hs outcomes_app Hout filter_own. }
    assert (tracked None (cb_promise cb) s1) as Htr1
      by (by eapply (disarmed s e (cb_timer cb))).
    destruct (settled_for_good s1 post (cb_promise cb) (wf_step _ _ Hwf) Htr1)
      as [_ Hfinal].
    destruct (fr_uuid s Hfr id cb Hentry) as (n & Hn & ->).
    destruct (effect_grows s e _ (step_effect s e)) as [Hnx Huc]. fold s1 in Hnx, Huc.
    pose proof (wf_timer_lt s Hwf _ _ Harmed) as Hlt.
    destruct (ended_for_good Uuid_v4_fresh s1 post (cb_timer cb) n) as [Ht2 Hu2];
      [lia | done | lia | done |].
    fold s2 in Hfinal, Ht2, Hu2.
    split_and!; [done | done | by rewrite Hfinal |].
    intros e' [-> | (m & -> & Hid)].
    + by apply fire_absent.
    + apply deliver_absent. intros id' E. congruence.
Qed.

(** ** A reply that cannot be read *)

(** C2. A reply to a pending call whose body is not JSON, or is
    JSON without properties to read ([null]), ends the call without
    settling it.  The callback clears the timer of the call, which was
    armed, before it parses the body; then it throws, the entry being
    already deleted.  The promise of the call is pending and, whatever
    happens next, is never settled: neither resolved nor rejected. *)
Theorem unreadable_reply_strands_the_call (o : UserConnectionOptions) (exch : string)
    (tr0 : list Event) (id : string) (cb : Callback) (m : Message) :
  let s := run (init o exch) tr0 in
  unresolved s !! id = Some cb →
  correlationId m = Some id →
  reply_outcome m = None →
  let s1 := step s (EvMessage m) in
  is_Some (timers s !! cb_timer cb) ∧
  timers s1 !! cb_timer cb = None ∧
  unresolved s1 !! id = None ∧
  uncaught s1 =
    uncaught s ++ [match parsed m with Some _ => TypeError | None => SyntaxError end] ∧
  ∀ tr, outcomes (cb_promise cb) (run s1 tr) = [].
Proof.
  intros s Hentry Hid Hbad s1.
  assert (wf s) as Hwf by apply wf_run, wf_init.
  assert (linear s) as Hl by (apply linear_run; [apply wf_init | apply linear_init]).
  pose proof (phase_run (cb_promise cb) (init o exch) tr0 (wf_init o exch)
                (linear_init o exch) (phase_init _ o exch)) as Hph.
  fold s in Hph.
  destruct (entry_tracked s id cb Hwf Hl Hph Hentry) as (ms & Harmed & Htr & Hout).
  destruct (call_ends s (EvMessage m) id cb ms Hentry Harmed) as (Hgone & Habs & Hs).
  { right. by exists m. }
  fold s1 in Hgone, Habs, Hs. cbn [verdict] in Hs. rewrite Hbad app_nil_r in Hs.
  split_and!; [by eauto | done | done | |].
  - unfold s1. cbn [step]. unfold deliver, _handleReply. rewrite Hid Hentry.
    unfold reply_callback. unfold reply_outcome in Hbad.
    destruct (parsed m) as [response|]; [|done].
    destruct (get response "error") as [error|]; [|done].
    destruct (get response "trace") as [trace|]; [|done].
    by destruct (get response "data") as [data|].
  - intros tr.
    assert (tracked None (cb_promise cb) s1) as Htr1
      by (by eapply (disarmed s (EvMessage m) (cb_timer cb))).
    destruct (settled_for_good s1 tr (cb_promise cb) (wf_step _ _ Hwf) Htr1) as [_ ->].
    unfold outcomes. rewrite Hs. exact Hout.
Qed.

(** ** A call that is not sent has no timeout *)

(** Without a channel no task runs the executor: a promise that has no
    timer and no outcome keeps none. *)
Lemma unsent_step p s e :
  wf s → channel s = None →
  (∀ t tm, timers s !! t = Some tm → timer_promise tm ≠ Some p) →
  outcomes p s = [] →
  (∀ t tm, timers (step s e) !! t = Some tm → timer_promise tm ≠ Some p) ∧
  outcomes p (step s e) = [].
Proof.
  intros Hwf Hch Hnt Hout.
  destruct (step_effect s e) as
    [Ht Hu Hs Hc Hn Hm | p' t ms Ht Hu Hs Hc Hn Hn' Hp Hm Hex
    | t id p' ms d He Harmed Ht Hu Hs Hc Hn Hm | m id cb He Hid Hentry Ht Hu Hs Hc Hn Hm
    | t tm Hnone Ht Hu Hs Hc Hn Hm | t tm He Harmed Hnone Ht Hu Hs Hc Hn Hm
    | p' t key data opts Hex _ Ht Hu Hs Hc Hn Hp Hm].
  - split; [by rewrite Ht | unfold outcomes; by rewrite Hs].
  - destruct Hex as (key & data & opts & content & [? E | ? ? E] & _); congruence.
  - assert (p' ≠ p) as Hne by (intros ->; by destruct (Hnt _ _ Harmed)).
    split.
    + intros t' tm. rewrite Ht. intros [_ H]%lookup_delete_Some. by apply (Hnt t').
    + unfold outcomes. rewrite Hs outcomes_app Hout filter_cons_False //.
  - destruct (wf_callback s Hwf id cb Hentry) as [ms Hms].
    assert (cb_promise cb ≠ p) as Hne by (intros E; destruct (Hnt _ _ Hms); by rewrite -E).
    split.
    + intros t' tm. rewrite Ht. intros [_ H]%lookup_delete_Some. by apply (Hnt t').
    + unfold outcomes. rewrite Hs outcomes_app Hout.
      destruct (reply_outcome m); [by rewrite filter_cons_False|done].
  - split; [|unfold outcomes; by rewrite Hs].
    intros t' tm'. rewrite Ht. intros [[_ <-] | [_ H]]%lookup_insert_Some; [congruence|].
    by apply (Hnt t').
  - split; [|unfold outcomes; by rewrite Hs].
    intros t' tm'. rewrite Ht. intros [_ H]%lookup_delete_Some. by apply (Hnt t').
  - destruct Hex as [? E | ? ? E]; congruence.
Qed.

Lemma unsent_run p s tr :
  wf s →
  (∀ pre post, tr = pre ++ post → channel (run s pre) = None) →
  (∀ t tm, timers s !! t = Some tm → timer_promise tm ≠ Some p) →
  outcomes p s = [] →
  (∀ t tm, timers (run s tr) !! t = Some tm → timer_promise tm ≠ Some p) ∧
  outcomes p (run s tr) = [].
Proof.
  revert s. induction tr as [|e tr IH]; intros s Hwf Hch Hnt Hout; [done|].
  cbn [run foldl]. fold (run (step s e) tr).
  destruct (unsent_step p s e Hwf (Hch [] (e :: tr) eq_refl) Hnt Hout) as [Hnt' Hout'].
  apply IH; [by apply wf_step | | done | done].
  intros pre post ->. apply (Hch (e :: pre) post eq_refl).
Qed.

Lemma stranded_run s tr :
  stranded s → stranded (run s tr) ∧ settlements (run s tr) = settlements s.
Proof.
  revert s. induction tr as [|e tr IH]; intros s Hst; [done|].
  destruct (stranded_step s e Hst) as (H1 & H2 & _).
  cbn [run foldl]. fold (run (step s e) tr).
  destruct (IH _ H1) as [H3 ->]. done.
Qed.

(** C5. A call of [rpcExec] made while the client has no channel
    has no timer: the timer is armed by the executor, which does not run
    before a channel exists.  As long as the client has no channel, and
    however long that is, the promise of the call is not rejected and no
    timer is armed for it.  When the client is stranded, the connection
    having failed for good, this is final: whatever happens next the call
    gets no reply, and its promise is never rejected with the timeout
    error, nor settled in any other way. *)
Theorem unsent_call_has_no_timeout (o : UserConnectionOptions) (exch : string)
    (tr0 : list Event) (key : string) (data : value) (opts : RpcOptions)
    (tr : list Event) :
  let s := run (init o exch) tr0 in
  let p := next s in
  let s1 := step s (EvRpcExec key data opts) in
  let s2 := run s1 tr in
  channel s = None →
  (∀ pre post, tr = pre ++ post → channel (run s1 pre) = None) →
  (outcomes p s2 = [] ∧ sent s1 = sent s ∧
   ∀ t tm, timers s2 !! t = Some tm → timer_promise tm ≠ Some p) ∧
  (stranded s2 →
   ∀ tr', outcomes p (run s2 tr') = [] ∧ timers (run s2 tr') = ∅ ∧
          sent (run s2 tr') = sent s2).
Proof.
  intros s p s1 s2 Hch Hnone.
  assert (wf s) as Hwf by apply wf_run, wf_init.
  assert ((∀ t tm, timers s1 !! t = Some tm → timer_promise tm ≠ Some p) ∧
          outcomes p s1 = []) as [Hnt1 Hout1].
  { apply unsent_step; [done | done | |].
    - intros t tm H1 H2. pose proof (wf_timer_promise s Hwf _ _ _ H1 H2). unfold p in *. lia.
    - by apply not_settled_fresh. }
  destruct (unsent_run p s1 tr (wf_step _ _ Hwf) Hnone Hnt1 Hout1) as [Hnt2 Hout2].
  fold s2 in Hnt2, Hout2.
  split; [split_and!; [done | | done]|].
  - unfold s1. cbn [step]. unfold call_rpcExec, rpcExec. fields. rewrite Hch.
    by rewrite sent_defer.
  - intros Hst tr'.
    destruct (stranded_run s2 tr' Hst) as [Hst' Hs].
    destruct (stranded_forever s2 tr' Hst) as [_ Hsent].
    split_and!; [|by apply (st_timers _ Hst') | done].
    unfold outcomes. rewrite Hs. exact Hout2.
Qed.

(** ** The retry budget *)

Lemma attempt_at_frame s s' :
  tasks s' = tasks s → listeners s' = listeners s → timers s' = timers s →
  ∀ σ, attempt_at s' σ = attempt_at s σ.
Proof. intros Ht Hl Hm [k|k|k]; cbn [attempt_at]; by rewrite ?Ht ?Hl ?Hm. Qed.

Lemma budget_sub s s' :
  budget s → options s' = options s → connects s' = connects s →
  (∀ σ a, attempt_at s' σ = Some a → attempt_at s σ = Some a) →
  budget s'.
Proof.
  intros [Hc Ha Hl Hs] Ho Hn Hsub. split.
  - by rewrite Hn Ho.
  - intros σ a H%Hsub. rewrite Hn. by eapply Ha.
  - intros σ a H%Hsub. rewrite Ho. by eapply Hl.
  - intros σ σ' [a H%Hsub] [a' H'%Hsub]. apply Hs; eauto.
Qed.

(** The counter moves from place [X] to place [Y]. *)
Lemma budget_move s s' X Y :
  budget s → options s' = options s → connects s' = connects s →
  is_Some (attempt_at s X) →
  (∀ σ a, attempt_at s' σ = Some a →
     (σ = Y ∧ attempt_at s X = Some a ∧
      (is_task Y = false → (a < maxConnectionAttempts (options s))%Z)) ∨
     (attempt_at s σ = Some a ∧ σ ≠ X)) →
  budget s'.
Proof.
  intros [Hc Ha Hl Hs] Ho Hn HX Hmv.
  assert (∀ σ a, attempt_at s' σ = Some a →
            σ = Y ∧ attempt_at s X = Some a ∧
            (is_task Y = false → (a < maxConnectionAttempts (options s))%Z)) as Hmv'.
  { intros σ a H. destruct (Hmv σ a H) as [?|[H1 H2]]; [done|].
    destruct H2. apply Hs; eauto. }
  split.
  - by rewrite Hn Ho.
  - intros σ a (_ & H & _)%Hmv'. rewrite Hn. by eapply Ha.
  - intros σ a H Hσ. destruct (Hmv' σ a H) as (-> & _ & Hlt). rewrite Ho. auto.
  - intros σ σ' [a H] [a' H'].
    destruct (Hmv' σ a H) as (-> & _). by destruct (Hmv' σ' a' H') as (-> & _).
Qed.

Lemma attempt_at_defer d s σ : attempt_at (defer d s) σ = attempt_at s σ.
Proof.
  destruct (defer_shape d s) as (P & M & E). apply attempt_at_frame; rewrite E; by fields.
Qed.

Lemma attempt_at_invoke d s σ a :
  attempt_at (invoke d s) σ = Some a → attempt_at s σ = Some a.
Proof.
  destruct d as [key data opts p | key data opts | queueName callback opts];
    cbn [invoke]; unfold rpcExec, publish, consume; destruct (channel s) as [ch|];
    cbn [finish]; rewrite ?attempt_at_defer; try done.
  - unfold rpcExec_ready. destruct (JSON_stringify data); fields; [|done].
    destruct σ as [k|k|k]; cbn [attempt_at]; fields; try done.
    destruct (decide (next s = k)) as [<-|Hne];
      [by rewrite lookup_insert_eq | by rewrite lookup_insert_ne].
  - unfold publish_ready. by destruct (JSON_stringify data).
  - unfold consume_ready. destruct σ as [k|k|k]; cbn [attempt_at]; fields; try done.
    destruct (decide (next s = k)) as [<-|Hne];
      [by rewrite lookup_insert_eq | by rewrite lookup_insert_ne].
Qed.

Lemma budget_step s e : budget s → budget (step s e).
Proof.
  intros Hb. pose proof Hb as [Hc Ha Hl Hs].
  destruct (step_constants s e) as [Ho _].
  destruct (sent_step s e) as (ops & Hsent & _ & Hops).
  assert (connects (step s e) = connects s + count_connects ops) as Hn
    by (unfold connects; by rewrite Hsent count_connects_app).
  destruct e as [key data opts | key data opts | queueName callback opts
                | t connection | t ch | t queue | t | t | ch | message | t | ];
    rewrite Hops in Hn; try rewrite Nat.add_0_r in Hn.
  - apply (budget_sub s); try done. cbn [step]. unfold call_rpcExec. intros σ a.
    intros H%(attempt_at_invoke (DRpcExec key data opts (next s))). exact H.
  - apply (budget_sub s); try done. intros σ a.
    apply (attempt_at_invoke (DPublish key data opts)).
  - apply (budget_sub s); try done. intros σ a.
    apply (attempt_at_invoke (DConsume queueName callback opts)).
  - revert Ho Hn. cbn [step]. unfold connected.
    destruct (tasks s !! t) as [[p a [| | |] | ]|] eqn:Htask; try done. intros Ho Hn.
    apply (budget_move s _ (InTask t) (InTask t)); try done.
    { cbn [attempt_at]. rewrite Htask. eauto. }
    intros [k|k|k] a0; cbn [attempt_at]; fields; [|by right..].
    destruct (decide (t = k)) as [<-|Hne].
    + rewrite lookup_insert_eq Htask. intros [= <-]. by left.
    + rewrite lookup_insert_ne //. right. split; [done | congruence].
  - revert Ho Hn. cbn [step]. unfold channel_created.
    destruct (tasks s !! t) as [[p a [| connection | |] | ]|] eqn:Htask; try done.
    fields. destruct (a <? maxConnectionAttempts (options s))%Z eqn:Hlt; intros Ho Hn.
    + apply Z.ltb_lt in Hlt.
      apply (budget_move s _ (InTask t) (InListener ch)); try done.
      { cbn [attempt_at]. rewrite Htask. eauto. }
      intros [k|k|k] a0; cbn [attempt_at]; fields; [| |by right].
      * destruct (decide (t = k)) as [<-|Hne].
        -- by rewrite lookup_insert_eq.
        -- rewrite lookup_insert_ne //. right. split; [done | congruence].
      * destruct (decide (ch = k)) as [<-|Hne].
        -- rewrite lookup_insert_eq Htask. cbn. intros [= <-]. by left.
        -- rewrite lookup_insert_ne //. by right.
    + apply (budget_sub s); try done.
      intros [k|k|k] a0; cbn [attempt_at]; fields; try done.
      destruct (decide (t = k)) as [<-|Hne];
        [by rewrite lookup_insert_eq | by rewrite lookup_insert_ne].
  - apply (budget_sub s); try done. cbn [step]. unfold queue_asserted.
    destruct (tasks s !! t) as [[p a [| | |] | q c o []]|] eqn:Htask; try done;
      fields; destruct (channel s) as [ch|];
      try (match goal with |- context [reject_promise ?q ?s0] =>
             destruct (reject_promise_shape q s0) as (P & M & ->) end);
      intros [k|k|k] a0; cbn [attempt_at]; fields; try done;
      destruct (decide (t = k)) as [<-|Hne];
      rewrite ?lookup_insert_eq ?lookup_delete_eq //;
      rewrite ?lookup_insert_ne ?lookup_delete_ne //.
  - apply (budget_sub s); try done. cbn [step]. unfold queue_bound.
    destruct (tasks s !! t) as [[p a [| | |] | q c o []]|] eqn:Htask; try done;
      fields; destruct (channel s) as [ch|];
      try (match goal with |- context [reject_promise ?q ?s0] =>
             destruct (reject_promise_shape q s0) as (P & M & ->) end);
      try (match goal with |- context [fulfil ?q ?s0] =>
             destruct (fulfil_shape q s0) as (P & M & ->) end);
      intros [k|k|k] a0; cbn [attempt_at]; fields; try done;
      destruct (decide (t = k)) as [<-|Hne];
      rewrite ?lookup_delete_eq //; rewrite ?lookup_delete_ne //.
  - apply (budget_sub s); try done. cbn [step]. unfold transport_failed.
    destruct (tasks s !! t) as [[p a ph | q c o ph]|] eqn:Htask; try done;
      try (match goal with |- context [reject_promise ?q ?s0] =>
             destruct (reject_promise_shape q s0) as (P & M & ->) end);
      intros [k|k|k] a0; cbn [attempt_at]; fields; try done;
      destruct (decide (t = k)) as [<-|Hne];
      rewrite ?lookup_delete_eq //; rewrite ?lookup_delete_ne //.
  - revert Ho Hn. cbn [step]. unfold channel_error.
    destruct (listeners s !! ch) as [l|] eqn:Hlis; [|intros; by apply (budget_sub s)].
    unfold on_channel_error. fields. intros Ho Hn.
    assert (attempt_at s (InListener ch) = Some (l_promise_attempts l)) as HX
      by (cbn [attempt_at]; by rewrite Hlis).
    apply (budget_move s _ (InListener ch) (InTimer (S (next s)))); try done.
    intros [k|k|k] a0; cbn [attempt_at]; fields; [by right | |].
    + destruct (decide (ch = k)) as [<-|Hne].
      * by rewrite lookup_delete_eq.
      * rewrite lookup_delete_ne //. right. split; [done | congruence].
    + destruct (decide (S (next s) = k)) as [<-|Hne].
      * rewrite lookup_insert_eq. cbn. intros [= <-]. left.
        split_and!; [done | done |]. intros _. by apply (Hl (InListener ch)).
      * rewrite lookup_insert_ne //. by right.
  - apply (budget_sub s); try done. cbn [step]. unfold deliver, _handleReply.
    destruct (correlationId message) as [id|]; [|done].
    destruct (unresolved s !! id) as [cb|]; [|done].
    match goal with |- context [reply_callback ?c ?m ?s0] =>
      pose proof (reply_callback_outcome c m s0) as E;
      destruct (reply_callback c m s0) as [s1 [err|]] end;
      cbn [fst] in E; subst s1;
      intros [k|k|k] a0; cbn [attempt_at]; fields; try done;
      (destruct (decide (cb_timer cb = k)) as [<-|Hne];
       [by rewrite lookup_delete_eq | by rewrite lookup_delete_ne]).
  - revert Ho Hn. cbn [step]. unfold fire.
    destruct (timers s !! t) as [[h dl]|] eqn:Htm;
      [|intros; rewrite Nat.add_0_r in Hn; by apply (budget_sub s)].
    destruct h as [id p ms | p a]; cbn [handler fmap option_fmap option_map].
    + intros Ho Hn. rewrite Nat.add_0_r in Hn. apply (budget_sub s); try done.
      unfold rpc_timeout. intros [k|k|k] a0; cbn [attempt_at]; fields; try done.
      destruct (decide (t = k)) as [<-|Hne];
        [by rewrite lookup_delete_eq | by rewrite lookup_delete_ne].
    + unfold _connect. fields. intros Ho Hn.
      assert (attempt_at s (InTimer t) = Some a) as HX
        by (cbn [attempt_at]; by rewrite Htm).
      pose proof (Ha _ _ HX) as Ea. pose proof (Hl _ _ HX eq_refl) as Hlt.
      assert (∀ σ a', attempt_at (set_next (S (next s))
                 (set_tasks (<[next s := ConnectTask p (a + 1) AwaitConnect]> (tasks s))
                    (set_sent (sent s ++ [OpConnect])
                       (set_timers (delete t (timers s)) s)))) σ = Some a' →
               σ = InTask (next s) ∧ a' = (a + 1)%Z) as Hone.
      { intros [k|k|k] a'; cbn [attempt_at]; fields.
        - destruct (decide (next s = k)) as [<-|Hne].
          + rewrite lookup_insert_eq. by intros [= <-].
          + rewrite lookup_insert_ne //. intros H.
            assert (InTask k = InTimer t) as [=]. apply Hs; [|by eauto].
            cbn [attempt_at]. by eauto.
        - intros H. assert (InListener k = InTimer t) as [=]. apply Hs; [|by eauto].
          cbn [attempt_at]. by eauto.
        - destruct (decide (t = k)) as [<-|Hne].
          + by rewrite lookup_delete_eq.
          + rewrite lookup_delete_ne //. intros H.
            assert (InTimer k = InTimer t) as [= E]; [|done]. apply Hs; [|by eauto].
            cbn [attempt_at]. by eauto. }
      split.
      * rewrite Hn. fields. lia.
      * intros σ a' [-> ->]%Hone. rewrite Hn. lia.
      * intros σ a' [-> ->]%Hone. done.
      * intros σ σ' [a1 [-> _]%Hone] [a2 [-> _]%Hone]. done.
  - apply (budget_sub s); try done. cbn [step]. unfold run_job.
    destruct (microtasks s) as [|r rest]; [done|].
    destruct r as [w | d].
    + match goal with |- context [fulfil ?q ?s0] =>
        destruct (fulfil_shape q s0) as (P & M & ->) end.
      intros σ a H. exact H.
    + intros σ a H%attempt_at_invoke. exact H.
Qed.

Lemma budget_init o exch : budget (init o exch).
Proof.
  assert (∀ σ a, attempt_at (init o exch) σ = Some a → σ = InTask 1 ∧ a = 1%Z) as Hone.
  { rewrite init_state. intros [k|k|k] a; cbn [attempt_at]; fields.
    - destruct (decide (1 = k)) as [<-|Hne].
      + rewrite lookup_singleton_eq. by intros [= <-].
      + by rewrite lookup_singleton_ne.
    - by rewrite lookup_empty.
    - by rewrite lookup_empty. }
  assert (connects (init o exch) = 1) as Hn by (by rewrite init_state).
  split.
  - rewrite Hn. lia.
  - intros σ a [_ ->]%Hone. by rewrite Hn.
  - by intros σ a [-> _]%Hone.
  - intros σ σ' [a [-> _]%Hone] [a' [-> _]%Hone]. done.
Qed.

(** X5. Over its whole life a client calls [AMQP.connect] at most
    [maxConnectionAttempts] times (once when the limit is below one): the
    attempts are counted across successful reconnections and the count is
    never reset. *)
Theorem connection_attempts_are_bounded (o : UserConnectionOptions) (exch : string)
    (tr : list Event) :
  let s := run (init o exch) tr in
  1 ≤ connects s ∧
  (Z.of_nat (connects s) ≤ Z.max 1 (maxConnectionAttempts (merge_connection_options o)))%Z.
Proof.
  intros s.
  assert (∀ s0, budget s0 → budget (run s0 tr)) as Hrun.
  { induction tr as [|e tr IH]; intros s0 Hb; [done|]. by apply IH, budget_step. }
  assert (options s = merge_connection_options o) as <-.
  { unfold s. clear. assert (∀ s0, options (run s0 tr) = options s0) as H.
    { induction tr as [|e tr IH]; intros s0; [done|].
      cbn [run foldl]. fold (run (step s0 e) tr).
      by rewrite IH (proj1 (step_constants s0 e)). }
    by rewrite H init_state. }
  apply (bd_count s), Hrun, budget_init.
Qed.

(** ** The reply address of a request *)

Lemma replyQueue_step s e :
  (∀ t queue, e ≠ EvQueueAsserted t queue) → replyQueue (step s e) = replyQueue s.
Proof.
  intros He.
  assert (∀ d s0, replyQueue (invoke d s0) = replyQueue s0) as Hinv.
  { intros d s0. destruct d as [key data opts p | key data opts | queueName callback opts];
      cbn [invoke]; unfold rpcExec, publish, consume; destruct (channel s0) as [ch|];
      unfold rpcExec_ready, publish_ready; try destruct (JSON_stringify data);
      cbn [finish new_Buffer]; try done;
      match goal with |- context [defer ?d ?s1] =>
        destruct (defer_shape d s1) as (P & M & ->) end; by fields. }
  destruct e as [key data opts | key data opts | queueName callback opts
                | t connection | t ch | t queue | t | t | ch | message | t | ];
    cbn [step].
  - unfold call_rpcExec.
    apply (Hinv (DRpcExec key data opts (next s)) (set_next (S (next s)) s)).
  - apply (Hinv (DPublish key data opts) s).
  - apply (Hinv (DConsume queueName callback opts) s).
  - unfold connected. by destruct (tasks s !! t) as [[p a [| | |] | ]|].
  - unfold channel_created.
    destruct (tasks s !! t) as [[p a [| connection | |] | ]|]; try done.
    fields. by case_match.
  - by destruct (He t queue).
  - unfold queue_bound.
    destruct (tasks s !! t) as [[p a [| | |] | q c o []]|]; try done;
      fields; destruct (channel s) as [ch|]; try done.
    + match goal with |- context [fulfil ?q ?s0] =>
        destruct (fulfil_shape q s0) as (P & M & ->) end. by fields.
    + match goal with |- context [reject_promise ?q ?s0] =>
        destruct (reject_promise_shape q s0) as (P & M & ->) end. by fields.
  - unfold transport_failed.
    destruct (tasks s !! t) as [[p a ph | q c o ph]|]; try done.
    match goal with |- context [reject_promise ?q ?s0] =>
      destruct (reject_promise_shape q s0) as (P & M & ->) end. by fields.
  - unfold channel_error. by destruct (listeners s !! ch) as [l|].
  - unfold deliver, _handleReply.
    destruct (correlationId message) as [id|]; [|done].
    destruct (unresolved s !! id) as [cb|]; [|done].
    match goal with |- context [reply_callback ?c ?m ?s0] =>
      pose proof (reply_callback_outcome c m s0) as E;
      destruct (reply_callback c m s0) as [s1 [err|]] end;
      cbn [fst] in E; by subst s1.
  - unfold fire. destruct (timers s !! t) as [[h dl]|]; [|done].
    by destruct h as [id p ms | p attempts].
  - unfold run_job. destruct (microtasks s) as [|r rest]; [done|].
    destruct r as [w | d]; [|apply (Hinv d (set_microtasks rest s))].
    match goal with |- context [fulfil ?q ?s0] =>
      destruct (fulfil_shape q s0) as (P & M & ->) end. by fields.
Qed.

(** X6. [rpcExec] is gated on [this.channel] alone, which is set
    before the reply queue is asserted: a call made once the first channel
    is created and before its [assertQueue] has answered is not deferred,
    and its request, when the payload can be serialised, is published with
    [replyTo] undefined. *)
Theorem request_before_reply_queue (o : UserConnectionOptions) (exch : string)
    (tr : list Event) (ch : nat) (key : string) (data content : value)
    (opts : RpcOptions) :
  let s := run (init o exch) tr in
  (∀ t queue, EvQueueAsserted t queue ∉ tr) →
  channel s = Some ch →
  JSON_stringify data = Some content →
  ∃ so, sent (step s (EvRpcExec key data opts)) =
          sent s ++ [OpPublish ch exch key content (Some so)] ∧
        so !! "replyTo" = Some VUndefined.
Proof.
  intros s Hno Hch Hjson.
  assert (∀ s0, replyQueue (run s0 tr) = replyQueue s0 ∧ exchange (run s0 tr) = exchange s0)
    as Hrun.
  { clear s Hch. induction tr as [|e tr IH]; intros s0; [done|].
    cbn [run foldl]. fold (run (step s0 e) tr).
    destruct (IH (λ t q H, Hno t q (list_elem_of_further _ _ _ H)) (step s0 e)) as [-> ->].
    rewrite (proj2 (step_constants s0 e)). split; [|done].
    apply replyQueue_step. intros t q ->. apply (Hno t q). by left. }
  destruct (Hrun (init o exch)) as [Hrq Hex]. fold s in Hrq, Hex.
  rewrite init_state in Hrq, Hex. fields in Hrq. fields in Hex.
  destruct (call_ready s ch key data content opts Hch Hjson) as (_ & _ & Hsent & _).
  rewrite Hsent Hrq Hex. eexists. split; [done|].
  unfold sendOptions, Object_assign. done.
Qed.

(** ** Colliding correlation ids *)

(** X7. The registry is keyed by correlation id and never checked
    for collisions.  When two calls made in a row on a ready channel, with
    payloads that can be serialised, get the same id, the entry of the
    first is overwritten by the second while the timer of the first stays
    armed: a reply settles the second call, and the timeout of the first
    call removes the entry of the second, so that a reply coming after it
    is dropped. *)
Theorem colliding_ids_share_an_entry (s : State) (ch : nat) (key1 key2 : string)
    (data1 data2 content1 content2 : value) (opts1 opts2 : RpcOptions) :
  channel s = Some ch →
  JSON_stringify data1 = Some content1 → JSON_stringify data2 = Some content2 →
  Uuid_v4 (S (uuidCount s)) = Uuid_v4 (uuidCount s) →
  let id := Uuid_v4 (uuidCount s) in
  let p1 := next s in
  let t1 := S (next s) in
  let p2 := S (S (next s)) in
  let t2 := S (S (S (next s))) in
  let s2 := step (step s (EvRpcExec key1 data1 opts1)) (EvRpcExec key2 data2 opts2) in
  unresolved s2 !! id = Some {| cb_timer := t2; cb_promise := p2 |} ∧
  timers s2 !! t1 =
    Some {| handler := RpcTimeout id p1 (effective_timeout opts1);
            delay := effective_timeout opts1 |} ∧
  (∀ m x, correlationId m = Some id → reply_outcome m = Some x →
     settlements (step s2 (EvMessage m)) = settlements s ++ [(p2, x)]) ∧
  unresolved (step s2 (EvTimer t1)) !! id = None ∧
  (∀ m, correlationId m = Some id →
     step (step s2 (EvTimer t1)) (EvMessage m) = step s2 (EvTimer t1)).
Proof.
  intros Hch Hjson1 Hjson2 Hid id p1 t1 p2 t2 s2.
  set (s1 := step s (EvRpcExec key1 data1 opts1)) in *.
  destruct (call_ready s ch key1 data1 content1 opts1 Hch Hjson1)
    as (Ht1 & Hu1 & _ & Hs1 & _ & _ & Hn1 & Hc1).
  fold s1 id p1 t1 in Ht1, Hu1, Hs1, Hn1, Hc1.
  assert (channel s1 = Some ch) as Hch1.
  { unfold s1. cbn [step]. unfold call_rpcExec, rpcExec. fields. rewrite Hch.
    unfold rpcExec_ready. rewrite Hjson1. by fields. }
  destruct (call_ready s1 ch key2 data2 content2 opts2 Hch1 Hjson2)
    as (Ht2 & Hu2 & _ & Hs2 & _).
  fold s2 in Ht2, Hu2, Hs2. rewrite Hn1 Hc1 Hid in Ht2, Hu2. fold id p2 t2 in Ht2, Hu2.
  assert (unresolved s2 !! id = Some {| cb_timer := t2; cb_promise := p2 |}) as Hentry
    by (rewrite Hu2; apply lookup_insert_eq).
  assert (timers s2 !! t1 =
            Some {| handler := RpcTimeout id p1 (effective_timeout opts1);
                    delay := effective_timeout opts1 |}) as Htimer.
  { rewrite Ht2 lookup_insert_ne; [unfold t1, t2; lia|]. rewrite Ht1. apply lookup_insert_eq. }
  destruct (timer_fires s2 t1 _ _ _ _ Htimer) as (_ & Hgone & _).
  assert (unresolved (step s2 (EvTimer t1)) !! id = None) as Hnone
    by (rewrite Hgone; apply lookup_delete_eq).
  split_and!; [done | done | | done |].
  - intros m x Hm Hx.
    destruct (reply_arrives s2 m id _ Hm Hentry) as (_ & _ & ->).
    by rewrite Hx Hs2 Hs1.
  - intros m Hm. cbn [step]. unfold deliver, _handleReply. by rewrite Hm Hnone.
Qed.

(** ** Subscriptions *)

(** X8. [consume] on a ready channel asserts the queue, binds it to
    the exchange under its own name once the queue is asserted, and
    subscribes once it is bound, with the caller's options laid over the
    default [{noAck: true}]: [noAck] is [true] unless the caller sets it,
    and every other option is the caller's. *)
Theorem consume_subscribes (s : State) (ch : nat) (queueName created : string)
    (callback : nat) (opts : Obj) :
  channel s = Some ch →
  let t := next s in
  let s3 := run s [EvConsume queueName callback opts; EvQueueAsserted t created;
                   EvQueueBound t] in
  sent s3 =
    sent s ++ [OpAssertQueue ch queueName false;
               OpBindQueue ch queueName (exchange s) queueName;
               OpConsume ch (Some queueName) (UserConsumer callback)
                 (Object_assign DEFAULT_CONSUME_OPTIONS opts)] ∧
  uncaught s3 = uncaught s ∧
  Object_assign DEFAULT_CONSUME_OPTIONS opts !! "noAck" =
    Some (default (VBool true) (opts !! "noAck")) ∧
  ∀ k, k ≠ "noAck" → Object_assign DEFAULT_CONSUME_OPTIONS opts !! k = opts !! k.
Proof.
  intros Hch t s3. split_and!.
  - unfold s3. cbn [run foldl step]. unfold consume. rewrite Hch. unfold consume_ready.
    unfold queue_asserted. fields. rewrite lookup_insert_eq ?Hch. fields.
    unfold queue_bound. fields. rewrite lookup_insert_eq ?Hch. fields.
    by rewrite -!app_assoc.
  - unfold s3. cbn [run foldl step]. unfold consume. rewrite Hch. unfold consume_ready.
    unfold queue_asserted. fields. rewrite lookup_insert_eq ?Hch. fields.
    unfold queue_bound. fields. rewrite lookup_insert_eq ?Hch. by fields.
  - unfold Object_assign, DEFAULT_CONSUME_OPTIONS. rewrite lookup_union.
    rewrite lookup_singleton_eq. by destruct (opts !! "noAck").
  - intros k Hk. unfold Object_assign, DEFAULT_CONSUME_OPTIONS. rewrite lookup_union.
    rewrite lookup_singleton_ne //. by destruct (opts !! k).
Qed.

(** X9. [consume] reads [this.channel] again at each step of its
    chain and the chain has no rejection handler.  When the channel fails
    with retries left while the queue is being asserted, the subscription
    is abandoned: the queue is neither bound nor consumed from, the
    TypeError of the continuation is an unhandled rejection, and the call
    is not taken up again by the reconnection. *)
Theorem consume_is_abandoned_on_channel_error (s : State) (ch : nat) (l : Listener)
    (queueName created : string) (callback : nat) (opts : Obj) :
  channel s = Some ch → listeners s !! ch = Some l →
  let t := next s in
  let s3 := run s [EvConsume queueName callback opts; EvChannelError ch;
                   EvQueueAsserted t created] in
  sent s3 = sent s ++ [OpAssertQueue ch queueName false; OpClose (l_connection l)] ∧
  uncaught s3 = uncaught s ++ [TypeError] ∧
  tasks s3 = delete t (tasks s) ∧
  microtasks s3 = microtasks s ∧
  promises s3 = <[S (next s) := {| status := Pending; reactions := [] |}]> (promises s) ∧
  channel s3 = None.
Proof.
  intros Hch Hl t s3.
  unfold s3. cbn [run foldl step]. unfold consume. rewrite Hch. unfold consume_ready.
  unfold channel_error. fields. rewrite Hl. unfold on_channel_error. fields.
  unfold queue_asserted. fields. rewrite lookup_insert_eq. fields.
  split_and!; try done.
  - by rewrite -!app_assoc.
  - by rewrite delete_insert_eq.
Qed.

(** ** When the budget is spent *)

Lemma spent_step s e : spent s → spent (step s e) ∧ channel (step s e) = channel s.
Proof.
  intros Hsp.
  assert (∀ t p a, tasks s !! t = Some (ConnectTask p a AwaitConnect) → False) as Hno1.
  { intros t p a H. specialize (Hsp (InTask t)). cbn [attempt_at] in Hsp. by rewrite H in Hsp. }
  assert (∀ t p a c, tasks s !! t = Some (ConnectTask p a (AwaitCreateChannel c)) → False)
    as Hno2.
  { intros t p a c H. specialize (Hsp (InTask t)). cbn [attempt_at] in Hsp.
    by rewrite H in Hsp. }
  assert (∀ ch l, listeners s !! ch = Some l → False) as Hno3.
  { intros ch l H. specialize (Hsp (InListener ch)). cbn [attempt_at] in Hsp.
    by rewrite H in Hsp. }
  assert (∀ t p a d, timers s !! t = Some {| handler := RetryConnect p a; delay := d |} →
                     False) as Hno4.
  { intros t p a d H. specialize (Hsp (InTimer t)). cbn [attempt_at] in Hsp.
    by rewrite H in Hsp. }
  assert (∀ s', (∀ σ a, attempt_at s' σ = Some a → attempt_at s σ = Some a) → spent s')
    as Hsub.
  { intros s' H σ. destruct (attempt_at s' σ) as [a|] eqn:E; [|done].
    apply H in E. by rewrite Hsp in E. }
  assert (∀ d s0, channel (invoke d s0) = channel s0) as Hinv.
  { intros d s0. destruct d as [key data opts p | key data opts | queueName callback opts];
      cbn [invoke]; unfold rpcExec, publish, consume; destruct (channel s0) as [ch|] eqn:E;
      unfold rpcExec_ready, publish_ready; try destruct (JSON_stringify data);
      cbn [finish new_Buffer]; try done;
      try (match goal with |- context [defer ?d ?s1] =>
             destruct (defer_shape d s1) as (P & M & ->) end; by fields). }
  destruct e as [key data opts | key data opts | queueName callback opts
                | t connection | t ch | t queue | t | t | ch | message | t | ];
    cbn [step].
  - split.
    + apply Hsub. unfold call_rpcExec. intros σ a.
      intros H%(attempt_at_invoke (DRpcExec key data opts (next s))). exact H.
    + unfold call_rpcExec.
      apply (Hinv (DRpcExec key data opts (next s)) (set_next (S (next s)) s)).
  - split; [|apply (Hinv (DPublish key data opts))].
    apply Hsub. intros σ a. apply (attempt_at_invoke (DPublish key data opts)).
  - split; [|apply (Hinv (DConsume queueName callback opts))].
    apply Hsub. intros σ a. apply (attempt_at_invoke (DConsume queueName callback opts)).
  - unfold connected.
    destruct (tasks s !! t) as [[p a [| | |] | ]|] eqn:Htask; try done.
    by destruct (Hno1 _ _ _ Htask).
  - unfold channel_created.
    destruct (tasks s !! t) as [[p a [| connection | |] | ]|] eqn:Htask; try done.
    by destruct (Hno2 _ _ _ _ Htask).
  - unfold queue_asserted.
    destruct (tasks s !! t) as [[p a [| | |] | q c o []]|] eqn:Htask; try done;
      fields; destruct (channel s) as [ch|] eqn:Hch;
      try (match goal with |- context [reject_promise ?q ?s0] =>
             destruct (reject_promise_shape q s0) as (P & M & ->) end);
      (split; [|by fields]); apply Hsub;
      intros [k|k|k] a0; cbn [attempt_at]; fields; try done;
      destruct (decide (t = k)) as [<-|Hne];
      rewrite ?lookup_insert_eq ?lookup_delete_eq //;
      rewrite ?lookup_insert_ne ?lookup_delete_ne //.
  - unfold queue_bound.
    destruct (tasks s !! t) as [[p a [| | |] | q c o []]|] eqn:Htask; try done;
      fields; destruct (channel s) as [ch|] eqn:Hch;
      try (match goal with |- context [reject_promise ?q ?s0] =>
             destruct (reject_promise_shape q s0) as (P & M & ->) end);
      try (match goal with |- context [fulfil ?q ?s0] =>
             destruct (fulfil_shape q s0) as (P & M & ->) end);
      (split; [|by fields]); apply Hsub;
      intros [k|k|k] a0; cbn [attempt_at]; fields; try done;
      destruct (decide (t = k)) as [<-|Hne];
      rewrite ?lookup_delete_eq //; rewrite ?lookup_delete_ne //.
  - unfold transport_failed.
    destruct (tasks s !! t) as [[p a ph | q c o ph]|] eqn:Htask; try done;
      try (match goal with |- context [reject_promise ?q ?s0] =>
             destruct (reject_promise_shape q s0) as (P & M & ->) end);
      (split; [|by fields]); apply Hsub;
      intros [k|k|k] a0; cbn [attempt_at]; fields; try done;
      destruct (decide (t = k)) as [<-|Hne];
      rewrite ?lookup_delete_eq //; rewrite ?lookup_delete_ne //.
  - unfold channel_error.
    destruct (listeners s !! ch) as [l|] eqn:Hlis; [by destruct (Hno3 _ _ Hlis)|].
    split; [|done]. by apply Hsub.
  - unfold deliver, _handleReply.
    destruct (correlationId message) as [id|]; [|done].
    destruct (unresolved s !! id) as [cb|]; [|done].
    match goal with |- context [reply_callback ?c ?m ?s0] =>
      pose proof (reply_callback_outcome c m s0) as E;
      destruct (reply_callback c m s0) as [s1 [err|]] end;
      cbn [fst] in E; subst s1; (split; [|by fields]); apply Hsub;
      intros [k|k|k] a0; cbn [attempt_at]; fields; try done;
      (destruct (decide (cb_timer cb = k)) as [<-|Hne];
       [by rewrite lookup_delete_eq | by rewrite lookup_delete_ne]).
  - unfold fire. destruct (timers s !! t) as [[h dl]|] eqn:Htm; [|done].
    destruct h as [id p ms | p a]; cbn [handler]; [|by destruct (Hno4 _ _ _ _ Htm)].
    unfold rpc_timeout. split; [|by fields]. apply Hsub.
    intros [k|k|k] a0; cbn [attempt_at]; fields; try done.
    destruct (decide (t = k)) as [<-|Hne];
      [by rewrite lookup_delete_eq | by rewrite lookup_delete_ne].
  - unfold run_job. destruct (microtasks s) as [|r rest]; [done|].
    destruct r as [w | d].
    + match goal with |- context [fulfil ?q ?s0] =>
        destruct (fulfil_shape q s0) as (P & M & ->) end.
      split; [|by fields]. apply Hsub. intros σ a H. exact H.
    + split; [|apply (Hinv d (set_microtasks rest s))].
      apply Hsub. intros σ a H%attempt_at_invoke. exact H.
Qed.

Lemma budget_run s tr : budget s → budget (run s tr).
Proof.
  revert s. induction tr as [|e tr IH]; intros s Hb; [done|]. by apply IH, budget_step.
Qed.

(** X10. When an attempt whose number has reached
    [maxConnectionAttempts] creates its channel it registers no [error]
    listener, and from then on nothing replaces that channel: whatever
    happens, [this.channel] stays set to it, so that calls are sent on it
    and never deferred, no [error] listener exists, and [AMQP.connect] is
    not called again. *)
Theorem last_channel_is_kept (o : UserConnectionOptions) (exch : string)
    (tr0 : list Event) (t p : nat) (a : Z) (connection ch : nat) :
  let s := run (init o exch) tr0 in
  tasks s !! t = Some (ConnectTask p a (AwaitCreateChannel connection)) →
  (maxConnectionAttempts (options s) ≤ a)%Z →
  ∀ tr,
    let s' := run (step s (EvChannelCreated t ch)) tr in
    channel s' = Some ch ∧ listeners s' = ∅ ∧ connects s' = connects s.
Proof.
  intros s Htask Hmax tr.
  assert (budget s) as Hb by apply budget_run, budget_init.
  assert (attempt_at s (InTask t) = Some a) as HX by (cbn [attempt_at]; by rewrite Htask).
  set (s1 := step s (EvChannelCreated t ch)).
  assert (spent s1 ∧ channel s1 = Some ch ∧ connects s1 = connects s) as (Hsp & Hch & Hn).
  { unfold s1. cbn [step]. unfold channel_created. rewrite Htask. fields.
    assert ((a <? maxConnectionAttempts (options s))%Z = false) as -> by (apply Z.ltb_ge; lia).
    split_and!; [|done|].
    - intros [k|k|k]; cbn [attempt_at]; fields.
      + destruct (decide (t = k)) as [<-|Hne]; [by rewrite lookup_insert_eq|].
        rewrite lookup_insert_ne //.
        destruct (attempt_at s (InTask k)) as [a'|] eqn:E; [|done].
        assert (InTask k = InTask t) as [= ->]; [|done].
        apply (bd_single s Hb); eauto.
      + destruct (attempt_at s (InListener k)) as [a'|] eqn:E; [|done].
        assert (InListener k = InTask t) as [=]. apply (bd_single s Hb); eauto.
      + destruct (attempt_at s (InTimer k)) as [a'|] eqn:E; [|done].
        assert (InTimer k = InTask t) as [=]. apply (bd_single s Hb); eauto.
    - unfold connects. fields. rewrite count_connects_app.
      change (count_connects [OpAssertQueue ch "" true]) with 0. lia. }
  assert (∀ s0, spent s0 →
            spent (run s0 tr) ∧ channel (run s0 tr) = channel s0 ∧
            connects (run s0 tr) = connects s0) as Hrun.
  { clear. induction tr as [|e tr IH]; intros s0 Hsp; [done|].
    cbn [run foldl]. fold (run (step s0 e) tr).
    destruct (spent_step s0 e Hsp) as [Hsp' Hch'].
    destruct (IH _ Hsp') as (H1 & -> & ->). split_and!; [done | done |].
    destruct (sent_step s0 e) as (ops & Hsent & _ & Hops).
    unfold connects. rewrite Hsent count_connects_app Hops.
    destruct e as [| | | | | | | | | |t'|]; try lia.
    destruct (timers s0 !! t') as [[[id p' ms | p' a'] dl]|] eqn:Htm;
      cbn [handler fmap option_fmap option_map]; try lia.
    specialize (Hsp (InTimer t')). cbn [attempt_at] in Hsp. by rewrite Htm in Hsp. }
  destruct (Hrun s1 Hsp) as (Hsp' & Hch' & Hn').
  split_and!; [congruence | | congruence].
  apply map_eq. intros k. rewrite lookup_empty.
  specialize (Hsp' (InListener k)). cbn [attempt_at] in Hsp'.
  by destruct (listeners _ !! k).
Qed.

(** ** Acknowledgements *)

(** X11. The consumer of [consume] hands the callback the parsed
    body of the message and an [ack] that reads [this.channel] when it is
    called, not when the message was delivered.  After the channel the
    message came from has failed, [ack] throws while the client
    reconnects, and once the next attempt has created its channel it
    acknowledges the message on that new channel. *)
Theorem ack_uses_the_current_channel (s : State) (ch : nat) (l : Listener)
    (callback : nat) (message : Message) (m : Parsed) (connection ch' : nat) :
  listeners s !! ch = Some l → user_consumer callback message = inr (callback, m) →
  let t := S (next s) in
  let k := S (S (next s)) in
  parsed message = Some (content m) ∧
  ack m (step s (EvChannelError ch)) = inl TypeError ∧
  ack m (run s [EvChannelError ch; EvTimer t; EvConnected k connection;
                EvChannelCreated k ch']) = inr (ch', message).
Proof.
  intros Hl Hm t k.
  assert (parsed message = Some (content m) ∧ source m = message) as [Hbody Hsrc].
  { unfold user_consumer, _parseMessage in Hm. destruct (parsed message); [|done].
    by injection Hm as <-. }
  split_and!; [done | |].
  - unfold ack. cbn [step]. unfold channel_error. rewrite Hl. unfold on_channel_error.
    by fields.
  - unfold ack. cbn [run foldl step]. unfold channel_error. rewrite Hl.
    unfold on_channel_error. fields. unfold fire. fields. rewrite lookup_insert_eq.
    cbn [handler]. unfold _connect. fields. unfold connected. fields.
    rewrite lookup_insert_eq. fields. unfold channel_created. fields.
    rewrite lookup_insert_eq. fields. rewrite Hsrc.
    by destruct (_ <? _)%Z.
Qed.

(** ** Calls made while the client reconnects *)

Lemma run_constants s tr :
  options (run s tr) = options s ∧ exchange (run s tr) = exchange s.
Proof.
  revert s. induction tr as [|e tr IH]; intros s; [done|].
  cbn [run foldl]. fold (run (step s e) tr).
  destruct (IH (step s e)) as [-> ->]. apply step_constants.
Qed.

Lemma reconnection_drains s ch l calls1 calls2 connection ch' queue :
  (∀ q, is_Some (promises s !! q) → q < next s) →
  listeners s !! ch = Some l → microtasks s = [] →
  Forall is_call calls1 → Forall is_call calls2 →
  let t := S (next s) in
  let tr1 := EvChannelError ch :: calls1 in
  let k := next (run s tr1) in
  let tr := tr1 ++ EvTimer t :: calls2 in
  let waiting := run s tr in
  let ds := deferred s tr in
  let ready :=
    run waiting [EvConnected k connection; EvChannelCreated k ch';
                 EvQueueAsserted k queue; EvQueueBound k] in
  (length ds = length calls1 + length calls2 ∧
   channel waiting = None ∧
   sent waiting = sent s ++ [OpClose (l_connection l); OpConnect] ∧
   settlements waiting = settlements s ∧ uncaught waiting = uncaught s) ∧
  (channel ready = Some ch' ∧ replyQueue ready = Some queue ∧
   sent ready =
     sent waiting ++
       [OpCreateChannel connection; OpAssertQueue ch' "" true;
        OpBindQueue ch' queue (exchange s) queue;
        OpConsume ch' (Some queue) ReplyConsumer DEFAULT_CONSUME_OPTIONS]) ∧
  ∃ P, run ready (replicate (2 * length ds) EvJob) =
         foldl (λ s d, invoke_ready ch' d s) (set_microtasks [] (set_promises P ready)) ds.
Proof.
  intros Hlt Hl Hmt Hc1 Hc2 t tr1 k tr waiting ds ready.
  set (p := next s) in *. set (a := l_promise_attempts l).
  (* the listener runs *)
  set (s1 := step s (EvChannelError ch)).
  assert (channel s1 = None ∧ channelPromise s1 = p ∧ next s1 = S (S p) ∧
          promises s1 = <[p := {| status := Pending; reactions := [] |}]> (promises s) ∧
          microtasks s1 = [] ∧
          timers s1 !! t =
            Some {| handler := RetryConnect p a;
                    delay := connectionRetryInterval (options s) |} ∧
          sent s1 = sent s ++ [OpClose (l_connection l)] ∧
          settlements s1 = settlements s ∧ uncaught s1 = uncaught s ∧
          exchange s1 = exchange s)
    as (Hch1 & Hcp1 & Hn1 & Hpr1 & Hmt1 & Ht1 & Hsent1 & Hst1 & Hun1 & Hex1).
  { unfold s1. cbn [step]. unfold channel_error. rewrite Hl. unfold on_channel_error.
    fields. rewrite lookup_insert_eq. by rewrite Hmt. }
  destruct (calls_deferred calls1 s1 [] []) as (P1 & n1 & ws1 & Hrun1 & Hw1);
    [done | done | |].
  { rewrite Hpr1 Hn1 Hcp1. split_and!.
    - by rewrite lookup_insert_eq.
    - constructor.
    - constructor.
    - by intros ?%elem_of_nil.
    - intros q [<- | [_ H%Hlt]]%lookup_insert_is_Some; lia. }
  cbn [app] in Hw1. rewrite Hcp1 in Hw1.
  assert (run s tr1 = set_next n1 (set_promises P1 s1)) as Htr1 by exact Hrun1.
  assert (k = n1) as Hk by (unfold k; by rewrite Htr1).
  (* the retry timer fires *)
  set (s_b := step (run s tr1) (EvTimer t)).
  assert (channel s_b = None ∧ channelPromise s_b = p ∧ next s_b = S n1 ∧
          promises s_b = P1 ∧ microtasks s_b = [] ∧
          tasks s_b !! k = Some (ConnectTask p (a + 1) AwaitConnect) ∧
          sent s_b = sent s ++ [OpClose (l_connection l); OpConnect] ∧
          settlements s_b = settlements s ∧ uncaught s_b = uncaught s ∧
          exchange s_b = exchange s)
    as (Hchb & Hcpb & Hnb & Hprb & Hmtb & Htkb & Hsentb & Hstb & Hunb & Hexb).
  { unfold s_b. rewrite Htr1 Hk. cbn [step]. unfold fire. fields. rewrite Ht1.
    cbn [handler]. unfold _connect. fields. rewrite lookup_insert_eq.
    rewrite Hsent1 -app_assoc. done. }
  assert (n1 ≤ S n1) as Hle by lia.
  pose proof (waiting_on_weaken _ _ _ _ _ _ Hle Hw1) as Hwb.
  destruct (calls_deferred calls2 s_b ws1 (deferred s1 calls1))
    as (P2 & n2 & ws2 & Hrun2 & Hw2); [done | done | by rewrite Hprb Hnb Hcpb |].
  rewrite Hcpb in Hw2.
  assert (waiting = set_next n2 (set_promises P2 s_b)) as Hwaiting.
  { unfold waiting, tr. rewrite run_app. cbn [run foldl]. exact Hrun2. }
  assert (ds = deferred s1 calls1 ++ deferred s_b calls2) as Hds.
  { unfold ds, tr. rewrite deferred_app. done. }
  destruct Hw2 as (Hcp & Hws & Hnd & Hnin & Hlt2). rewrite -Hds in Hws.
  pose proof (Forall2_length _ _ _ Hws) as Hlen.
  (* the channel is set up *)
  assert (channel ready = Some ch' ∧ replyQueue ready = Some queue ∧
          sent ready =
            sent waiting ++
              [OpCreateChannel connection; OpAssertQueue ch' "" true;
               OpBindQueue ch' queue (exchange s) queue;
               OpConsume ch' (Some queue) ReplyConsumer DEFAULT_CONSUME_OPTIONS] ∧
          microtasks ready = RResolve <$> (ws1 ++ ws2) ∧
          promises ready = <[p := {| status := Fulfilled; reactions := [] |}]> P2)
    as (Hchr & Hrqr & Hsentr & Hmtr & Hprr).
  { unfold ready. rewrite Hwaiting. cbn [run foldl step]. unfold connected. fields.
    rewrite Htkb. fields. unfold channel_created. fields. rewrite lookup_insert_eq. fields.
    destruct (a + 1 <? maxConnectionAttempts (options s_b))%Z;
      unfold queue_asserted; fields; rewrite lookup_insert_eq; fields;
      unfold queue_bound; fields; rewrite lookup_insert_eq; fields;
      unfold fulfil; fields; rewrite Hcp; cbn [status reactions]; fields;
      rewrite Hmtb Hexb -!app_assoc; done. }
  split_and!; try done.
  - rewrite Hds length_app !deferred_length //.
  - by rewrite Hwaiting.
  - by rewrite Hwaiting.
  - by rewrite Hwaiting.
  - by rewrite Hwaiting.
  - replace (2 * length ds) with (length (ws1 ++ ws2) + length ds) by lia.
    rewrite replicate_add run_app.
    destruct (run_resolves (ws1 ++ ws2) ds ready []) as [P HP].
    + rewrite Hprr. apply Forall2_same_length_lookup. split; [done|].
      intros i w d Hi Hd.
      pose proof (Forall2_lookup_lr _ _ _ _ _ _ Hws Hi Hd) as Hwd. cbn beta in Hwd.
      rewrite lookup_insert_ne //. intros <-. apply Hnin, list_elem_of_lookup. eauto.
    + done.
    + by rewrite Hmtr app_nil_r.
    + exists P. rewrite HP. rewrite (run_retries ch' ds); [done | done |]. done.
Qed.

(** X12. Calls made while the client reconnects wait for the new
    channel.  From a state with an empty job queue, when the channel fails
    with retries left, the calls of [rpcExec], [publish] and [consume] made
    before and after the retry timer fires are deferred, with nothing
    published, settled or thrown; when the new attempt has set up its
    channel and its reply queue, the job queue runs every one of them on
    the new channel, in the order the calls were made. *)
Theorem calls_wait_for_the_reconnection (o : UserConnectionOptions) (exch : string)
    (tr0 : list Event) (ch : nat) (l : Listener) (calls1 calls2 : list Event)
    (connection ch' : nat) (queue : string) :
  let s := run (init o exch) tr0 in
  listeners s !! ch = Some l → microtasks s = [] →
  Forall is_call calls1 → Forall is_call calls2 →
  let t := S (next s) in
  let tr1 := EvChannelError ch :: calls1 in
  let k := next (run s tr1) in
  let tr := tr1 ++ EvTimer t :: calls2 in
  let waiting := run s tr in
  let ds := deferred s tr in
  let ready :=
    run waiting [EvConnected k connection; EvChannelCreated k ch';
                 EvQueueAsserted k queue; EvQueueBound k] in
  (length ds = length calls1 + length calls2 ∧
   channel waiting = None ∧
   sent waiting = sent s ++ [OpClose (l_connection l); OpConnect] ∧
   settlements waiting = settlements s ∧ uncaught waiting = uncaught s) ∧
  (channel ready = Some ch' ∧ replyQueue ready = Some queue ∧
   sent ready =
     sent waiting ++
       [OpCreateChannel connection; OpAssertQueue ch' "" true;
        OpBindQueue ch' queue exch queue;
        OpConsume ch' (Some queue) ReplyConsumer DEFAULT_CONSUME_OPTIONS]) ∧
  ∃ P, run ready (replicate (2 * length ds) EvJob) =
         foldl (λ s d, invoke_ready ch' d s) (set_microtasks [] (set_promises P ready)) ds.
Proof.
  intros s Hl Hmt Hc1 Hc2.
  assert (linear s) as Hlin by (apply linear_run; [apply wf_init | apply linear_init]).
  assert (exchange s = exch) as Hex.
  { unfold s. by rewrite (proj2 (run_constants _ _)) init_state. }
  clearbody s. subst exch.
  apply (reconnection_drains s ch l calls1 calls2 connection ch' queue); try done.
  apply (ln_promises s Hlin).
Qed.

(** ** What a caller can be told *)

Lemma reply_outcome_rpc m o : reply_outcome m = Some o → rpc_outcome o.
Proof.
  unfold reply_outcome.
  destruct (parsed m) as [response|]; [|done].
  destruct (get response "error") as [error|]; [|done].
  destruct (get response "trace") as [trace|]; [|done].
  destruct (get response "data") as [data|]; [|done].
  intros [= <-]. destruct (truthy error), (truthy trace); cbn; auto.
Qed.

(** X13. Whatever happens, the promise of a call is only ever
    resolved with a value or rejected with one of four errors: the
    timeout error, the generic ['Fatal consumer error'], a
    ['Client error'], or the TypeError of [new Buffer], and this last one
    only when the executor of the call ran on a payload that
    [JSON.stringify] does not serialise.  No error of the transport, of
    the connection or of parsing a reply ever reaches the caller of
    [rpcExec]. *)
Theorem callers_see_four_errors (o : UserConnectionOptions) (exch : string)
    (tr : list Event) :
  Forall (λ x, rpc_outcome x.2 ∨ (x.2 = Reject TypeError ∧ refused (init o exch) tr x.1))
    (settlements (run (init o exch) tr)).
Proof.
  induction tr as [|e tr IH] using rev_ind; [by rewrite init_state|].
  assert (Forall (λ x, rpc_outcome x.2 ∨
                       (x.2 = Reject TypeError ∧ refused (init o exch) (tr ++ [e]) x.1))
            (settlements (run (init o exch) tr))) as IH'.
  { eapply Forall_impl; [exact IH|]. intros x [H | [H1 H2]]; [by left|right].
    split; [done|]. destruct H2 as (pre & e0 & post & key & data & opts & t & -> & H3 & H4).
    exists pre, e0, (post ++ [e]), key, data, opts, t. by rewrite -app_assoc. }
  rewrite run_snoc. set (s := run (init o exch) tr) in *.
  destruct (step_effect s e) as
    [? ? Hst | ? ? ? ? ? Hst | t id p' ms dl _ Ht _ _ Hst
    | m id cb _ _ Hcb _ _ Hst | ? ? ? ? ? Hst | ? ? ? ? ? ? ? Hst
    | p' t key data opts Hex Hjson _ _ Hst];
    rewrite Hst; try done.
  - apply Forall_app. split; [done|]. constructor; [|done]. left. cbn. right. by exists ms.
  - apply Forall_app. split; [done|].
    destruct (reply_outcome m) as [x|] eqn:Hx; [|done].
    constructor; [|done]. left. by apply (reply_outcome_rpc m).
  - apply Forall_app. split; [done|]. constructor; [|done]. right. split; [done|].
    by exists tr, e, [], key, data, opts, t.
Qed.

(** ** A payload that cannot be serialised *)

(** X18. [JSON.stringify] returns [undefined] for a payload it does
    not serialise, and [new Buffer] refuses it.  When the executor of
    [rpcExec] runs on such a payload the promise of the call is rejected
    with the TypeError at once: no correlation id is generated, no timer
    is armed, nothing is registered and nothing is published.  [publish]
    on a ready channel throws the TypeError to its caller and publishes
    nothing; when it is the retry of a deferred [publish] that throws,
    nothing handles the exception. *)
Theorem unserialisable_payload_is_refused (s : State) (ch : nat) (key : string)
    (data : value) (opts : RpcOptions) (sendopts : option Obj) (p t : nat) (e : Event)
    (rest : list Reaction) :
  JSON_stringify data = None →
  channel s = Some ch →
  (executes s key data opts p t e →
   let s' := step s e in
   settlements s' = settlements s ++ [(p, Reject TypeError)] ∧
   sent s' = sent s ∧ timers s' = timers s ∧ unresolved s' = unresolved s ∧
   uuidCount s' = uuidCount s ∧ uncaught s' = uncaught s) ∧
  publish key data sendopts s = (s, Some TypeError) ∧
  step s (EvPublish key data sendopts) = throw TypeError s ∧
  (microtasks s = RRetry (DPublish key data sendopts) :: rest →
   step s EvJob = throw TypeError (set_microtasks rest s)).
Proof.
  intros Hjson Hch. split_and!.
  - intros [ch' Hch' -> -> | ch' rest' Hch' Hjobs ->] s'; subst s'; cbn [step].
    + unfold call_rpcExec, rpcExec. fields. rewrite Hch'. unfold rpcExec_ready.
      rewrite Hjson. by fields.
    + unfold run_job. rewrite Hjobs. cbn [invoke]. unfold rpcExec. fields. rewrite Hch'.
      unfold rpcExec_ready. rewrite Hjson. by fields.
  - unfold publish, publish_ready. by rewrite Hch Hjson.
  - cbn [step]. unfold publish, publish_ready. by rewrite Hch Hjson.
  - intros Hjobs. cbn [step]. unfold run_job. rewrite Hjobs. cbn [invoke].
    unfold publish, publish_ready. fields. by rewrite Hch Hjson.
Qed.

(** ** Pending calls and the connection *)

(** X15. The connection never touches the calls in flight: whatever
    the transport reports (a connection, a channel, a queue, a failure, a
    channel error and the reconnection that follows), no entry of the
    registry is added or removed, no promise is settled, and every armed
    call timer stays armed.  A pending call is neither failed nor sent
    again when the channel is lost. *)
Theorem connection_events_spare_pending_calls (o : UserConnectionOptions)
    (exch : string) (tr0 tr : list Event) :
  let s := run (init o exch) tr0 in
  Forall is_connection_event tr →
  unresolved (run s tr) = unresolved s ∧
  settlements (run s tr) = settlements s ∧
  ∀ t tm, timers s !! t = Some tm → is_Some (timer_promise tm) →
          timers (run s tr) !! t = Some tm.
Proof.
  intros s Hev.
  assert (wf s) as Hwf by apply wf_run, wf_init.
  clearbody s. revert s Hwf. induction tr as [|e tr IH]; intros s Hwf; [done|].
  apply Forall_cons in Hev as [He Hev].
  cbn [run foldl]. fold (run (step s e) tr).
  destruct (IH Hev (step s e) (wf_step _ _ Hwf)) as (-> & -> & Htm).
  assert (unresolved (step s e) = unresolved s ∧ settlements (step s e) = settlements s ∧
          ∀ t tm, timers s !! t = Some tm → timers (step s e) !! t = Some tm)
    as (Hu & Hs & Ht).
  { destruct e as [key data opts | key data opts | queueName callback opts
                  | t connection | t ch | t queue | t | t | ch | message | t | ];
      try done; cbn [step].
    - unfold connected. by destruct (tasks s !! t) as [[p a [| | |] | ]|].
    - unfold channel_created.
      destruct (tasks s !! t) as [[p a [| connection | |] | ]|]; try done.
      fields. by case_match.
    - unfold queue_asserted.
      destruct (tasks s !! t) as [[p a [| | |] | q c o' []]|]; try done;
        fields; destruct (channel s) as [ch|]; try done.
      match goal with |- context [reject_promise ?q ?s0] =>
        destruct (reject_promise_shape q s0) as (P & M & ->) end. by fields.
    - unfold queue_bound.
      destruct (tasks s !! t) as [[p a [| | |] | q c o' []]|]; try done;
        fields; destruct (channel s) as [ch|]; try done.
      + match goal with |- context [fulfil ?q ?s0] =>
          destruct (fulfil_shape q s0) as (P & M & ->) end. by fields.
      + match goal with |- context [reject_promise ?q ?s0] =>
          destruct (reject_promise_shape q s0) as (P & M & ->) end. by fields.
    - unfold transport_failed.
      destruct (tasks s !! t) as [[p a ph | q c o' ph]|]; try done.
      match goal with |- context [reject_promise ?q ?s0] =>
        destruct (reject_promise_shape q s0) as (P & M & ->) end. by fields.
    - unfold channel_error. destruct (listeners s !! ch) as [l|]; [|done].
      unfold on_channel_error. fields. split_and!; [done | done |].
      intros t tm H. rewrite lookup_insert_ne //.
      pose proof (wf_timer_lt s Hwf _ _ H). lia. }
  split_and!; [done | done |]. intros t tm H1 H2. apply Htm; [by apply Ht | done].
Qed.

(** X16. With distinct correlation ids the calls in flight are
    isolated from one another and from everything else: the promise of a
    registered call is pending, and a task that is neither the timer of
    the call nor the delivery of a message with its correlation id leaves
    the entry in the registry, the timer armed and the promise pending. *)
Theorem registered_calls_are_isolated (Uuid_v4_fresh : Inj (=) (=) Uuid_v4)
    (o : UserConnectionOptions) (exch : string) (tr : list Event) (id : string)
    (cb : Callback) (e : Event) :
  let s := run (init o exch) tr in
  unresolved s !! id = Some cb →
  e ≠ EvTimer (cb_timer cb) →
  (∀ m, e = EvMessage m → correlationId m ≠ Some id) →
  outcomes (cb_promise cb) s = [] ∧
  unresolved (step s e) !! id = Some cb ∧
  timers (step s e) !! cb_timer cb = timers s !! cb_timer cb ∧
  outcomes (cb_promise cb) (step s e) = [].
Proof.
  intros s Hentry Hnt Hnm.
  assert (wf s) as Hwf by apply wf_run, wf_init.
  assert (linear s) as Hl by (apply linear_run; [apply wf_init | apply linear_init]).
  assert (fresh_ids s) as Hfr by (apply fresh_run; [done | apply wf_init | apply fresh_init]).
  pose proof (phase_run (cb_promise cb) (init o exch) tr (wf_init o exch)
                (linear_init o exch) (phase_init _ o exch)) as Hph.
  fold s in Hph.
  destruct (wf_callback s Hwf id cb Hentry) as [ms Harmed].
  assert (tracked (Some (cb_timer cb)) (cb_promise cb) s ∧ outcomes (cb_promise cb) s = [])
    as [Htr Hout].
  { destruct Hph as [Hfresh | Hnm' | t Htr Hout | Htr Hout].
    - pose proof (wf_timer_promise s Hwf _ _ _ Harmed eq_refl). lia.
    - by destruct (ln_timers s Hl _ _ _ Hnm' Harmed).
    - pose proof (tr_timers _ _ _ Htr _ _ Harmed eq_refl) as [= ->]. done.
    - by pose proof (tr_timers _ _ _ Htr _ _ Harmed eq_refl). }
  destruct (tracked_effect s e (step s e) _ _ Hwf Htr (step_effect s e))
    as [(Htr' & Hout' & Hkeep) | (t & id' & ms' & d & [= <-] & Harmed' & _ & He)].
  - split_and!; [done | | | congruence].
    + destruct (entry_step Uuid_v4_fresh s e id cb Hwf Hfr Hentry)
        as [(_ & _ & H) | ([-> | (m & -> & Hm)] & _)]; [done | done |].
      by destruct (Hnm m eq_refl).
    + by rewrite (Hkeep _ _ Harmed eq_refl).
  - rewrite Harmed in Harmed'. injection Harmed' as <- <- <-.
    destruct He as [-> | (m & -> & Hm)]; [done|]. by destruct (Hnm m eq_refl).
Qed.

End Properties.

(** * Concrete runs *)

Lemma uuid_fresh : Inj (=) (=) uuid_of.
Proof. intros m n H. unfold uuid_of in H. by apply (inj _), (inj pretty) in H. Qed.


(** ** The classification of replies, on scenario C of the specification *)

Lemma reply_classification_witness :
  correlationId (reply (envelope (VArr [VStr "bad field"]) (VBool true) VNull)) =
    Some (uuid_of 0) ∧
  unresolved pending_state !! uuid_of 0 = Some echo_callback ∧
  settlements
    (step (G := uuid) pending_state
       (EvMessage (reply (envelope (VArr [VStr "bad field"]) (VBool true) VNull)))) =
    [(2, Reject (ClientError "Client error" (VArr [VStr "bad field"])))].
Proof.
  split; [reflexivity|]. split; [reflexivity|].
  exact (proj1 (proj2
    (reply_classification (G := uuid) pending_state
       (reply (envelope (VArr [VStr "bad field"]) (VBool true) VNull))
       (uuid_of 0) echo_callback
       (envelope (VArr [VStr "bad field"]) (VBool true) VNull)
       (VBool true) VNull (VArr [VStr "bad field"])
       eq_refl eq_refl eq_refl eq_refl eq_refl eq_refl)) eq_refl eq_refl).
Defined.

Lemma fatal_reply_noninterference_witness :
  step (G := uuid) pending_state
    (EvMessage (reply (envelope VNull (VBool true) (VStr "stack A")))) =
  step (G := uuid) pending_state
    (EvMessage (reply (envelope (VStr "secret") (VNum 1) (VArr [VStr "stack B"])))).
Proof.
  exact (proj1
    (fatal_reply_noninterference (G := uuid) pending_state
       (reply (envelope VNull (VBool true) (VStr "stack A")))
       (reply (envelope (VStr "secret") (VNum 1) (VArr [VStr "stack B"])))
       (uuid_of 0) echo_callback
       (envelope VNull (VBool true) (VStr "stack A"))
       (envelope (VStr "secret") (VNum 1) (VArr [VStr "stack B"]))
       (VBool true) (VNum 1) (VStr "stack A") (VArr [VStr "stack B"])
       eq_refl eq_refl eq_refl eq_refl eq_refl eq_refl eq_refl eq_refl eq_refl
       eq_refl eq_refl eq_refl eq_refl)).
Defined.

(** A reply that comes after its call timed out, and a message without
    correlation id. *)
Lemma unmatched_reply_is_dropped_witness :
  step (G := uuid) (step (G := uuid) pending_state (EvTimer 3))
    (EvMessage (reply (envelope VNull (VBool false) VNull))) =
  step (G := uuid) pending_state (EvTimer 3) ∧
  step (G := uuid) pending_state (EvMessage {| correlationId := None; parsed := None |}) =
  pending_state.
Proof.
  split.
  - apply (unmatched_reply_is_dropped (G := uuid)).
    intros id H. injection H as <-. reflexivity.
  - apply (unmatched_reply_is_dropped (G := uuid)).
    intros id H. discriminate H.
Defined.

(** ** Timeouts, on scenario B of the specification *)

Lemma timeout_rejects_witness :
  executes ready_state "echo" (VObj []) {| timeout := Some 50%Z; publishOptions := ∅ |} 2 3
    short_call ∧
  JSON_stringify (VObj []) = Some (VObj []) ∧
  valid_delay 50 ∧
  calm 3 (uuid_of 0) [EvPublish "topic" VNull None; EvMessage {| correlationId := Some "other"; parsed := None |}] ∧
  outcomes 2
    (step (G := uuid)
       (run (G := uuid) (step (G := uuid) ready_state short_call)
          [EvPublish "topic" VNull None;
           EvMessage {| correlationId := Some "other"; parsed := None |}])
       (EvTimer 3)) =
    [Reject (Error "RPC Server failed to respond before the configured timeout (50ms)")].
Proof.
  assert (calm 3 (uuid_of 0)
            [EvPublish "topic" VNull None;
             EvMessage {| correlationId := Some "other"; parsed := None |}]) as Hcalm.
  { repeat constructor; try discriminate.
    intros m H. injection H as <-. discriminate. }
  assert (executes (run (G := uuid) (init default_options "msgr") handshake) "echo" (VObj [])
            {| timeout := Some 50%Z; publishOptions := ∅ |} 2 3
            (EvRpcExec "echo" (VObj []) {| timeout := Some 50%Z; publishOptions := ∅ |}))
    as Hex.
  { apply (executes_call _ _ _ _ _ _ 8); reflexivity. }
  assert (valid_delay 50) as Hsafe by (unfold valid_delay; lia).
  split; [exact Hex|]. split; [reflexivity|]. split; [exact Hsafe|]. split; [exact Hcalm|].
  exact (proj1 (proj2 (proj2
    (timeout_rejects (G := uuid) default_options "msgr" handshake "echo" (VObj []) (VObj [])
       {| timeout := Some 50%Z; publishOptions := ∅ |} 2 3 short_call
       [EvPublish "topic" VNull None;
        EvMessage {| correlationId := Some "other"; parsed := None |}]
       Hex eq_refl Hsafe Hcalm)))).
Defined.

(** A deferred call with [timeout: 0], when it is retried on the channel
    of the first attempt. *)
Lemma falsy_timeout_is_default_witness :
  executes
    (run (G := uuid) (init default_options "msgr")
       (EvRpcExec "echo" (VObj []) {| timeout := Some 0%Z; publishOptions := ∅ |} ::
        handshake ++ [EvJob]))
    "echo" (VObj []) {| timeout := Some 0%Z; publishOptions := ∅ |} 2 4 EvJob ∧
  JSON_stringify (VObj []) = Some (VObj []) ∧
  timers
    (step (G := uuid)
       (run (G := uuid) (init default_options "msgr")
          (EvRpcExec "echo" (VObj []) {| timeout := Some 0%Z; publishOptions := ∅ |} ::
           handshake ++ [EvJob]))
       EvJob) !! 4 =
    Some {| handler := RpcTimeout (uuid_of 0) 2 15000; delay := 15000 |}.
Proof.
  assert (executes
            (run (G := uuid) (init default_options "msgr")
               (EvRpcExec "echo" (VObj []) {| timeout := Some 0%Z; publishOptions := ∅ |} ::
                handshake ++ [EvJob]))
            "echo" (VObj []) {| timeout := Some 0%Z; publishOptions := ∅ |} 2 4 EvJob) as Hex.
  { apply (executes_retry _ _ _ _ _ _ 8 []); reflexivity. }
  split; [exact Hex|]. split; [reflexivity|].
  exact (proj1 (proj2
    (falsy_timeout_is_default (G := uuid) _ "echo" (VObj []) (VObj [])
       {| timeout := Some 0%Z; publishOptions := ∅ |} 2 4 EvJob Hex eq_refl
       (or_intror eq_refl)))).
Defined.

(** ** The registry *)

Lemma registry_tracks_outstanding_calls_witness :
  Inj (=) (=) uuid_of ∧
  outstanding (G := uuid) (init default_options "msgr") (handshake ++ [echo_call])
    (uuid_of 0) echo_callback ∧
  outcomes 2
    (run (G := uuid)
       (step (G := uuid)
          (run (G := uuid) (init default_options "msgr") (handshake ++ [echo_call]))
          (EvMessage ok_reply))
       [EvTimer 3; EvMessage ok_reply]) =
    [Resolve (VObj [("n", VNum 1)])].
Proof.
  assert (unresolved (run (G := uuid) (init default_options "msgr") (handshake ++ [echo_call]))
            !! uuid_of 0 = Some echo_callback) as Hentry by reflexivity.
  pose proof (registry_tracks_outstanding_calls (G := uuid) uuid_fresh default_options "msgr"
                (handshake ++ [echo_call]) (uuid_of 0) echo_callback) as [Hiff Hrace].
  split; [exact uuid_fresh|]. split; [exact (proj1 Hiff Hentry)|].
  destruct (Hrace Hentry) as (ms & _ & _ & Hends).
  exact (proj1 (proj2 (proj2
    (Hends (EvMessage ok_reply) [EvTimer 3; EvMessage ok_reply]
       (or_intror (ex_intro _ ok_reply (conj eq_refl eq_refl))))))).
Defined.

(** ** A reply that cannot be read *)

(** The reply [null] to the pending call of scenario A: the callback has
    cleared timer 3 and thrown, and promise 2 is never settled. *)
Lemma unreadable_reply_strands_the_call_witness :
  unresolved (run (G := uuid) (init default_options "msgr") (handshake ++ [echo_call]))
    !! uuid_of 0 = Some echo_callback ∧
  correlationId null_reply = Some (uuid_of 0) ∧
  reply_outcome null_reply = None ∧
  uncaught
    (step (G := uuid)
       (run (G := uuid) (init default_options "msgr") (handshake ++ [echo_call]))
       (EvMessage null_reply)) = [TypeError] ∧
  ∀ tr,
    outcomes 2
      (run (G := uuid)
         (step (G := uuid)
            (run (G := uuid) (init default_options "msgr") (handshake ++ [echo_call]))
            (EvMessage null_reply))
         tr) = [].
Proof.
  pose proof (unreadable_reply_strands_the_call (G := uuid) default_options "msgr"
                (handshake ++ [echo_call]) (uuid_of 0) echo_callback null_reply
                eq_refl eq_refl eq_refl) as (_ & _ & _ & Hun & Hnever).
  split; [reflexivity|]. split; [reflexivity|]. split; [reflexivity|].
  split; [exact Hun | exact Hnever].
Defined.

(** ** A call that is not sent *)

(** [rpcExec("echo", {}, {timeout: 50})] before the first [AMQP.connect]
    has answered, which then fails. *)
Lemma unsent_call_has_no_timeout_witness :
  channel (init default_options "msgr") = None ∧
  (∀ pre post, [EvTransportFailed 1] = pre ++ post →
     channel (run (G := uuid) (step (G := uuid) (init default_options "msgr") short_call) pre) =
       None) ∧
  stranded
    (run (G := uuid) (step (G := uuid) (init default_options "msgr") short_call)
       [EvTransportFailed 1]) ∧
  ∀ tr',
    outcomes 2
      (run (G := uuid)
         (run (G := uuid) (step (G := uuid) (init default_options "msgr") short_call)
            [EvTransportFailed 1])
         tr') = [].
Proof.
  assert (∀ pre post, [EvTransportFailed 1] = pre ++ post →
            channel (run (G := uuid) (step (G := uuid) (init default_options "msgr") short_call)
                       pre) = None) as Hnone.
  { intros [|e [|e' pre]] post H; [reflexivity | |].
    - injection H as <- _. reflexivity.
    - injection H as _ H. discriminate H. }
  assert (stranded
            (run (G := uuid) (step (G := uuid) (init default_options "msgr") short_call)
               [EvTransportFailed 1])) as Hst.
  { split; try reflexivity.
    - eexists. split; reflexivity.
    - change (0 < 4). lia. }
  split; [reflexivity|]. split; [exact Hnone|]. split; [exact Hst|].
  intros tr'.
  exact (proj1
    (proj2 (unsent_call_has_no_timeout (G := uuid) default_options "msgr" [] "echo" (VObj [])
              {| timeout := Some 50%Z; publishOptions := ∅ |} [EvTransportFailed 1]
              eq_refl Hnone)
       Hst tr')).
Defined.

(** ** Calls made before the channel exists *)

(** Three calls, the setup of the channel and the six jobs it queues:
    the request of [rpcExec], then the message of [publish], then the queue
    of [consume], in the order of the calls. *)
Lemma deferred_calls_run_in_order_witness :
  Forall is_call [echo_call; early_publish] ∧ Forall is_call [early_consume] ∧
  ∃ P,
    run (G := uuid)
      (run (G := uuid)
         (run (G := uuid) (init default_options "msgr")
            ([echo_call; early_publish] ++ EvConnected 1 7 :: [early_consume]))
         [EvChannelCreated 1 8; EvQueueAsserted 1 "amq.gen-1"; EvQueueBound 1])
      (replicate 6 EvJob) =
    foldl (λ s d, invoke_ready (G := uuid) 8 d s)
      (set_microtasks []
         (set_promises P
            (run (G := uuid)
               (run (G := uuid) (init default_options "msgr")
                  ([echo_call; early_publish] ++ EvConnected 1 7 :: [early_consume]))
               [EvChannelCreated 1 8; EvQueueAsserted 1 "amq.gen-1"; EvQueueBound 1])))
      [DRpcExec "echo" (VObj [("n", VNum 1)]) no_options 2;
       DPublish "topic" (VStr "hello") None;
       DConsume "jobs" 0 ∅].
Proof.
  assert (Forall is_call [echo_call; early_publish]) as H1 by (repeat constructor).
  assert (Forall is_call [early_consume]) as H2 by (repeat constructor).
  split; [exact H1|]. split; [exact H2|].
  exact (proj2 (proj2
    (deferred_calls_run_in_order (G := uuid) default_options "msgr"
       [echo_call; early_publish] [early_consume] 7 8 "amq.gen-1" H1 H2))).
Defined.

(** After [lost_call_trace] the deferred call is shelved on promise 3 and
    the promise it returned, 2, is orphaned. *)
Lemma lost_call_is_shelved :
  shelved 3 (DRpcExec "echo" (VObj [("n", VNum 1)]) no_options 2)
    (run (G := uuid) (init default_options "msgr") lost_call_trace) ∧
  orphaned 2 3 (run (G := uuid) (init default_options "msgr") lost_call_trace).
Proof.
  set (s := run (G := uuid) (init default_options "msgr") lost_call_trace).
  assert (map_to_list (promises s) =
            [(4, {| status := Fulfilled; reactions := [] |});
             (3, {| status := Pending;
                    reactions :=
                      [RRetry (DRpcExec "echo" (VObj [("n", VNum 1)]) no_options 2)] |});
             (0, {| status := Rejected; reactions := [] |})]) as HP by reflexivity.
  assert (microtasks s = []) as HJ by reflexivity.
  assert (tasks s = ∅) as HT by reflexivity.
  assert (timers s = ∅) as HM by reflexivity.
  assert (unresolved s = ∅) as HU by reflexivity.
  assert (next s = 7) as HN by reflexivity.
  assert (channelPromise s = 4) as HC by reflexivity.
  assert (promises s !! 3 =
            Some {| status := Pending;
                    reactions :=
                      [RRetry (DRpcExec "echo" (VObj [("n", VNum 1)]) no_options 2)] |})
    as HW by reflexivity.
  clearbody s. split; split.
  - exact HW.
  - rewrite HN. lia.
  - by rewrite HC.
  - rewrite HJ. apply not_elem_of_nil.
  - intros q Q HQ%elem_of_map_to_list. rewrite HP in HQ.
    repeat (apply elem_of_cons in HQ as [[= -> ->] | HQ]);
      [| | |by apply elem_of_nil in HQ]; cbn [reactions].
    + apply not_elem_of_nil.
    + by intros [=]%list_elem_of_singleton.
    + apply not_elem_of_nil.
  - intros t p a ph. by rewrite HT lookup_empty.
  - intros t p a dl. by rewrite HM lookup_empty.
  - rewrite HN. lia.
  - intros t tm. by rewrite HM lookup_empty.
  - intros id cb. by rewrite HU lookup_empty.
  - intros r. rewrite HJ. by intros ?%elem_of_nil.
  - intros q Q r HQ%elem_of_map_to_list. rewrite HP in HQ.
    repeat (apply elem_of_cons in HQ as [[= -> ->] | HQ]);
      [| | |by apply elem_of_nil in HQ]; cbn [reactions]; try done; by intros ?%elem_of_nil.
Qed.

(** C8. A call deferred while a connection attempt is in flight is
    dropped when that attempt fails, although the client reconnects.  The
    second attempt has made the channel ready, and the call deferred
    during the first one was neither published nor settled.  It never will
    be: whatever happens next, its retry stays attached to the pending
    promise 3, which nothing resolves, and the promise it returned, 2,
    stays unsettled. *)
Lemma deferred_call_is_lost :
  channel (run (G := uuid) (init default_options "msgr") lost_call_trace) = Some 10 ∧
  sent (run (G := uuid) (init default_options "msgr") lost_call_trace) =
    [OpConnect; OpCreateChannel 7; OpAssertQueue 8 "" true; OpClose 7;
     OpConnect; OpCreateChannel 9; OpAssertQueue 10 "" true;
     OpBindQueue 10 "amq.gen-2" "msgr" "amq.gen-2";
     OpConsume 10 (Some "amq.gen-2") ReplyConsumer DEFAULT_CONSUME_OPTIONS] ∧
  ∀ tr,
    promises
      (run (G := uuid) (run (G := uuid) (init default_options "msgr") lost_call_trace) tr)
      !! 3 =
      Some {| status := Pending;
              reactions := [RRetry (DRpcExec "echo" (VObj [("n", VNum 1)]) no_options 2)] |} ∧
    outcomes 2
      (run (G := uuid) (run (G := uuid) (init default_options "msgr") lost_call_trace) tr) =
      [].
Proof.
  split; [reflexivity|]. split; [reflexivity|]. intros tr.
  destruct lost_call_is_shelved as [Hsh Hor].
  destruct (lost_forever (G := uuid) _ _ _ _ tr Hsh Hor) as [Hsh' Hout].
  split; [apply (sh_promise _ _ _ Hsh')|].
  rewrite Hout. reflexivity.
Qed.

(** ** The options of the request *)

(** C6. The publish options a caller passes to [rpcExec] do not
    reach the transport.  [rpcExec("k", {}, {persistent: true})] on the
    ready channel: the request is published with the four options the
    source sets and without [persistent]. *)
Lemma rpcExec_drops_publish_options :
  sent
    (step (G := uuid) ready_state
       (EvRpcExec "k" (VObj [])
          {| timeout := None; publishOptions := {[ "persistent" := VBool true ]} |})) =
    [OpConnect; OpCreateChannel 7; OpAssertQueue 8 "" true;
     OpBindQueue 8 "amq.gen-1" "msgr" "amq.gen-1";
     OpConsume 8 (Some "amq.gen-1") ReplyConsumer DEFAULT_CONSUME_OPTIONS;
     OpPublish 8 "msgr" "k" (VObj [])
       (Some (sendOptions "uuid-0" (Some "amq.gen-1") 15000))] ∧
  sendOptions "uuid-0" (Some "amq.gen-1") 15000 !! "contentType" =
    Some (VStr "application/json") ∧
  sendOptions "uuid-0" (Some "amq.gen-1") 15000 !! "correlationId" = Some (VStr "uuid-0") ∧
  sendOptions "uuid-0" (Some "amq.gen-1") 15000 !! "replyTo" = Some (VStr "amq.gen-1") ∧
  sendOptions "uuid-0" (Some "amq.gen-1") 15000 !! "expiration" = Some (VNum 15000) ∧
  sendOptions "uuid-0" (Some "amq.gen-1") 15000 !! "persistent" = None.
Proof. split_and!; reflexivity. Qed.

(** ** The retry budget *)

Lemma exhausted_state_is_stranded :
  stranded (run (G := uuid) (init two_attempts "msgr") exhausted_trace).
Proof.
  split; try reflexivity.
  - eexists. split; reflexivity.
  - change (2 < 7). lia.
Qed.

(** C7. When the retry budget is exhausted the failure reaches no
    caller.  The call made while the client was reconnecting stays
    deferred on promise 5; whatever happens next, promise 4, which that
    call returned, is never settled, and the call is never published. *)
Lemma exhausted_retries_strand_callers (tr : list Event) :
  promises (run (G := uuid) (init two_attempts "msgr") exhausted_trace) !! 5 =
    Some {| status := Pending;
            reactions := [RRetry (DRpcExec "echo" (VObj [("n", VNum 1)]) no_options 4)] |} ∧
  outcomes 4 (run (G := uuid) (run (G := uuid) (init two_attempts "msgr") exhausted_trace) tr) = [] ∧
  sent (run (G := uuid) (run (G := uuid) (init two_attempts "msgr") exhausted_trace) tr) =
    [OpConnect; OpCreateChannel 7; OpAssertQueue 8 "" true;
     OpBindQueue 8 "amq.gen-1" "msgr" "amq.gen-1";
     OpConsume 8 (Some "amq.gen-1") ReplyConsumer DEFAULT_CONSUME_OPTIONS;
     OpClose 7; OpConnect].
Proof.
  destruct (stranded_forever (G := uuid) _ tr exhausted_state_is_stranded) as [Hs Hsent].
  split; [reflexivity|]. split.
  - unfold outcomes. rewrite Hs. reflexivity.
  - rewrite Hsent. reflexivity.
Qed.

(** ** Calls without a channel *)

Lemma deferred_call_is_silent_witness :
  channel (init default_options "msgr") = None ∧ is_call echo_call ∧
  sent (step (G := uuid) (init default_options "msgr") echo_call) = [OpConnect] ∧
  timers (step (G := uuid) (init default_options "msgr") echo_call) = ∅.
Proof.
  pose proof (deferred_call_is_silent (G := uuid) (init default_options "msgr") echo_call
                eq_refl I) as (H1 & _ & _ & _ & H2 & _).
  split; [reflexivity|]. split; [exact I|]. split; [exact H1 | exact H2].
Defined.

Lemma registry_entries_are_armed_witness :
  unresolved (run (G := uuid) (init default_options "msgr") (handshake ++ [echo_call]))
    !! uuid_of 0 = Some echo_callback ∧
  ∃ ms,
    timers (run (G := uuid) (init default_options "msgr") (handshake ++ [echo_call])) !! 3 =
      Some {| handler := RpcTimeout (uuid_of 0) 2 ms; delay := ms |}.
Proof.
  assert (unresolved (run (G := uuid) (init default_options "msgr") (handshake ++ [echo_call]))
            !! uuid_of 0 = Some echo_callback) as H by reflexivity.
  split; [exact H|].
  destruct (registry_entries_are_armed (G := uuid) default_options "msgr"
              (handshake ++ [echo_call]) (uuid_of 0) echo_callback H) as (ms & Hms & _).
  exists ms. exact Hms.
Defined.

Lemma request_before_reply_queue_witness :
  (∀ t queue, EvQueueAsserted t queue ∉ [EvConnected 1 7; EvChannelCreated 1 8]) ∧
  channel (run (G := uuid) (init default_options "msgr")
             [EvConnected 1 7; EvChannelCreated 1 8]) = Some 8 ∧
  JSON_stringify (VObj [("n", VNum 1)]) = Some (VObj [("n", VNum 1)]) ∧
  ∃ so,
    sent (step (G := uuid)
            (run (G := uuid) (init default_options "msgr")
               [EvConnected 1 7; EvChannelCreated 1 8]) echo_call) =
      sent (run (G := uuid) (init default_options "msgr")
              [EvConnected 1 7; EvChannelCreated 1 8]) ++
        [OpPublish 8 "msgr" "echo" (VObj [("n", VNum 1)]) (Some so)] ∧
    so !! "replyTo" = Some VUndefined.
Proof.
  assert (∀ t queue, EvQueueAsserted t queue ∉ [EvConnected 1 7; EvChannelCreated 1 8])
    as Hno.
  { intros t queue H. repeat (apply elem_of_cons in H as [H|H]; [discriminate|]).
    by apply elem_of_nil in H. }
  split; [exact Hno|]. split; [reflexivity|]. split; [reflexivity|].
  exact (request_before_reply_queue (G := uuid) default_options "msgr"
           [EvConnected 1 7; EvChannelCreated 1 8] 8 "echo" (VObj [("n", VNum 1)])
           (VObj [("n", VNum 1)]) no_options Hno eq_refl eq_refl).
Defined.

Lemma colliding_ids_share_an_entry_witness :
  channel (run (G := stuck) (init default_options "msgr") handshake) = Some 8 ∧
  JSON_stringify VNull = Some VNull ∧
  unresolved
    (step (G := stuck)
       (step (G := stuck) (run (G := stuck) (init default_options "msgr") handshake)
          (EvRpcExec "a" VNull no_options))
       (EvRpcExec "b" VNull no_options))
    !! Uuid_v4 (UuidGen := stuck) 0 = Some {| cb_timer := 5; cb_promise := 4 |}.
Proof.
  split; [reflexivity|]. split; [reflexivity|].
  exact (proj1
    (colliding_ids_share_an_entry (G := stuck)
       (run (G := stuck) (init default_options "msgr") handshake) 8 "a" "b" VNull VNull
       VNull VNull no_options no_options eq_refl eq_refl eq_refl eq_refl)).
Defined.

Lemma consume_subscribes_witness :
  channel (run (G := uuid) (init default_options "msgr") handshake) = Some 8 ∧
  sent
    (run (G := uuid) (run (G := uuid) (init default_options "msgr") handshake)
       [EvConsume "jobs" 0 {[ "noAck" := VBool false ]}; EvQueueAsserted 2 "jobs";
        EvQueueBound 2]) =
    sent (run (G := uuid) (init default_options "msgr") handshake) ++
      [OpAssertQueue 8 "jobs" false; OpBindQueue 8 "jobs" "msgr" "jobs";
       OpConsume 8 (Some "jobs") (UserConsumer 0)
         (Object_assign DEFAULT_CONSUME_OPTIONS {[ "noAck" := VBool false ]})] ∧
  Object_assign DEFAULT_CONSUME_OPTIONS {[ "noAck" := VBool false ]} !! "noAck" =
    Some (VBool false).
Proof.
  pose proof (consume_subscribes (G := uuid)
                (run (G := uuid) (init default_options "msgr") handshake) 8 "jobs" "jobs" 0
                {[ "noAck" := VBool false ]} eq_refl) as (H1 & _ & H2 & _).
  split; [reflexivity|]. split; [exact H1 | exact H2].
Defined.

Lemma consume_is_abandoned_on_channel_error_witness :
  channel (run (G := uuid) (init default_options "msgr") handshake) = Some 8 ∧
  listeners (run (G := uuid) (init default_options "msgr") handshake) !! 8 =
    Some first_listener ∧
  uncaught
    (run (G := uuid) (run (G := uuid) (init default_options "msgr") handshake)
       [EvConsume "jobs" 0 ∅; EvChannelError 8; EvQueueAsserted 2 "jobs"]) =
    uncaught (run (G := uuid) (init default_options "msgr") handshake) ++ [TypeError].
Proof.
  split; [reflexivity|]. split; [reflexivity|].
  exact (proj1 (proj2
    (consume_is_abandoned_on_channel_error (G := uuid)
       (run (G := uuid) (init default_options "msgr") handshake) 8 first_listener
       "jobs" "jobs" 0 ∅ eq_refl eq_refl))).
Defined.

Lemma last_channel_is_kept_witness :
  tasks (run (G := uuid) (init single_attempt "msgr") [EvConnected 1 7]) !! 1 =
    Some (ConnectTask 0 1 (AwaitCreateChannel 7)) ∧
  (maxConnectionAttempts
     (options (run (G := uuid) (init single_attempt "msgr") [EvConnected 1 7])) ≤ 1)%Z ∧
  channel
    (run (G := uuid)
       (step (G := uuid) (run (G := uuid) (init single_attempt "msgr") [EvConnected 1 7])
          (EvChannelCreated 1 8))
       [EvChannelError 8; echo_call]) = Some 8.
Proof.
  assert ((maxConnectionAttempts
             (options (run (G := uuid) (init single_attempt "msgr") [EvConnected 1 7])) ≤ 1)%Z)
    as Hmax by (by change (1 ≤ 1)%Z).
  split; [reflexivity|]. split; [exact Hmax|].
  exact (proj1
    (last_channel_is_kept (G := uuid) single_attempt "msgr" [EvConnected 1 7] 1 0 1 7 8
       eq_refl Hmax [EvChannelError 8; echo_call])).
Defined.

Lemma ack_uses_the_current_channel_witness :
  listeners (run (G := uuid) (init default_options "msgr") handshake) !! 8 =
    Some first_listener ∧
  user_consumer 0 job_message =
    inr (0, {| content := VObj [("job", VNum 7)]; source := job_message |}) ∧
  ack {| content := VObj [("job", VNum 7)]; source := job_message |}
    (run (G := uuid) (run (G := uuid) (init default_options "msgr") handshake)
       [EvChannelError 8;
        EvTimer (S (next (run (G := uuid) (init default_options "msgr") handshake)));
        EvConnected (S (S (next (run (G := uuid) (init default_options "msgr") handshake)))) 9;
        EvChannelCreated
          (S (S (next (run (G := uuid) (init default_options "msgr") handshake)))) 10]) =
    inr (10, job_message).
Proof.
  split; [reflexivity|]. split; [reflexivity|].
  exact (proj2 (proj2
    (ack_uses_the_current_channel (G := uuid)
       (run (G := uuid) (init default_options "msgr") handshake) 8 first_listener 0
       job_message {| content := VObj [("job", VNum 7)]; source := job_message |} 9 10
       eq_refl eq_refl))).
Defined.

Lemma calls_wait_for_the_reconnection_witness :
  listeners (run (G := uuid) (init default_options "msgr") handshake) !! 8 =
    Some first_listener ∧
  microtasks (run (G := uuid) (init default_options "msgr") handshake) = [] ∧
  Forall is_call [echo_call] ∧ Forall is_call [early_publish] ∧
  length
    (deferred (G := uuid) (run (G := uuid) (init default_options "msgr") handshake)
       ((EvChannelError 8 :: [echo_call]) ++
          EvTimer (S (next (run (G := uuid) (init default_options "msgr") handshake))) ::
          [early_publish])) = 2.
Proof.
  assert (Forall is_call [echo_call]) as H1 by (repeat constructor).
  assert (Forall is_call [early_publish]) as H2 by (repeat constructor).
  split; [reflexivity|]. split; [reflexivity|]. split; [exact H1|]. split; [exact H2|].
  exact (proj1 (proj1
    (calls_wait_for_the_reconnection (G := uuid) default_options "msgr" handshake 8
       first_listener [echo_call] [early_publish] 9 10 "amq.gen-2"
       eq_refl eq_refl H1 H2))).
Defined.

(** ** A payload that cannot be serialised *)

(** [rpcExec("echo", undefined)] and [publish("topic", undefined)] on the
    channel of the first attempt. *)
Lemma unserialisable_payload_is_refused_witness :
  JSON_stringify VUndefined = None ∧
  channel (run (G := uuid) (init default_options "msgr") handshake) = Some 8 ∧
  executes (run (G := uuid) (init default_options "msgr") handshake) "echo" VUndefined
    no_options 2 3 (EvRpcExec "echo" VUndefined no_options) ∧
  settlements
    (step (G := uuid) (run (G := uuid) (init default_options "msgr") handshake)
       (EvRpcExec "echo" VUndefined no_options)) = [(2, Reject TypeError)] ∧
  publish "topic" VUndefined None
    (run (G := uuid) (init default_options "msgr") handshake) =
    (run (G := uuid) (init default_options "msgr") handshake, Some TypeError).
Proof.
  assert (executes (run (G := uuid) (init default_options "msgr") handshake) "echo" VUndefined
            no_options 2 3 (EvRpcExec "echo" VUndefined no_options)) as Hex.
  { apply (executes_call _ _ _ _ _ _ 8); reflexivity. }
  pose proof (unserialisable_payload_is_refused (G := uuid)
                (run (G := uuid) (init default_options "msgr") handshake) 8 "echo" VUndefined
                no_options None 2 3 (EvRpcExec "echo" VUndefined no_options) []
                eq_refl eq_refl) as (Hrpc & _).
  pose proof (unserialisable_payload_is_refused (G := uuid)
                (run (G := uuid) (init default_options "msgr") handshake) 8 "topic" VUndefined
                no_options None 2 3 (EvRpcExec "topic" VUndefined no_options) []
                eq_refl eq_refl) as (_ & Hpub & _).
  split; [reflexivity|]. split; [reflexivity|]. split; [exact Hex|].
  split; [exact (proj1 (Hrpc Hex)) | exact Hpub].
Defined.

(** ** Calls in flight *)

Lemma connection_events_spare_pending_calls_witness :
  Forall is_connection_event [EvChannelError 8; EvTransportFailed 6] ∧
  unresolved
    (run (G := uuid)
       (run (G := uuid) (init default_options "msgr") (handshake ++ [echo_call]))
       [EvChannelError 8; EvTransportFailed 6]) =
    unresolved (run (G := uuid) (init default_options "msgr") (handshake ++ [echo_call])).
Proof.
  assert (Forall is_connection_event [EvChannelError 8; EvTransportFailed 6]) as H
    by (repeat constructor).
  split; [exact H|].
  exact (proj1
    (connection_events_spare_pending_calls (G := uuid) default_options "msgr"
       (handshake ++ [echo_call]) [EvChannelError 8; EvTransportFailed 6] H)).
Defined.

Lemma registered_calls_are_isolated_witness :
  Inj (=) (=) uuid_of ∧
  unresolved (run (G := uuid) (init default_options "msgr") (handshake ++ [echo_call]))
    !! uuid_of 0 = Some echo_callback ∧
  EvChannelError 8 ≠ EvTimer (cb_timer echo_callback) ∧
  (∀ m, EvChannelError 8 = EvMessage m → correlationId m ≠ Some (uuid_of 0)) ∧
  unresolved
    (step (G := uuid)
       (run (G := uuid) (init default_options "msgr") (handshake ++ [echo_call]))
       (EvChannelError 8)) !! uuid_of 0 = Some echo_callback.
Proof.
  assert (unresolved (run (G := uuid) (init default_options "msgr") (handshake ++ [echo_call]))
            !! uuid_of 0 = Some echo_callback) as H by reflexivity.
  assert (EvChannelError 8 ≠ EvTimer (cb_timer echo_callback)) as Hnt by discriminate.
  assert (∀ m, EvChannelError 8 = EvMessage m → correlationId m ≠ Some (uuid_of 0)) as Hnm
    by discriminate.
  split; [exact uuid_fresh|]. split; [exact H|]. split; [exact Hnt|]. split; [exact Hnm|].
  exact (proj1 (proj2
    (registered_calls_are_isolated (G := uuid) uuid_fresh default_options "msgr"
       (handshake ++ [echo_call]) (uuid_of 0) echo_callback (EvChannelError 8)
       H Hnt Hnm))).
Defined.
